(** * The genetic optimizer of influx-crypto-trader, embedded in Rocq

    Source: [src/indicators/ema.ts], second document of the file (the
    optimizer: [randomBetween], [createTraderWorker], [randomIndiv],
    [tournamentSelection], [getFitness], [calcSharpeRatio], [calcFitness],
    [mutate], [crossover], [breedNewGeneration], [makeGeneration] and
    [Optimizer.genetic]).

    Conventions of the embedding.
    - A JavaScript number is a [num]: an exact rational, or one of the three
      special values [PInf], [NInf], [NaN].  Rounding of IEEE doubles is not
      modelled; the special values and the way arithmetic and comparisons
      treat them are.  There is a single zero (every zero divisor that occurs
      in the optimizer is a positive zero).
    - [Math.random] is a stream [rnd : nat -> Q] read through a cursor; every
      function that draws random numbers passes the cursor along.
    - A [throw] is the [Throw] constructor of [res].
    - What the JavaScript runtime and the simulation engine provide (square
      roots, date parsing, string coercions, [init]/[start]/[stop]) is a
      parameter: the class [JsRuntime] and the record [Engine].
    - A configuration is a value.  In the source the workers of a run share
      one [env] object (the spread in [createTraderWorker] copies the
      reference); the optimizer writes three of its fields: [aggTimes] and
      [candleSetPlugins], always with an empty array, and [backtest], in a
      task just before [init].  Each worker carries its own copy here.
    - A method of the engine is a function of the worker it is called on:
      the tasks of a generation do not influence one another through the
      engine.
    - The logger and the file system do not fail. *)

From Stdlib Require Import QArith Qround Lia Lqa Sorted.
From stdpp Require Import gmap strings list pretty.

(** ** JavaScript numbers *)

Module Num.

Inductive num : Type :=
| Fin (q : Q)
| PInf
| NInf
| NaN.

(** Finite results are kept in lowest terms, so that equal numbers are equal
    terms. *)
Definition fin (q : Q) : num := Fin (Qred q).

Definition of_Z (z : Z) : num := Fin (inject_Z z).
Definition of_nat (n : nat) : num := of_Z (Z.of_nat n).

(** Sign of a number: [Gt] positive, [Lt] negative, [Eq] zero (or NaN). *)
Definition sign (x : num) : comparison :=
  match x with
  | Fin q => (q ?= 0)%Q
  | PInf => Gt
  | NInf => Lt
  | NaN => Eq
  end.

Definition inf_of (c : comparison) : num :=
  match c with Gt => PInf | Lt => NInf | Eq => NaN end.

Definition sign_mul (a b : comparison) : comparison :=
  match a, b with
  | Eq, _ | _, Eq => Eq
  | Gt, Gt | Lt, Lt => Gt
  | _, _ => Lt
  end.

Definition opp (x : num) : num :=
  match x with
  | Fin q => fin (- q)
  | PInf => NInf
  | NInf => PInf
  | NaN => NaN
  end.

Definition add (x y : num) : num :=
  match x, y with
  | NaN, _ | _, NaN => NaN
  | Fin a, Fin b => fin (a + b)
  | PInf, NInf | NInf, PInf => NaN
  | PInf, _ | _, PInf => PInf
  | NInf, _ | _, NInf => NInf
  end.

Definition sub (x y : num) : num := add x (opp y).

Definition mul (x y : num) : num :=
  match x, y with
  | NaN, _ | _, NaN => NaN
  | Fin a, Fin b => fin (a * b)
  | _, _ => inf_of (sign_mul (sign x) (sign y))
  end.

(** [x / y].  A finite number over zero is an infinity of its sign, [0 / 0]
    and [inf / inf] are NaN. *)
Definition div (x y : num) : num :=
  match x, y with
  | NaN, _ | _, NaN => NaN
  | Fin a, Fin b => if Qeq_bool b 0 then inf_of (a ?= 0)%Q else fin (a / b)
  | Fin _, _ => Fin 0
  | _, Fin b => if Qeq_bool b 0 then x else inf_of (sign_mul (sign x) (sign y))
  | _, _ => NaN
  end.

(** [x < y]; false as soon as one side is NaN. *)
Definition ltb (x y : num) : bool :=
  match x, y with
  | NaN, _ | _, NaN => false
  | Fin a, Fin b => negb (Qle_bool b a)
  | Fin _, PInf => true
  | Fin _, NInf => false
  | PInf, _ => false
  | NInf, NInf => false
  | NInf, _ => true
  end.

Definition gtb (x y : num) : bool := ltb y x.

(** [x <= y]; false as soon as one side is NaN. *)
Definition leb (x y : num) : bool :=
  match x, y with
  | NaN, _ | _, NaN => false
  | Fin a, Fin b => Qle_bool a b
  | _, PInf => true
  | NInf, _ => true
  | _, _ => false
  end.

(** [x === y] on numbers. *)
Definition strict_eq (x y : num) : bool :=
  match x, y with
  | Fin a, Fin b => Qeq_bool a b
  | PInf, PInf | NInf, NInf => true
  | _, _ => false
  end.

(** [Math.floor] and [Math.round] (round half up). *)
Definition floor (x : num) : num :=
  match x with
  | Fin q => of_Z (Qfloor q)
  | _ => x
  end.

Definition round (x : num) : num :=
  match x with
  | Fin q => of_Z (Qfloor (q + (1 # 2)))
  | _ => x
  end.

Definition is_nan (x : num) : bool :=
  match x with NaN => true | _ => false end.

(** The integer a number denotes, when it is one: an array index. *)
Definition to_index (x : num) : option nat :=
  match x with
  | Fin q =>
      if Qeq_bool q (inject_Z (Qfloor q)) && (0 <=? Qfloor q)%Z
      then Some (Z.to_nat (Qfloor q)) else None
  | _ => None
  end.

End Num.

Import Num.

Declare Scope num_scope.
Delimit Scope num_scope with num.
Bind Scope num_scope with num.
Infix "+" := add : num_scope.
Infix "-" := sub : num_scope.
Infix "*" := mul : num_scope.
Infix "/" := div : num_scope.
Infix "<?" := ltb : num_scope.
Infix ">?" := gtb : num_scope.
Infix "<=?" := leb : num_scope.
Infix "===" := strict_eq (at level 70) : num_scope.

(** ** Exceptions *)

Inductive exn : Type :=
| TypeError
| Error (msg : string).

Inductive res (A : Type) : Type :=
| Ok (a : A)
| Throw (e : exn).
Arguments Ok {A} a.
Arguments Throw {A} e.

Definition res_bind {A B} (m : res A) (k : A -> res B) : res B :=
  match m with
  | Ok a => k a
  | Throw e => Throw e
  end.

Notation "x <-? m ; k" := (res_bind m (fun x => k))
  (at level 100, m at next level, right associativity).

(** [obj.field] on a value that may be [undefined]. *)
Definition deref {A} (o : option A) : res A :=
  match o with
  | Some a => Ok a
  | None => Throw TypeError
  end.

(** ** What the runtime provides *)

(** [Math.sqrt] on the positive rationals, [new Date(s).getTime()], and the
    conversions [ToString] of a number and [ToNumber] of a string that the
    operators [+], [<], [>] and [Math.floor] apply to a string operand. *)
Class JsRuntime : Type := {
  sqrt_pos : Q -> Q;
  Date_getTime : string -> num;
  ToString : num -> string;
  ToNumber : string -> num
}.

Definition Math_sqrt `{JsRuntime} (x : num) : num :=
  match x with
  | Fin q =>
      match (q ?= 0)%Q with
      | Lt => NaN
      | Eq => Fin 0
      | Gt => fin (sqrt_pos q)
      end
  | PInf => PInf
  | NInf => NaN
  | NaN => NaN
  end.

(** ** Data model *)

(** A value stored in [stratOpts] under a gene's key. *)
Inductive value : Type :=
| VNum (n : num)
| VStr (s : string)
| VUndef.

(** [interface Fitness] *)
Record Fitness : Type := mkFitness {
  currentProfit : num;
  percentTradeWin : num;
  sharpeRatio : num;
  tradeFrequency : num;
  total : num
}.

(** The keys [getFitness] is called with. *)
Inductive metric : Type :=
| KCurrentProfit
| KPercentTradeWin
| KSharpeRatio
| KTradeFrequency
| KTotal.

Definition fitness_get (f : Fitness) (key : metric) : num :=
  match key with
  | KCurrentProfit => currentProfit f
  | KPercentTradeWin => percentTradeWin f
  | KSharpeRatio => sharpeRatio f
  | KTradeFrequency => tradeFrequency f
  | KTotal => total f
  end.

(** [interface Gene]; [integer] absent reads as [false], [list] absent as
    [None]. *)
Record Gene : Type := mkGene {
  key : string;
  min : num;
  max : num;
  integer : bool;
  list_ : option (list string)
}.

Record Backtest : Type := mkBacktest {
  start : string;
  stop : string
}.

(** [interface GeneticOpts] *)
Record GeneticOpts : Type := mkGeneticOpts {
  opt_silent : bool;
  threads : Z;
  generation : Z;
  popSize : Z;
  elitism : Z;
  mutationRate : num;
  envs : list Backtest;
  genes : list Gene
}.

(** The fields of [TraderConfig] the optimizer reads or writes. *)
Record EnvConfig : Type := mkEnvConfig {
  aggTimes : list string;
  candleSetPlugins : list string;
  backtest : option Backtest
}.

Record TraderConfig : Type := mkTraderConfig {
  name : string;
  stratOpts : gmap string value;
  env : EnvConfig;
  flush : option bool
}.

Record PortfolioTrade : Type := mkTrade {
  orderProfit : num
}.

(** [enum Status]: only [Status.STOP] is named by the optimizer. *)
Inductive Status : Type :=
| STOP
| NotStopped (label : string).

(** The inner simulation engine of a worker, [t.trader], as the optimizer
    reads it: its status, its configuration, and the two paths that
    [deepFind] follows ([None] when the path leads nowhere). *)
Record Trader : Type := mkTrader {
  status : Status;
  tconfig : TraderConfig;
  indicators_currentProfit : option num;
  tradeHistory : option (list PortfolioTrade)
}.

(** [class TraderWorker extends TraderWorkerBase]; [fitnesses] is declared
    without an initializer. *)
Record TraderWorker : Type := mkTraderWorker {
  config : TraderConfig;
  silent : bool;
  trader : Trader;
  fitnesses : option (list Fitness);
  hasRunned : bool
}.

(** The base class is not part of the optimizer: its constructor and the
    three asynchronous methods are parameters.  A method either returns or
    throws, and leaves the engine in some state either way. *)
Inductive outcome : Type :=
| Returns (tr : Trader)
| Throws (e : exn) (tr : Trader).

Record Engine : Type := mkEngine {
  construct : TraderConfig -> bool -> Trader;
  init : TraderWorker -> outcome;
  start_ : TraderWorker -> outcome;
  stop_ : TraderWorker -> outcome
}.

Definition set_fitnesses (t : TraderWorker) (fs : option (list Fitness)) : TraderWorker :=
  mkTraderWorker (config t) (silent t) (trader t) fs (hasRunned t).

Definition set_hasRunned (t : TraderWorker) (b : bool) : TraderWorker :=
  mkTraderWorker (config t) (silent t) (trader t) (fitnesses t) b.

Definition set_trader (t : TraderWorker) (tr : Trader) : TraderWorker :=
  mkTraderWorker (config t) (silent t) tr (fitnesses t) (hasRunned t).

Definition set_config (t : TraderWorker) (c : TraderConfig) : TraderWorker :=
  mkTraderWorker c (silent t) (trader t) (fitnesses t) (hasRunned t).

(** ** Random draws and exceptions in one monad *)

(** A computation reads the random stream from a cursor and either throws or
    returns a result together with the advanced cursor. *)
Definition Gen (A : Type) : Type := nat -> res (A * nat).

Definition ret {A} (a : A) : Gen A := fun i => Ok (a, i).

Definition bind {A B} (m : Gen A) (k : A -> Gen B) : Gen B :=
  fun i =>
    match m i with
    | Ok (a, j) => k a j
    | Throw e => Throw e
    end.

Definition lift {A} (r : res A) : Gen A :=
  fun i =>
    match r with
    | Ok a => Ok (a, i)
    | Throw e => Throw e
    end.

Notation "x <- m ;; k" := (bind m (fun x => k))
  (at level 100, m at next level, right associativity).

(** [xs.forEach(x => ...)] whose body updates one local variable. *)
Fixpoint forEach {A S} (xs : list A) (body : A -> S -> Gen S) (s : S) : Gen S :=
  match xs with
  | [] => ret s
  | x :: xs' => s' <- body x s;; forEach xs' body s'
  end.

(** ** [Array.prototype.sort], [slice] and [splice] *)

(** The sort is stable (ECMAScript 2019); [cmp a b < 0] puts [a] before [b],
    any other answer (positive, zero or NaN) does not.  An exception of the
    comparator leaves the sort. *)
Fixpoint insert_sorted {A} (cmp : A -> A -> res num) (x : A) (l : list A) : res (list A) :=
  match l with
  | [] => Ok [x]
  | y :: ys =>
      c <-? cmp y x;
      if (c <? Fin 0)%num then (r <-? insert_sorted cmp x ys; Ok (y :: r))
      else Ok (x :: y :: ys)
  end.

Fixpoint js_sort {A} (cmp : A -> A -> res num) (l : list A) : res (list A) :=
  match l with
  | [] => Ok []
  | x :: xs => s <-? js_sort cmp xs; insert_sorted cmp x s
  end.

(** [undefined] elements are moved to the end without a call of the
    comparator. *)
Definition js_sort_undef {A} (cmp : A -> A -> res num) (l : list (option A)) : res (list (option A)) :=
  s <-? js_sort cmp (omap id l);
  Ok ((Some <$> s) ++ filter (fun o => o = None) l).

(** [l.slice(0, e)] for an integer [e]; a negative [e] counts from the end. *)
Definition slice0 {A} (l : list A) (e : Z) : list A :=
  if (e <? 0)%Z then take (Z.to_nat (Z.max (Z.of_nat (length l) + e) 0)) l
  else take (Z.to_nat e) l.

(** [l.splice(i, 0, x)] *)
Definition splice {A} (l : list A) (i : nat) (x : A) : list A :=
  take i l ++ x :: drop i l.

(** [l[i]] for a number [i]. *)
Definition index {A} (l : list A) (i : num) : option A :=
  n ← to_index i; l !! n.

(** ** The optimizer *)

Section Optimizer.

Context `{rt : JsRuntime}.
Variable eng : Engine.
Variable rnd : nat -> Q.

Definition Math_random : Gen num := fun i => Ok (fin (rnd i), S i).

Definition randomBetween (min max : num) (integer : bool) : Gen num :=
  r <- Math_random;;
  if integer then ret (floor (r * (max - min + Fin 1) + min))%num
  else ret (r * (max - min) + min)%num.

Definition clearEnv (tc : TraderConfig) : TraderConfig :=
  mkTraderConfig (name tc) (stratOpts tc)
    (mkEnvConfig [] [] (backtest (env tc))) (flush tc).

(** The two assignments to [traderConfig.env] change the caller's object
    ([clearEnv]); the worker is built from the changed object, with
    [stratOpts] and [name] replaced. *)
Definition createTraderWorker (traderConfig : TraderConfig) (name_ : string)
    (stratOpts_ : gmap string value) (silent_ : bool) : TraderWorker :=
  let cleared := clearEnv traderConfig in
  let cfg := mkTraderConfig name_ stratOpts_ (env cleared) (flush cleared) in
  mkTraderWorker cfg silent_ (construct eng cfg silent_) None false.

Definition worker_name (tc : TraderConfig) (gen ind : nat) : string :=
  name tc ++ "-gen" ++ pretty gen ++ "-ind" ++ pretty ind.

(** [g.list[randomBetween(0, g.list.length - 1, true)]] *)
Definition pick (l : list string) : Gen value :=
  i <- randomBetween (Fin 0) (of_nat (length l) - Fin 1)%num true;;
  ret (match index l i with Some s => VStr s | None => VUndef end).

(** The two branches on [g.list] that [randomIndiv] and the mutation pass of
    [crossover] share. *)
Definition sample (g : Gene) : Gen value :=
  match list_ g with
  | Some l => pick l
  | None => n <- randomBetween (min g) (max g) (integer g);; ret (VNum n)
  end.

Definition randomIndiv (traderConfig : TraderConfig) (opts : GeneticOpts)
    (gen ind : nat) : Gen TraderWorker :=
  newOpts <- forEach (genes opts)
               (fun g newOpts => v <- sample g;; ret (<[key g := v]> newOpts))
               (stratOpts traderConfig);;
  ret (createTraderWorker traderConfig (worker_name traderConfig gen ind)
         newOpts (opt_silent opts)).

Definition getFitness (trader_ : TraderWorker) (k : metric) : res num :=
  fs <-? deref (fitnesses trader_);
  let sum := fold_left (fun sum f => (sum + fitness_get f k)%num) fs (Fin 0) in
  Ok (sum / of_nat (length fs))%num.

Definition getFitness_undef (trader_ : option TraderWorker) : res num :=
  t <-? deref trader_; getFitness t KTotal.

(** The comparator [(a, b) => getFitness(b) - getFitness(a)]. *)
Definition byFitness (a b : TraderWorker) : res num :=
  fb <-? getFitness b KTotal;
  fa <-? getFitness a KTotal;
  Ok (fb - fa)%num.

Fixpoint checkSameFitness (indivs : list (option TraderWorker)) (fitness : num) : res bool :=
  match indivs with
  | [] => Ok false
  | t :: rest =>
      f <-? getFitness_undef t;
      if (f === fitness)%num then Ok true else checkSameFitness rest fitness
  end.

Definition draw (generation_ : list TraderWorker) : Gen (option TraderWorker) :=
  i <- randomBetween (Fin 0) (of_nat (length generation_) - Fin 1)%num true;;
  ret (index generation_ i).

(** The [while (j++ < generation.length && checkSameFitness(...))] loop;
    [fuel] is [generation.length - j]. *)
Fixpoint redraw (fuel : nat) (generation_ : list TraderWorker)
    (traders : list (option TraderWorker)) (trader_ : option TraderWorker)
    : Gen (option TraderWorker) :=
  match fuel with
  | O => ret trader_
  | S fuel' =>
      f <- lift (getFitness_undef trader_);;
      same <- lift (checkSameFitness traders f);;
      if same then (t <- draw generation_;; redraw fuel' generation_ traders t)
      else ret trader_
  end.

Fixpoint tournament_draws (participant : nat) (generation_ : list TraderWorker)
    (traders : list (option TraderWorker)) : Gen (list (option TraderWorker)) :=
  match participant with
  | O => ret traders
  | S p =>
      t0 <- draw generation_;;
      t <- redraw (length generation_) generation_ traders t0;;
      tournament_draws p generation_ (traders ++ [t])
  end.

Definition tournamentSelection (generation_ : list TraderWorker) (participant : nat)
    : Gen (list (option TraderWorker)) :=
  traders <- tournament_draws participant generation_ [];;
  sorted <- lift (js_sort_undef byFitness traders);;
  ret (take 2 sorted).

Definition calcSharpeRatio (tradeHistory_ : list PortfolioTrade) : num :=
  let n := of_nat (length tradeHistory_) in
  let sumT := fold_left (fun sum t => (sum + orderProfit t)%num) tradeHistory_ (Fin 0) in
  let meanT := (sumT / n)%num in
  let squaredMeanDiff :=
    fold_left
      (fun sum t => (sum + (orderProfit t - meanT) * (orderProfit t - meanT))%num)
      tradeHistory_ (Fin 0) in
  let stdDev := Math_sqrt (squaredMeanDiff / n)%num in
  ((meanT - Fin 0.005) / stdDev)%num.

Definition oneDay : num := Fin 86400000.

Definition daysBetween (date1 date2 : string) : num :=
  let diffms := (Date_getTime date2 - Date_getTime date1)%num in
  round (diffms / oneDay)%num.

(** The clamp of line 191. *)
Definition clampSharpe (sharpe : num) : num :=
  if (sharpe <? Fin 0)%num then Fin 0
  else if (sharpe >? Fin 4)%num then Fin 4 else sharpe.

Definition calcFitness (trader_ : TraderWorker) : res Fitness :=
  let currentProfit_ :=
    match indicators_currentProfit (trader trader_) with
    | None => Fin (-1)
    | Some c => if (c === Fin 0)%num then Fin (-1) else c
    end in
  let tradeHistory_ := default [] (tradeHistory (trader trader_)) in
  let n := length tradeHistory_ in
  let percentTradeWin_ :=
    if (0 <? n)%nat
    then (of_nat (length (filter (fun trade => (orderProfit trade >? Fin 0.002)%num = true)
                            tradeHistory_)) / of_nat n)%num
    else Fin 0 in
  let sharpeRatio_ := if (1 <? n)%nat then calcSharpeRatio tradeHistory_ else Fin 0 in
  let sharpeRatio_ := clampSharpe sharpeRatio_ in
  bt <-? deref (backtest (env (config trader_)));
  let limit := floor (daysBetween (start bt) (stop bt) / Fin 14)%num in
  let tradeFrequency_ :=
    if (of_nat n >? limit)%num then Fin 1 else (of_nat n / limit)%num in
  Ok (mkFitness currentProfit_ percentTradeWin_ sharpeRatio_ tradeFrequency_
        (currentProfit_ + Fin 0.5 * percentTradeWin_ + Fin 0.5 * tradeFrequency_
         + sharpeRatio_ / Fin 4)%num).

(** [obj[k]] *)
Definition get (o : gmap string value) (k : string) : value :=
  default VUndef (o !! k).

(** [v + diff] for a number [diff]: addition on a number, NaN on
    [undefined], concatenation on a string. *)
Definition js_plus (v : value) (diff : num) : value :=
  match v with
  | VNum n => VNum (n + diff)%num
  | VStr s => VStr (s ++ ToString diff)
  | VUndef => VNum NaN
  end.

(** The number a value is compared as against a number. *)
Definition to_number (v : value) : num :=
  match v with
  | VNum n => n
  | VStr s => ToNumber s
  | VUndef => NaN
  end.

Definition mutate_gene (oldOpts : gmap string value) (mutationRate_ : num)
    (g : Gene) (newOpts : gmap string value) : Gen (gmap string value) :=
  r <- randomBetween (Fin 0) (Fin 1) false;;
  if (r <=? mutationRate_)%num then
    match list_ g with
    | Some l => v <- pick l;; ret (<[key g := v]> newOpts)
    | None =>
        d <- randomBetween (Fin 0) (Fin 1) true;;
        let direction := if (d === Fin 0)%num then Fin (-1) else Fin 1 in
        let range := (max g - min g)%num in
        m <- randomBetween (Fin 0.005) (Fin 0.5) false;;
        let diff := (range * m * direction)%num in
        let newVal := js_plus (get oldOpts (key g)) diff in
        let newVal :=
          if (to_number newVal <? min g)%num then VNum (min g)
          else if (to_number newVal >? max g)%num then VNum (max g) else newVal in
        ret (<[key g := if integer g then VNum (floor (to_number newVal)) else newVal]>
               newOpts)
    end
  else ret newOpts.

Definition mutate (traderConfig : TraderConfig) (trader_ : TraderWorker)
    (opts : GeneticOpts) (gen ind : nat) : Gen TraderWorker :=
  let oldOpts := stratOpts (config trader_) in
  newOpts <- forEach (genes opts) (mutate_gene oldOpts (mutationRate opts)) oldOpts;;
  ret (createTraderWorker traderConfig (worker_name traderConfig gen ind)
         newOpts (opt_silent opts)).

(** First loop of [crossover]: take the gene of [traderA] on a draw below
    one half. *)
Definition cross_gene (optsA : gmap string value) (g : Gene)
    (newOpts : gmap string value) : Gen (gmap string value) :=
  r <- randomBetween (Fin 0) (Fin 1) false;;
  if (r <? Fin 0.5)%num then
    match list_ g with
    | Some l => v <- pick l;; ret (<[key g := v]> newOpts)
    | None => ret (<[key g := get optsA (key g)]> newOpts)
    end
  else ret newOpts.

(** Second loop of [crossover]: draw the gene afresh on a draw within the
    mutation rate. *)
Definition resample_gene (mutationRate_ : num) (g : Gene)
    (newOpts : gmap string value) : Gen (gmap string value) :=
  r <- randomBetween (Fin 0) (Fin 1) false;;
  if (r <=? mutationRate_)%num then v <- sample g;; ret (<[key g := v]> newOpts)
  else ret newOpts.

Definition crossover (name_ : string) (traderA traderB : TraderWorker)
    (opts : GeneticOpts) : Gen TraderWorker :=
  newOpts <- forEach (genes opts) (cross_gene (stratOpts (config traderA)))
               (stratOpts (config traderB));;
  r <- randomBetween (Fin 0) (Fin 1) false;;
  newOpts <- (if (r <? Fin 0.25)%num
              then forEach (genes opts) (resample_gene (mutationRate opts)) newOpts
              else ret newOpts);;
  ret (createTraderWorker (tconfig (trader traderA)) name_ newOpts (opt_silent opts)).

(** The rebuild of lines 266-279: [prev] is [generation[idx - 1]], [acc] is
    [generationResort]. *)
Fixpoint resort (prev : TraderWorker) (rest : list TraderWorker)
    (acc : list TraderWorker) (currentIdx : nat) : res (list TraderWorker) :=
  match rest with
  | [] => Ok acc
  | indiv :: rest' =>
      fi <-? getFitness indiv KTotal;
      fp <-? getFitness prev KTotal;
      if (fi - fp === Fin 0)%num then resort indiv rest' (acc ++ [indiv]) currentIdx
      else resort indiv rest' (splice acc currentIdx indiv) (S currentIdx)
  end.

(** The ranking of lines 264-279. *)
Definition rank (generation_ : list TraderWorker) : res (list TraderWorker) :=
  sorted <-? js_sort byFitness generation_;
  match sorted with
  | [] => Ok []
  | first :: rest => resort first rest [first] 1
  end.

Definition breed_one (traderConfig : TraderConfig) (generation_ : list TraderWorker)
    (opts : GeneticOpts) (gen ind : nat) : Gen TraderWorker :=
  rand <- randomBetween (Fin 0) (Fin 1) false;;
  if (rand <? Fin 0.6)%num then
    parents <- tournamentSelection generation_ 4;;
    t2 <- lift (deref (mjoin (parents !! 1%nat)));;
    t1 <- lift (deref (mjoin (parents !! 0%nat)));;
    crossover (worker_name traderConfig gen ind) t1 t2 opts
  else if (rand <? Fin 0.9)%num then
    i <- randomBetween (Fin 0) (of_nat (length generation_) - Fin 1)%num true;;
    t <- lift (deref (index generation_ i));;
    mutate traderConfig t opts gen ind
  else randomIndiv traderConfig opts gen ind.

(** The [while (newGeneration.length < opts.popSize)] loop; [fuel] is the
    number of individuals still missing. *)
Fixpoint fill (fuel : nat) (traderConfig : TraderConfig)
    (generation_ : list TraderWorker) (opts : GeneticOpts) (gen : nat)
    (newGeneration : list TraderWorker) : Gen (list TraderWorker) :=
  match fuel with
  | O => ret newGeneration
  | S fuel' =>
      child <- breed_one traderConfig generation_ opts gen (length newGeneration);;
      fill fuel' traderConfig generation_ opts gen (newGeneration ++ [child])
  end.

Definition breedNewGeneration (traderConfig : TraderConfig)
    (generation_ : list TraderWorker) (opts : GeneticOpts) (gen : nat)
    : Gen (list TraderWorker) :=
  ranked <- lift (rank generation_);;
  let bestIndivs := slice0 ranked (elitism opts) in
  fill (Z.to_nat (popSize opts - Z.of_nat (length bestIndivs))) traderConfig ranked
    opts gen bestIndivs.

(** The [while (ind < opts.popSize)] loop; [fuel] is [popSize - ind]. *)
Fixpoint makeGeneration_from (fuel ind : nat) (traderConfig : TraderConfig)
    (opts : GeneticOpts) (gen : nat) (generation_ : list TraderWorker)
    : Gen (list TraderWorker) :=
  match fuel with
  | O => ret generation_
  | S fuel' =>
      t <- (if (ind =? 0)%nat
            then ret (createTraderWorker traderConfig (worker_name traderConfig gen ind)
                        (stratOpts traderConfig) (opt_silent opts))
            else randomIndiv traderConfig opts gen ind);;
      makeGeneration_from fuel' (S ind) traderConfig opts gen (generation_ ++ [t])
  end.

Definition makeGeneration (traderConfig : TraderConfig) (opts : GeneticOpts)
    (gen : nat) : Gen (list TraderWorker) :=
  makeGeneration_from (Z.to_nat (popSize opts)) 0 traderConfig opts gen [].

(** ** One trial task (lines 359-388) *)

(** The three methods of the engine a task awaits. *)
Inductive phase : Type :=
| AtInit
| AtStart
| AtStop.

(** What a task does to the world besides changing its own worker: the
    calls of the engine, in order, each with the configuration of the worker
    it is made on, and the errors handed to the logger. *)
Inductive event : Type :=
| Called (p : phase) (c : TraderConfig)
| Logged (e : exn).

Inductive settled : Type :=
| Fulfilled
| Rejected (e : exn).

Record run : Type := mkRun {
  worker : TraderWorker;
  events : list event
}.

(** The record pushed by the [catch] block. *)
Definition sentinel : Fitness :=
  mkFitness (Fin (-1)) (Fin (-1)) (Fin (-1)) (Fin (-1)) (Fin (-1)).

(** [if (!t.fitnesses) t.fitnesses = []; t.fitnesses.push(f)] *)
Definition push_fitness (t : TraderWorker) (f : Fitness) : TraderWorker :=
  set_fitnesses t (Some (default [] (fitnesses t) ++ [f])).

(** [t.config.env.backtest = e; t.config.flush = (i === 0)] *)
Definition set_backtest (t : TraderWorker) (i : nat) (e : Backtest) : TraderWorker :=
  let c := config t in
  set_config t
    (mkTraderConfig (name c) (stratOpts c)
       (mkEnvConfig (aggTimes (env c)) (candleSetPlugins (env c)) (Some e))
       (Some (i =? 0)%nat)).

Definition method (p : phase) : TraderWorker -> outcome :=
  match p with
  | AtInit => init eng
  | AtStart => start_ eng
  | AtStop => stop_ eng
  end.

(** [await t.m()]: the call is recorded, the engine is left in the state the
    method leaves it in, and an exception is handed back. *)
Definition await (p : phase) (r : run) : option exn * run :=
  let called := events r ++ [Called p (config (worker r))] in
  match method p (worker r) with
  | Returns tr => (None, mkRun (set_trader (worker r) tr) called)
  | Throws e tr => (Some e, mkRun (set_trader (worker r) tr) called)
  end.

(** The three awaits of the loop body and the push that follows them, from
    the await of [init], of [start] or of [stop] on. *)
Definition from_stop (r : run) : option exn * run :=
  match await AtStop r with
  | (Some err, r) => (Some err, r)
  | (None, r) =>
      match calcFitness (worker r) with
      | Ok f => (None, mkRun (push_fitness (worker r) f) (events r))
      | Throw err => (Some err, r)
      end
  end.

Definition from_start (r : run) : option exn * run :=
  match await AtStart r with
  | (Some err, r) => (Some err, r)
  | (None, r) => from_stop r
  end.

Definition from_init (r : run) : option exn * run :=
  match await AtInit r with
  | (Some err, r) => (Some err, r)
  | (None, r) => from_start r
  end.

Definition from_phase (p : phase) : run -> option exn * run :=
  match p with
  | AtInit => from_init
  | AtStart => from_start
  | AtStop => from_stop
  end.

(** The body of the [for] loop for environment [i]. *)
Definition one_env (i : nat) (e : Backtest) (r : run) : option exn * run :=
  from_init (mkRun (set_backtest (worker r) i e) (events r)).

(** [for (let i = 0; i < opts.envs.length; i++)], from index [i] on. *)
Fixpoint env_loop (i : nat) (envs_ : list Backtest) (r : run) : option exn * run :=
  match envs_ with
  | [] => (None, r)
  | e :: rest =>
      match one_env i e r with
      | (Some err, r) => (Some err, r)
      | (None, r) => env_loop (S i) rest r
      end
  end.

(** The [catch] block of the task: sentinel, best-effort stop whose own
    error is logged, then [reject(error)], which the [.catch] attached to
    the queued task logs. *)
Definition best_effort_stop (r : run) : run :=
  match await AtStop r with
  | (None, r) => r
  | (Some e, r) => mkRun (worker r) (events r ++ [Logged e])
  end.

Definition reject (err : exn) (r : run) : settled * run :=
  (Rejected err, mkRun (worker r) (events r ++ [Logged err])).

Definition on_error (err : exn) (r : run) : settled * run :=
  let r := mkRun (push_fitness (worker r) sentinel) (events r) in
  match status (trader (worker r)) with
  | STOP => reject err r
  | NotStopped _ => reject err (best_effort_stop r)
  end.

(** The end of the promise: [resolve()] after [t.hasRunned = true], or the
    [catch] block. *)
Definition settle (x : option exn * run) : settled * run :=
  match x with
  | (None, r) => (Fulfilled, mkRun (set_hasRunned (worker r) true) (events r))
  | (Some e, r) => on_error e r
  end.

Definition task_from (envs_ : list Backtest) (r : run) : settled * run :=
  settle (if hasRunned (worker r) then (None, r) else env_loop 0 envs_ r).

Definition task (envs_ : list Backtest) (t : TraderWorker) : settled * run :=
  task_from envs_ (mkRun t []).

(** ** The generation loop (lines 341-445) *)

(** [new PQueue({ concurrency, autoStart: true })] refuses a concurrency
    below one. *)
Definition getQueue (concurrency : Z) : res unit :=
  if (concurrency <? 1)%Z then Throw TypeError else Ok tt.

(** The pool runs one task per individual; a task only touches its own
    worker, so the generation after [onIdle] is the list of the tasks'
    results (section Pool below has the interleavings). *)
Definition run_generation (envs_ : list Backtest) (generation_ : list TraderWorker)
    : list (settled * run) :=
  map (task envs_) generation_.

(** [mean(...xs)] of mathjs, [Math.min(...xs)], [Math.max(...xs)] *)
Definition mean (xs : list num) : res num :=
  match xs with
  | [] => Throw (Error "mean")
  | _ => Ok (fold_left add xs (Fin 0) / of_nat (length xs))%num
  end.

Definition Math_min (xs : list num) : num :=
  fold_left (fun m x => if is_nan m || is_nan x then NaN
                        else if (x <? m)%num then x else m) xs PInf.

Definition Math_max (xs : list num) : num :=
  fold_left (fun m x => if is_nan m || is_nan x then NaN
                        else if (x >? m)%num then x else m) xs NInf.

(** The file written for a generation. *)
Record Checkpoint : Type := mkCheckpoint {
  ck_mean : num;
  ck_min : num;
  ck_max : num;
  ck_gen : list (string * option (list Fitness) * gmap string value)
}.

Fixpoint mapM {A B} (f : A -> res B) (l : list A) : res (list B) :=
  match l with
  | [] => Ok []
  | x :: xs => y <-? f x; ys <-? mapM f xs; Ok (y :: ys)
  end.

(** Lines 399-437: sort for display, log, write the checkpoint. *)
Definition checkpoint (generation_ : list TraderWorker)
    : res (list TraderWorker * Checkpoint) :=
  g <-? js_sort byFitness generation_;
  fits <-? mapM (fun t => getFitness t KTotal) g;
  _ <-? mapM (fun t =>
          _ <-? getFitness t KTotal;
          _ <-? getFitness t KCurrentProfit;
          _ <-? getFitness t KPercentTradeWin;
          _ <-? getFitness t KSharpeRatio;
          getFitness t KTradeFrequency) g;
  m <-? mean fits;
  Ok (g, mkCheckpoint m (Math_min fits) (Math_max fits)
           (map (fun t => (name (config t), fitnesses t, stratOpts (config t))) g)).

(** What one turn of the [while] loop leaves behind: the generation handed
    to the pool, what its tasks settled to, the generation as the display
    sort leaves it (the array the next turn breeds from), and the file. *)
Record Report : Type := mkReport {
  scheduled : list TraderWorker;
  results : list (settled * run);
  displayed : list TraderWorker;
  written : Checkpoint
}.

(** The body of the [try] for generation [gen]. *)
Definition generation_body (traderConfig : TraderConfig) (opts : GeneticOpts)
    (gen : nat) (previous : option (list TraderWorker))
    : Gen Report :=
  generation_ <- match previous with
                 | None => makeGeneration traderConfig opts gen
                 | Some g => breedNewGeneration traderConfig g opts gen
                 end;;
  _ <- lift (getQueue (threads opts));;
  let rs := run_generation (envs opts) generation_ in
  gc <- lift (checkpoint (map (fun r => worker (snd r)) rs));;
  ret (mkReport generation_ rs (fst gc) (snd gc)).

(** The [while] loop; [fuel] is [opts.generation - gen].  A turn that
    throws ends the run with the error of line 442 (the [catch] of line 439
    first asks every individual to stop); the reports are those of the turns
    before it. *)
Definition fatal : exn := Error "Problem during genetic optimization".

Fixpoint genetic_loop (fuel gen : nat) (traderConfig : TraderConfig)
    (opts : GeneticOpts) (previous : option (list TraderWorker))
    (reports : list Report) (i : nat) : list Report * option exn :=
  match fuel with
  | O => (reports, None)
  | S fuel' =>
      match generation_body traderConfig opts gen previous i with
      | Ok (report, j) =>
          genetic_loop fuel' (S gen) traderConfig opts (Some (displayed report))
            (reports ++ [report]) j
      | Throw _ => (reports, Some fatal)
      end
  end.

Definition genetic (trader_ : TraderConfig) (opts : GeneticOpts) (i : nat)
    : list Report * option exn :=
  genetic_loop (Z.to_nat (generation opts)) 0 trader_ opts None [] i.

(** ** The worker pool (lines 351-397) *)

(** A task is suspended at each [await].  Between two suspensions it runs
    alone; the pool decides which suspended task resumes next, and starts a
    queued task only while fewer than [concurrency] tasks are running. *)
Inductive task_state : Type :=
| Queued
| Awaiting (i : nat) (rest : list Backtest) (p : phase)
| Stopping (err : exn)
| Settled (s : settled).

Record slot : Type := mkSlot {
  state : task_state;
  job : run
}.

(** Entering the loop body for environment [i], or leaving the loop. *)
Definition enter (i : nat) (envs_ : list Backtest) (r : run) : slot :=
  match envs_ with
  | [] => mkSlot (Settled Fulfilled) (mkRun (set_hasRunned (worker r) true) (events r))
  | e :: rest => mkSlot (Awaiting i rest AtInit) (mkRun (set_backtest (worker r) i e) (events r))
  end.

(** Entering the [catch] block. *)
Definition fail (err : exn) (r : run) : slot :=
  let r := mkRun (push_fitness (worker r) sentinel) (events r) in
  match status (trader (worker r)) with
  | STOP => mkSlot (Settled (Rejected err)) (snd (reject err r))
  | NotStopped _ => mkSlot (Stopping err) r
  end.

(** The task runs from one suspension to the next. *)
Definition advance (envs_ : list Backtest) (s : slot) : slot :=
  let r := job s in
  match state s with
  | Queued =>
      if hasRunned (worker r)
      then mkSlot (Settled Fulfilled) (mkRun (set_hasRunned (worker r) true) (events r))
      else enter 0 envs_ r
  | Awaiting i rest AtInit =>
      match await AtInit r with
      | (Some err, r) => fail err r
      | (None, r) => mkSlot (Awaiting i rest AtStart) r
      end
  | Awaiting i rest AtStart =>
      match await AtStart r with
      | (Some err, r) => fail err r
      | (None, r) => mkSlot (Awaiting i rest AtStop) r
      end
  | Awaiting i rest AtStop =>
      match await AtStop r with
      | (Some err, r) => fail err r
      | (None, r) =>
          match calcFitness (worker r) with
          | Ok f => enter (S i) rest (mkRun (push_fitness (worker r) f) (events r))
          | Throw err => fail err r
          end
      end
  | Stopping err => mkSlot (Settled (Rejected err)) (snd (reject err (best_effort_stop r)))
  | Settled _ => s
  end.

Definition is_queued (s : slot) : bool :=
  match state s with Queued => true | _ => false end.

Definition is_running (s : slot) : bool :=
  match state s with Awaiting _ _ _ | Stopping _ => true | _ => false end.

Definition is_settled (s : slot) : bool :=
  match state s with Settled _ => true | _ => false end.

Definition running (p : list slot) : nat :=
  length (filter (fun s => is_running s = true) p).

(** [generation.forEach(t => pqueue.add(...))] *)
Definition submit (generation_ : list TraderWorker) : list slot :=
  map (fun t => mkSlot Queued (mkRun t [])) generation_.

(** One step of the pool: the first queued task starts if a place is free,
    or a running task resumes. *)
Inductive pool_step (concurrency : nat) (envs_ : list Backtest)
  : list slot -> list slot -> Prop :=
| step_start (before : list slot) (s : slot) (after : list slot) :
    state s = Queued ->
    Forall (fun s' => is_queued s' = false) before ->
    running (before ++ s :: after) < concurrency ->
    pool_step concurrency envs_ (before ++ s :: after)
      (before ++ advance envs_ s :: after)
| step_resume (before : list slot) (s : slot) (after : list slot) :
    is_running s = true ->
    pool_step concurrency envs_ (before ++ s :: after)
      (before ++ advance envs_ s :: after).

Inductive pool_steps (concurrency : nat) (envs_ : list Backtest)
  : list slot -> list slot -> Prop :=
| steps_refl (p : list slot) : pool_steps concurrency envs_ p p
| steps_next (p q r : list slot) :
    pool_step concurrency envs_ p q ->
    pool_steps concurrency envs_ q r ->
    pool_steps concurrency envs_ p r.

(** [pqueue.onIdle()] resolves when nothing is queued and nothing runs. *)
Definition idle (p : list slot) : Prop :=
  Forall (fun s => is_settled s = true) p.

(** What a settled pool hands back. *)
Definition outcome_of (s : slot) : option (settled * run) :=
  match state s with
  | Settled x => Some (x, job s)
  | _ => None
  end.

End Optimizer.

(** * The candle sets and the EMA indicator

    Source: [src/_core/Env/CandleSet.ts] (the class [CandleSet]) and the
    first document of [src/indicators/ema.ts] (the indicator [ema], one of
    the plugins a candle set runs on every candle it is given).

    Conventions of the embedding, besides those above.
    - [marketCandles] is a JavaScript [Map]: an association list in the
      order of insertion; [set] on a key that is present replaces the value
      in place.
    - An array held by the map is changed in place by [push], [pop] and
      [splice]; a reference to it is the key it is stored under.
    - The class [CandlesAgg], the loader [requireUncached] and the function
      [ema] of the package technicalindicators are not part of the source:
      they are parameters.  The array [getCandles()] returns is taken to be
      the aggregate's own.
    - A plugin is a function of the candles and of the new candle; it
      returns the indicators or throws.  No other call of the candle set
      runs between two awaits of [push]. *)

Module CandleSet.

(** A row as it is handed to [push]: the six fields [calcCandle] reads,
    each a number, a string or [undefined]. *)
Module Raw.

Record OHLCV : Type := mkOHLCV {
  time : value;
  open : value;
  high : value;
  low : value;
  close : value;
  volume : value
}.

End Raw.

(** The candle [calcCandle] builds. *)
Record Candle : Type := mkCandle {
  time : num;
  open : num;
  high : num;
  low : num;
  close : num;
  volume : num;
  indicators : gmap string value
}.

(** [CandleSetPlugin] *)
Definition CandleSetPlugin : Type := list Candle -> Candle -> res (gmap string value).

(** [interface CandleSetConfig]; [indicator_specs] is its field
    [indicators], a list of [{ label, opts }]. *)
Record CandleSetConfig : Type := mkCandleSetConfig {
  bufferSize : num;
  indicator_specs : list (string * gmap string value);
  aggTimes : list string
}.

(** What is used of the class [CandlesAgg]. *)
Class CandlesAggOps : Type := {
  CandlesAgg : Type;
  newCandlesAgg : string -> num -> CandlesAgg;
  agg_push : CandlesAgg -> Candle -> CandlesAgg;
  getCandles : CandlesAgg -> list Candle;
  setCandles : CandlesAgg -> list Candle -> CandlesAgg
}.

Section CandleSet.

Context `{rt : JsRuntime} `{aggOps : CandlesAggOps}.

(** A value of the map: [Candle[] | CandlesAgg]. *)
Inductive entry : Type :=
| Arr (candles : list Candle)
| Agg (a : CandlesAgg).

Definition Markets : Type := list (string * entry).

Fixpoint market_get (m : Markets) (symbol : string) : option entry :=
  match m with
  | [] => None
  | (k, e) :: m' => if decide (k = symbol) then Some e else market_get m' symbol
  end.

Fixpoint market_set (m : Markets) (symbol : string) (e : entry) : Markets :=
  match m with
  | [] => [(symbol, e)]
  | (k, e') :: m' =>
      if decide (k = symbol) then (k, e) :: m' else (k, e') :: market_set m' symbol e
  end.

(** [class CandleSet] *)
Record CandleSet : Type := mkCandleSet {
  config : CandleSetConfig;
  plugins : list CandleSetPlugin;
  marketCandles : Markets
}.

Definition set_markets (cs : CandleSet) (m : Markets) : CandleSet :=
  mkCandleSet (config cs) (plugins cs) m.

(** A method reads and changes the candle set and returns or throws; what
    it changed before it threw stays changed. *)
Definition St (A : Type) : Type := CandleSet -> res A * CandleSet.

Definition sret {A} (a : A) : St A := fun cs => (Ok a, cs).

Definition sthrow {A} (e : exn) : St A := fun cs => (Throw e, cs).

Definition sbind {A B} (m : St A) (k : A -> St B) : St B :=
  fun cs =>
    match m cs with
    | (Ok a, cs') => k a cs'
    | (Throw e, cs') => (Throw e, cs')
    end.

Definition slift {A} (r : res A) : St A := fun cs => (r, cs).

Notation "x <~ m ; k" := (sbind m (fun x => k))
  (at level 100, m at next level, right associativity).

(** [for (const x of xs) { ... }] *)
Fixpoint for_each {A} (xs : list A) (body : A -> St unit) : St unit :=
  match xs with
  | [] => sret tt
  | x :: xs' => _ <~ body x; for_each xs' body
  end.

(** ** The constructor (lines 29-34) *)

(** [`${v}`] *)
Definition template (v : value) : string :=
  match v with
  | VStr s => s
  | VNum n => ToString n
  | VUndef => "undefined"
  end.

Definition prop (o : gmap string value) (k : string) : value := default VUndef (o !! k).

(** [requireUncached(path).default], by the name of the indicator. *)
Definition Loader : Type :=
  string -> res (string -> gmap string value -> CandleSetPlugin).

Definition new_CandleSet (requireUncached : Loader) (config_ : CandleSetConfig)
    : res CandleSet :=
  plugins_ <-? mapM (fun spec : string * gmap string value =>
                       make <-? requireUncached (template (prop (snd spec) "name"));
                       Ok (make (fst spec) (snd spec)))
                 (indicator_specs config_);
  Ok (mkCandleSet config_ plugins_ []).

(** ** [getMarketCandles] (lines 108-116) *)

(** What [getMarketCandles] returns: the array or the aggregate stored under
    a symbol, or the array [getCandles()] of the aggregate stored there. *)
Inductive ref : Type :=
| TheArray (symbol : string)
| TheAgg (symbol : string)
| CandlesOfAgg (symbol : string).

(** A string is falsy when it is empty or [undefined]. *)
Definition truthy (agg : option string) : bool :=
  match agg with
  | Some (String _ _) => true
  | _ => false
  end.

Definition getMarketCandles (symbol : string) (agg : option string) : St ref :=
  fun cs =>
    let cs :=
      match market_get (marketCandles cs) symbol with
      | Some _ => cs
      | None =>
          set_markets cs
            (market_set (marketCandles cs) symbol
               (match agg with
                | Some a => if truthy agg then Agg (newCandlesAgg a (bufferSize (config cs)))
                            else Arr []
                | None => Arr []
                end))
      end in
    match market_get (marketCandles cs) symbol with
    | Some (Agg _) => (Ok (if truthy agg then TheAgg symbol else CandlesOfAgg symbol), cs)
    | _ => (Ok (TheArray symbol), cs)
    end.

(** The array behind a reference, and the candle set after the array was
    changed in place. *)
Definition symbol_of (r : ref) : string :=
  match r with
  | TheArray s | TheAgg s | CandlesOfAgg s => s
  end.

Definition read (r : ref) (cs : CandleSet) : list Candle :=
  match market_get (marketCandles cs) (symbol_of r) with
  | Some (Arr l) => l
  | Some (Agg a) => getCandles a
  | None => []
  end.

Definition write (r : ref) (l : list Candle) (cs : CandleSet) : CandleSet :=
  match market_get (marketCandles cs) (symbol_of r) with
  | Some (Arr _) => set_markets cs (market_set (marketCandles cs) (symbol_of r) (Arr l))
  | Some (Agg a) =>
      set_markets cs (market_set (marketCandles cs) (symbol_of r) (Agg (setCandles a l)))
  | None => cs
  end.

(** [r.push(c)]: [Array.prototype.push] on an array, the method of
    [CandlesAgg] on an aggregate. *)
Definition ref_push (r : ref) (c : Candle) : St unit :=
  fun cs =>
    match r, market_get (marketCandles cs) (symbol_of r) with
    | TheAgg s, Some (Agg a) =>
        (Ok tt, set_markets cs (market_set (marketCandles cs) s (Agg (agg_push a c))))
    | _, _ => (Ok tt, write r (read r cs ++ [c]) cs)
    end.

(** [r.pop()] *)
Definition ref_pop (r : ref) : St (option Candle) :=
  fun cs =>
    let l := read r cs in
    (Ok (last l), write r (removelast l) cs).

(** ** [removeDuplicates] (lines 127-137) *)

(** [v > n] and [v === n] for a field of a row and a number. *)
Definition gt_number (v : value) (n : num) : bool := (to_number v >? n)%num.

Definition same_number (v : value) (n : num) : bool :=
  match v with
  | VNum m => (m === n)%num
  | _ => false
  end.

Definition removeDuplicates (candles : list Raw.OHLCV) (symbol : string)
    : St (list Raw.OHLCV) :=
  candlesSymbol <~ getMarketCandles symbol None;
  fun cs =>
    match last (read candlesSymbol cs) with
    | None => (Ok candles, cs)
    | Some newest =>
        (first <~ slift (deref (head candles));
         if gt_number (Raw.time first) (time newest) then sret candles
         else
           _ <~ for_each (rev candles)
                  (fun candle cs =>
                     match last (read candlesSymbol cs) with
                     | None => (Throw TypeError, cs)
                     | Some newest =>
                         if same_number (Raw.time candle) (time newest)
                         then (_ <~ ref_pop candlesSymbol; sret tt) cs
                         else (Ok tt, cs)
                     end);
           sret candles) cs
    end.

(** ** [calcCandle] (lines 146-176) *)

(** [{ ...a, ...b }] *)
Definition spread (a b : gmap string value) : gmap string value := b ∪ a.

Definition set_indicators (c : Candle) (i : gmap string value) : Candle :=
  mkCandle (time c) (open c) (high c) (low c) (close c) (volume c) i.

Fixpoint run_plugins (ps : list CandleSetPlugin) (candlesSymbol : ref)
    (newCandle : Candle) : St Candle :=
  match ps with
  | [] => sret newCandle
  | plugin :: ps' =>
      fun cs =>
        match plugin (read candlesSymbol cs) newCandle with
        | Ok out =>
            run_plugins ps' candlesSymbol
              (set_indicators newCandle (spread (indicators newCandle) out)) cs
        | Throw e => (Throw e, cs)
        end
  end.

Definition calcCandle (symbol : string) (candle : Raw.OHLCV) : St Candle :=
  candlesSymbol <~ getMarketCandles symbol None;
  fun cs =>
    run_plugins (plugins cs) candlesSymbol
      (mkCandle (to_number (Raw.time candle)) (to_number (Raw.open candle))
         (to_number (Raw.high candle)) (to_number (Raw.low candle))
         (to_number (Raw.close candle)) (to_number (Raw.volume candle)) ∅) cs.

(** ** [push] (lines 46-64) *)

(** [ToIntegerOrInfinity] followed by the clamp of [splice] to the [len]
    elements there are. *)
Definition truncate (q : Q) : Z := if Qle_bool 0 q then Qfloor q else Qceiling q.

Definition delete_count (x : num) (len : nat) : nat :=
  match x with
  | Fin q => Z.to_nat (Z.min (Z.max (truncate q) 0) (Z.of_nat len))
  | PInf => len
  | NInf | NaN => 0
  end.

(** The argument of [push]: one row or an array of rows. *)
Inductive rows : Type :=
| One (candle : Raw.OHLCV)
| Many (candles : list Raw.OHLCV).

Definition push (candles : rows) (symbol : string) : St unit :=
  let candles := match candles with One c => [c] | Many l => l end in
  candlesSymbol <~ getMarketCandles symbol None;
  candles <~ removeDuplicates candles symbol;
  _ <~ for_each candles
         (fun candle =>
            newCandle <~ calcCandle symbol candle;
            _ <~ ref_push candlesSymbol newCandle;
            fun cs =>
              for_each (aggTimes (config cs))
                (fun aggTime =>
                   candleAgg <~ getMarketCandles (symbol ++ ":" ++ aggTime) (Some aggTime);
                   ref_push candleAgg newCandle) cs);
  fun cs =>
    let l := read candlesSymbol cs in
    if (of_nat (length l) >? bufferSize (config cs))%num
    then (Ok tt,
          write candlesSymbol
            (drop (delete_count (of_nat (length l) - bufferSize (config cs))%num (length l)) l)
            cs)
    else (Ok tt, cs).

(** ** [pop], [get], [getLast], [forEachMarket] *)

Definition pop (symbol : string) : St (option Candle) :=
  candlesSymbol <~ getMarketCandles symbol None;
  ref_pop candlesSymbol.

Definition get (symbol : string) : St (list Candle) :=
  candlesSymbol <~ getMarketCandles symbol None;
  fun cs => (Ok (read candlesSymbol cs), cs).

(** [l.slice(start)] *)
Definition slice_from {A} (l : list A) (start : num) : list A :=
  match start with
  | Fin q =>
      let z := truncate q in
      if (z <? 0)%Z then drop (Z.to_nat (Z.max (Z.of_nat (length l) + z) 0)) l
      else drop (Z.to_nat z) l
  | PInf => []
  | NInf | NaN => l
  end.

(** [Candle | Candle[]] *)
Inductive last_candles : Type :=
| Single (c : option Candle)
| Several (l : list Candle).

(** [nb] is [None] when the argument is left out. *)
Definition getLast (symbol : string) (nb : option num) : St last_candles :=
  let nb := default (Fin 1) nb in
  candlesSymbol <~ getMarketCandles symbol None;
  fun cs =>
    let l := read candlesSymbol cs in
    (Ok (if (nb === Fin 1)%num then Single (last l)
         else Several (slice_from l (Fin (-1) * nb)%num)), cs).

(** The arguments the callback is called with, in order. *)
Definition forEachMarket (cs : CandleSet) : list (entry * string) :=
  map (fun kv => (snd kv, fst kv)) (marketCandles cs).

End CandleSet.

End CandleSet.

(** ** The indicator [ema] (lines 1-28 of [src/indicators/ema.ts]) *)

Module Ema.

(** [c[k]] on a candle: one of its seven fields, a property it inherits from
    [Object.prototype], or [undefined]. *)
Inductive field : Type :=
| FNum (n : num)
| FIndicators (i : gmap string value)
| FInherited (k : string)
| FUndef.

Definition inherited (k : string) : bool :=
  bool_decide (k ∈ ["constructor"; "hasOwnProperty"; "isPrototypeOf";
                    "propertyIsEnumerable"; "toLocaleString"; "toString"; "valueOf";
                    "__proto__"; "__defineGetter__"; "__defineSetter__";
                    "__lookupGetter__"; "__lookupSetter__"]).

Definition candle_field (c : CandleSet.Candle) (k : string) : field :=
  match k with
  | "time" => FNum (CandleSet.time c)
  | "open" => FNum (CandleSet.open c)
  | "high" => FNum (CandleSet.high c)
  | "low" => FNum (CandleSet.low c)
  | "close" => FNum (CandleSet.close c)
  | "volume" => FNum (CandleSet.volume c)
  | "indicators" => FIndicators (CandleSet.indicators c)
  | _ => if inherited k then FInherited k else FUndef
  end.

Section Ema.

Context `{rt : JsRuntime}.

(** [ema] of technicalindicators, called with [{ period, values }]. *)
Variable emaTI : value -> list field -> res (list num).

Definition ema (label : string) (opts : gmap string value) : CandleSet.CandleSetPlugin :=
  fun candles newCandle =>
    let period := CandleSet.prop opts "period" in
    let key := CandleSet.template (CandleSet.prop opts "key") in
    values <-? emaTI period
                 (map (fun c => candle_field c key)
                    (CandleSet.slice_from candles (opp (to_number period) - Fin 1)%num
                     ++ [newCandle]));
    Ok {[ label := match last values with
                   | Some v => VNum v
                   | None => VUndef
                   end ]}.

End Ema.

End Ema.

(** ** Inputs of the examples *)

(** A runtime for the examples: square roots are exact on squares of
    rationals and rounded down to a multiple of [1 / den] elsewhere, two ISO
    dates are known (59 days apart), no string is a numeral. *)
Definition example_sqrt (q : Q) : Q :=
  Z.sqrt (Qnum q * Z.pos (Qden q)) # Qden q.

Definition example_date (s : string) : num :=
  if String.eqb s "2018-01-01T00:00:00Z" then Fin 1514764800000
  else if String.eqb s "2018-03-01T00:00:00Z" then Fin 1519862400000
  else if String.eqb s "2018-01-08T00:00:00Z" then Fin 1515369600000
  else NaN.

Definition example_runtime : JsRuntime := {|
  sqrt_pos := example_sqrt;
  Date_getTime := example_date;
  ToString := fun _ => "NaN";
  ToNumber := fun _ => NaN
|}.

Definition window : Backtest :=
  mkBacktest "2018-01-01T00:00:00Z" "2018-03-01T00:00:00Z".

Definition base_config : TraderConfig :=
  mkTraderConfig "ema" ∅ (mkEnvConfig ["1h"] ["sma"] (Some window)) None.

(** A finished trial with two trades of 0.5 % each. *)
Definition flat_trader : Trader :=
  mkTrader STOP base_config (Some (Fin 0.01))
    (Some [mkTrade (Fin 0.005); mkTrade (Fin 0.005)]).

Definition flat_worker : TraderWorker :=
  mkTraderWorker base_config true flat_trader None false.

(** ** Gene domains *)

Definition is_integer (q : Q) : bool := Qeq_bool q (inject_Z (Qfloor q)).

(** What a gene needs for its domain to be inhabited: a list with an
    element, or finite bounds in order that are integers when values have to
    be. *)
Definition well_formed (g : Gene) : bool :=
  match list_ g with
  | Some l => negb (bool_decide (l = []))
  | None =>
      match min g, max g with
      | Fin a, Fin b =>
          Qle_bool a b && (negb (integer g) || (is_integer a && is_integer b))
      | _, _ => false
      end
  end.

(** The value [v] is in the domain of [g]: an element of the list, or a
    number within [[min, max]] that is an integer when [integer] is set. *)
Definition in_gene (g : Gene) (v : value) : bool :=
  match list_ g, v with
  | Some l, VStr s => bool_decide (s ∈ l)
  | None, VNum (Fin q) =>
      (min g <=? Fin q)%num && (Fin q <=? max g)%num
      && (negb (integer g) || is_integer q)
  | _, _ => false
  end.

(** Every gene of [gs] has a value of its domain in [o]. *)
Definition valid_genome (gs : list Gene) (o : gmap string value) : Prop :=
  forall g, g ∈ gs -> in_gene g (get o (key g)) = true.

(** The random source only yields numbers of [[0, 1)]. *)
Definition unit_interval (rnd : nat -> Q) : Prop :=
  forall n, (0 <= rnd n)%Q /\ (rnd n < 1)%Q.

(** ** More inputs of the examples *)

(** An engine whose methods all return and leave a stopped engine with no
    trades behind. *)
Definition quiet_trader (c : TraderConfig) : Trader := mkTrader STOP c None None.

Definition quiet_engine : Engine :=
  mkEngine (fun c _ => quiet_trader c)
    (fun t => Returns (quiet_trader (config t)))
    (fun t => Returns (quiet_trader (config t)))
    (fun t => Returns (quiet_trader (config t))).

(** A random source that always answers one half. *)
Definition halves : nat -> Q := fun _ => (1 # 2)%Q.

(** One integer gene [x] in [[0, 10]]. *)
Definition gene_x : Gene := mkGene "x" (Fin 0) (Fin 10) true None.

Definition opts_x (rate : num) : GeneticOpts :=
  mkGeneticOpts true 2 2 4 1 rate [window] [gene_x].

(** A baseline configuration whose [x] is outside the gene's range, and one
    whose [x] is inside. *)
Definition config_x (x : Q) : TraderConfig :=
  mkTraderConfig "ema" {[ "x" := VNum (Fin x) ]}
    (mkEnvConfig ["1h"] ["sma"] None) None.

Definition worker_x (x : Q) : TraderWorker :=
  createTraderWorker quiet_engine (config_x x) "ema-gen0-ind0"
    (stratOpts (config_x x)) true.

(** ** The ranking without exceptions *)

(** Under the comparator [(a, b) => score(b) - score(a)], an element of score
    [a] sorts strictly before one of score [b] when [b - a < 0]; the rebuild
    treats two neighbours as duplicates when [a - b === 0]; two scores are
    tied when neither sorts before the other. *)
Definition before (a b : num) : bool := (b - a <? Fin 0)%num.
Definition same (a b : num) : bool := (a - b === Fin 0)%num.
Definition tied (a b : num) : bool := negb (before a b) && negb (before b a).

Section PureRanking.

Context {A : Type}.
Variable score : A -> num.

(** [insert_sorted], [js_sort], [resort] and [rank] for a comparator that
    does not throw. *)
Fixpoint insert_by (x : A) (l : list A) : list A :=
  match l with
  | [] => [x]
  | y :: ys =>
      if before (score y) (score x) then y :: insert_by x ys else x :: y :: ys
  end.

Fixpoint sort_by (l : list A) : list A :=
  match l with
  | [] => []
  | x :: xs => insert_by x (sort_by xs)
  end.

Fixpoint resort_by (prev : A) (rest acc : list A) (currentIdx : nat) : list A :=
  match rest with
  | [] => acc
  | indiv :: rest' =>
      if same (score indiv) (score prev)
      then resort_by indiv rest' (acc ++ [indiv]) currentIdx
      else resort_by indiv rest' (splice acc currentIdx indiv) (S currentIdx)
  end.

Definition rank_by (l : list A) : list A :=
  match sort_by l with
  | [] => []
  | first :: rest => resort_by first rest [first] 1
  end.

(** The elements the rebuild inserts at the front cursor, and those it
    appends, in the order of the walk. *)
Fixpoint fronts (prev : A) (rest : list A) : list A :=
  match rest with
  | [] => []
  | x :: r => if same (score x) (score prev) then fronts x r else x :: fronts x r
  end.

Fixpoint backs (prev : A) (rest : list A) : list A :=
  match rest with
  | [] => []
  | x :: r => if same (score x) (score prev) then x :: backs x r else backs x r
  end.

(** A list in ranking order: no element sorts strictly before an earlier
    one. *)
Definition ranked (l : list A) : Prop :=
  StronglySorted (fun u v => before (score v) (score u) = false) l.

Definition rankable (x : A) : Prop := is_nan (score x) = false.

End PureRanking.

(** The aggregate total fitness, NaN standing for an exception. *)
Definition total_score (t : TraderWorker) : num :=
  match getFitness t KTotal with
  | Ok f => f
  | Throw _ => NaN
  end.

(** An individual that has run, with one fitness record of the given
    total. *)
Definition scored (n : string) (s : num) : TraderWorker :=
  mkTraderWorker (mkTraderConfig n ∅ (mkEnvConfig [] [] (Some window)) (Some true))
    true (quiet_trader base_config)
    (Some [mkFitness (Fin 0) (Fin 0) (Fin 0) (Fin 0) s]) true.

(** A generation with ties, among them two infinite scores. *)
Definition tied_generation : list TraderWorker :=
  [scored "a" (Fin 1); scored "b" (Fin 3); scored "c" (Fin 3); scored "d" (Fin 2);
   scored "e" (Fin 3); scored "f" (Fin 2); scored "g" PInf; scored "h" PInf].

(** A generation in which one aggregate total is NaN, as for an individual
    with a record of [flat_worker]. *)
Definition nan_generation : list TraderWorker :=
  [scored "a" (Fin 2); scored "b" (Fin 2); scored "c" NaN; scored "d" (Fin 1)].

Definition names (l : list TraderWorker) : list string :=
  map (fun t => name (config t)) l.

(** A configuration is invalid when it has no gene or keeps at least as many
    elite individuals as the population has. *)
Definition invalid (opts : GeneticOpts) : Prop :=
  genes opts = [] \/ (popSize opts <= elitism opts)%Z.

(** Invalid both ways: no gene, and five elite individuals in a population of
    two. *)
Definition invalid_opts : GeneticOpts :=
  mkGeneticOpts true 2 2 2 5 (Fin 0.5) [window] [].

(** The methods of the engine a task called, in order. *)
Definition calls (r : run) : list phase :=
  omap (fun ev => match ev with Called p _ => Some p | Logged _ => None end) (events r).

(** The names of the individuals of a report and the calls of their tasks. *)
Definition called (r : Report) : list (string * list phase) :=
  map (fun x => (name (config (worker (snd x))), calls (snd x))) (results r).

(** ** Crossover as the specification words it *)

(** The additional pass of [crossover] as section 4.5 describes a mutation:
    the pass of [mutate] over the child, which perturbs a numeric gene
    around the child's value. *)
Definition crossover_claimed `{rt : JsRuntime} (eng : Engine) (rnd : nat -> Q)
    (name_ : string) (traderA traderB : TraderWorker) (opts : GeneticOpts)
    : Gen TraderWorker :=
  newOpts <- forEach (genes opts) (cross_gene rnd (stratOpts (config traderA)))
               (stratOpts (config traderB));;
  r <- randomBetween rnd (Fin 0) (Fin 1) false;;
  newOpts <- (if (r <? Fin 0.25)%num
              then forEach (genes opts) (mutate_gene rnd newOpts (mutationRate opts))
                     newOpts
              else ret newOpts);;
  ret (createTraderWorker eng (tconfig (trader traderA)) name_ newOpts (opt_silent opts)).

(** A random source that answers the numbers of [l] and then [d]. *)
Definition stream (l : list Q) (d : Q) : nat -> Q := fun n => nth n l d.

(** What [crossover] may leave under the key of gene [g]: the value of
    [traderB], for a numeric gene the value of [traderA], or a value of the
    gene's domain. *)
Definition crossed (optsA optsB : gmap string value) (g : Gene) (v : value) : Prop :=
  v = get optsB (key g)
  \/ (list_ g = None /\ v = get optsA (key g))
  \/ in_gene g v = true.

(** The invariant of both loops of [crossover]. *)
Definition crossing (gs : list Gene) (optsA optsB o : gmap string value) : Prop :=
  (forall k, k ∉ key <$> gs -> o !! k = optsB !! k)
  /\ (forall g, g ∈ gs -> crossed optsA optsB g (get o (key g))).

(** ** Vocabulary for the tasks *)

(** The fitness records a worker holds ([undefined] holds none). *)
Definition recorded (t : TraderWorker) : list Fitness := default [] (fitnesses t).

(** A record that [calcFitness] computed. *)
Definition real `{rt : JsRuntime} (f : Fitness) : Prop :=
  exists w, calcFitness w = Ok f.

(** A configuration without candle aggregation and candle-set plugins. *)
Definition cleared (c : TraderConfig) : Prop :=
  aggTimes (env c) = [] /\ candleSetPlugins (env c) = [].

(** Two configurations that differ at most in the backtest window and the
    flush flag, the two fields a task writes. *)
Definition same_settings (c c' : TraderConfig) : Prop :=
  name c = name c' /\ stratOpts c = stratOpts c'
  /\ aggTimes (env c) = aggTimes (env c')
  /\ candleSetPlugins (env c) = candleSetPlugins (env c').

(** A worker as [createTraderWorker] leaves it. *)
Definition fresh (w : TraderWorker) : Prop :=
  hasRunned w = false /\ fitnesses w = None /\ cleared (config w).

(** A worker marked as run holds at least one record. *)
Definition evaluated (t : TraderWorker) : Prop :=
  hasRunned t = true -> recorded t <> [].

(** An engine whose [start] throws in every environment but the first (the
    ones that do not flush), leaving the engine running. *)
Definition running_trader (c : TraderConfig) : Trader :=
  mkTrader (NotStopped "RUNNING") c None None.

Definition flaky_engine : Engine :=
  mkEngine (fun c _ => quiet_trader c)
    (fun t => Returns (running_trader (config t)))
    (fun t => match flush (config t) with
              | Some false => Throws (Error "simulation fault") (running_trader (config t))
              | _ => Returns (running_trader (config t))
              end)
    (fun t => Returns (quiet_trader (config t))).

(** A worker that has not run yet. *)
Definition new_worker (n : string) : TraderWorker :=
  createTraderWorker flaky_engine base_config n ∅ true.

(** Three environments; the task of a new worker on the flaky engine fails
    in the second. *)
Definition three_windows : list Backtest := [window; window; window].

Definition failed_run : run :=
  snd (task (rt := example_runtime) flaky_engine three_windows (new_worker "ema-gen0-ind1")).

(** ** Vocabulary for the pool *)

(** What the task of a slot settles to once it has run to its end. *)
Definition finish `{rt : JsRuntime} (eng : Engine) (envs_ : list Backtest) (s : slot)
    : settled * run :=
  match state s with
  | Queued => task_from eng envs_ (job s)
  | Awaiting i rest p =>
      settle eng
        (match from_phase eng p (job s) with
         | (Some err, r) => (Some err, r)
         | (None, r) => env_loop eng (S i) rest r
         end)
  | Stopping err => reject err (best_effort_stop eng (job s))
  | Settled x => (x, job s)
  end.

(** A bound on the number of times the task of a slot can still resume. *)
Definition weight (envs_ : list Backtest) (s : slot) : nat :=
  match state s with
  | Queued => 3 * length envs_ + 2
  | Awaiting _ rest AtInit => 3 * length rest + 4
  | Awaiting _ rest AtStart => 3 * length rest + 3
  | Awaiting _ rest AtStop => 3 * length rest + 2
  | Stopping _ => 1
  | Settled _ => 0
  end.

Definition total_weight (envs_ : list Backtest) (p : list slot) : nat :=
  sum_list (map (weight envs_) p).

(** An engine whose [start] throws for the individual of index 3 and leaves
    its engine running. *)
Definition picky_engine : Engine :=
  mkEngine (fun c _ => quiet_trader c)
    (fun t => Returns (running_trader (config t)))
    (fun t => if String.eqb (name (config t)) "ema-gen0-ind3"
              then Throws (Error "simulation fault") (running_trader (config t))
              else Returns (running_trader (config t)))
    (fun t => Returns (quiet_trader (config t))).

(** A generation of five individuals that have not run. *)
Definition five : list TraderWorker :=
  map (fun k => createTraderWorker picky_engine base_config (worker_name base_config 0 k)
                  ∅ true)
    (seq 0 5).

(** The workers a generation's tasks leave behind. *)
Definition workers (rs : list (settled * run)) : list TraderWorker :=
  map (fun x => worker (snd x)) rs.

(** A worker with at least one fitness record. *)
Definition has_records (t : TraderWorker) : Prop :=
  exists l, fitnesses t = Some l /\ l <> [].

Definition fourth : TraderWorker :=
  createTraderWorker picky_engine base_config (worker_name base_config 0 3) ∅ true.

(** ** Vocabulary for the run *)

(** The reports of a run follow one another: each is what the body of the
    loop returns for the generation the report before it displayed. *)
Fixpoint linked `{rt : JsRuntime} (eng : Engine) (rnd : nat -> Q) (tc : TraderConfig)
    (opts : GeneticOpts) (previous : option (list TraderWorker))
    (reports : list Report) : Prop :=
  match reports with
  | [] => True
  | report :: rest =>
      (exists gen i j,
          generation_body eng rnd tc opts gen previous i = Ok (report, j))
      /\ linked eng rnd tc opts (Some (displayed report)) rest
  end.

(** Every call of the engine recorded in a run is made on a configuration
    without candle aggregation and plugins. *)
Definition calls_cleared (r : run) : Prop :=
  Forall (fun ev => forall p c, ev = Called p c -> cleared c) (events r).

(** An engine whose [start] throws for the baseline individual. *)
Definition baseline_fails_engine : Engine :=
  mkEngine (fun c _ => quiet_trader c)
    (fun t => Returns (running_trader (config t)))
    (fun t => if String.eqb (name (config t)) "ema-gen0-ind0"
              then Throws (Error "simulation fault") (running_trader (config t))
              else Returns (running_trader (config t)))
    (fun t => Returns (quiet_trader (config t))).

(** Two generations of two individuals, one of them elite. *)
Definition opts_carry : GeneticOpts :=
  mkGeneticOpts true 2 2 2 1 (Fin 0.5) [window] [gene_x].

Abbreviation carry_run :=
  (genetic (rt := example_runtime) quiet_engine halves (config_x 3) opts_carry 0).

Abbreviation failed_elite_run :=
  (genetic (rt := example_runtime) baseline_fails_engine halves (config_x 3) opts_carry 0).

(** The name, the number of records and the [hasRunned] flag of every
    individual of a report once the pool is idle. *)
Definition summary (r : Report) : list (string * nat * bool) :=
  map (fun t => (name (config t), length (recorded t), hasRunned t))
    (workers (results r)).

(** One generation of one individual and no environment. *)
Definition opts_no_env : GeneticOpts :=
  mkGeneticOpts true 1 1 1 0 (Fin 0.5) [] [gene_x].

(** A window of one week, and an individual that made no trade in it. *)
Definition week : Backtest :=
  mkBacktest "2018-01-01T00:00:00Z" "2018-01-08T00:00:00Z".

Definition idle_worker : TraderWorker :=
  mkTraderWorker (mkTraderConfig "ema" ∅ (mkEnvConfig [] [] (Some week)) (Some true))
    true (quiet_trader base_config) None false.

(** ** The calls of a task *)

(** The configuration a task gives its worker for environment [i]: the
    window of the environment, and the flush flag on the first one only. *)
Definition windowed (c : TraderConfig) (i : nat) (e : Backtest) : TraderConfig :=
  mkTraderConfig (name c) (stratOpts c)
    (mkEnvConfig (aggTimes (env c)) (candleSetPlugins (env c)) (Some e))
    (Some (i =? 0)%nat).

Definition calls_for (c : TraderConfig) (i : nat) (e : Backtest) : list event :=
  [Called AtInit (windowed c i e); Called AtStart (windowed c i e);
   Called AtStop (windowed c i e)].

(** The calls of a loop that goes through every environment from index [i]
    on. *)
Fixpoint full_trace (c : TraderConfig) (i : nat) (envs_ : list Backtest) : list event :=
  match envs_ with
  | [] => []
  | e :: rest => calls_for c i e ++ full_trace c (S i) rest
  end.

(** ** Ranges of numbers *)

(** A number, and within the given bounds. *)
Definition within (lo hi : Q) (x : num) : Prop :=
  exists q, x = Fin q /\ (lo <= q)%Q /\ (q <= hi)%Q.

(** ** Vocabulary for the candle sets *)

(** The candles buffered for a symbol, the symbols in the order of
    insertion, and a symbol that does not hold an aggregate. *)
Definition candles_at `{CandleSet.CandlesAggOps} (cs : CandleSet.CandleSet)
    (symbol : string) : list CandleSet.Candle :=
  CandleSet.read (CandleSet.TheArray symbol) cs.

Definition market_keys `{CandleSet.CandlesAggOps} (cs : CandleSet.CandleSet)
    : list string :=
  map fst (CandleSet.marketCandles cs).

Definition array_at `{CandleSet.CandlesAggOps} (cs : CandleSet.CandleSet)
    (symbol : string) : Prop :=
  forall a, CandleSet.market_get (CandleSet.marketCandles cs) symbol
            <> Some (CandleSet.Agg a).

(** The six numbers of a row, as [calcCandle] converts them. *)
Definition numbers_of `{rt : JsRuntime} (row : CandleSet.Raw.OHLCV)
    : num * num * num * num * num * num :=
  (to_number (CandleSet.Raw.time row), to_number (CandleSet.Raw.open row),
   to_number (CandleSet.Raw.high row), to_number (CandleSet.Raw.low row),
   to_number (CandleSet.Raw.close row), to_number (CandleSet.Raw.volume row)).

Definition ohlcv (c : CandleSet.Candle) : num * num * num * num * num * num :=
  (CandleSet.time c, CandleSet.open c, CandleSet.high c, CandleSet.low c,
   CandleSet.close c, CandleSet.volume c).

(** What [splice] leaves of a buffer of [l] once it exceeds [bufferSize]. *)
Definition trimmed (bufferSize : num) (l : list CandleSet.Candle)
    : list CandleSet.Candle :=
  if (of_nat (length l) >? bufferSize)%num
  then drop (CandleSet.delete_count (of_nat (length l) - bufferSize)%num (length l)) l
  else l.

(** An aggregate that keeps every candle, for the examples. *)
Definition example_agg : CandleSet.CandlesAggOps := {|
  CandleSet.CandlesAgg := list CandleSet.Candle;
  CandleSet.newCandlesAgg := fun _ _ => [];
  CandleSet.agg_push := fun a c => a ++ [c];
  CandleSet.getCandles := fun a => a;
  CandleSet.setCandles := fun _ l => l
|}.

Definition candle_at (t : Q) : CandleSet.Candle :=
  CandleSet.mkCandle (Fin t) (Fin 1) (Fin 1) (Fin 1) (Fin 1) (Fin 1) ∅.

Definition row_at (t : Q) : CandleSet.Raw.OHLCV :=
  CandleSet.Raw.mkOHLCV (VNum (Fin t)) (VNum (Fin 1)) (VNum (Fin 1)) (VNum (Fin 1))
    (VNum (Fin 1)) (VNum (Fin 1)).

(** A candle set without plugins and aggregation that buffers three
    candles of one market. *)
Definition example_set (l : list CandleSet.Candle) : CandleSet.CandleSet (aggOps := example_agg) :=
  CandleSet.mkCandleSet (CandleSet.mkCandleSetConfig (Fin 3) [] []) []
    [("BTC", CandleSet.Arr l)].

(** The candle set after a method: the same configuration and plugins; the
    symbols it had, in place, followed by new ones; distinct symbols stay
    distinct. *)
Definition grows `{CandleSet.CandlesAggOps} (cs cs' : CandleSet.CandleSet) : Prop :=
  CandleSet.config cs' = CandleSet.config cs
  /\ CandleSet.plugins cs' = CandleSet.plugins cs
  /\ market_keys cs `prefix_of` market_keys cs'
  /\ (NoDup (market_keys cs) -> NoDup (market_keys cs')).

(** A method that only ever takes the candle set to a grown one. *)
Definition growing `{CandleSet.CandlesAggOps} {A} (m : CandleSet.St A) : Prop :=
  forall cs, grows cs (snd (m cs)).

(** The candle [calcCandle] starts from, and the candle the plugins make of
    it for the buffer [l]: each plugin sees the indicators of the plugins
    before it, and its own indicators are spread over theirs. *)
Definition blank `{rt : JsRuntime} (row : CandleSet.Raw.OHLCV) : CandleSet.Candle :=
  CandleSet.mkCandle (to_number (CandleSet.Raw.time row))
    (to_number (CandleSet.Raw.open row)) (to_number (CandleSet.Raw.high row))
    (to_number (CandleSet.Raw.low row)) (to_number (CandleSet.Raw.close row))
    (to_number (CandleSet.Raw.volume row)) ∅.

Fixpoint with_indicators (ps : list CandleSet.CandleSetPlugin)
    (l : list CandleSet.Candle) (c : CandleSet.Candle) : res CandleSet.Candle :=
  match ps with
  | [] => Ok c
  | plugin :: ps' =>
      out <-? plugin l c;
      with_indicators ps' l
        (CandleSet.set_indicators c (CandleSet.spread (CandleSet.indicators c) out))
  end.

(** The buffer after the rows were appended one by one, up to the first row
    on which a plugin throws. *)
Fixpoint appended `{rt : JsRuntime} (ps : list CandleSet.CandleSetPlugin)
    (l : list CandleSet.Candle) (batch : list CandleSet.Raw.OHLCV)
    : res unit * list CandleSet.Candle :=
  match batch with
  | [] => (Ok tt, l)
  | row :: rest =>
      match with_indicators ps l (blank row) with
      | Ok c => appended ps (l ++ [c]) rest
      | Throw e => (Throw e, l)
      end
  end.

Definition batch_of (candles : CandleSet.rows) : list CandleSet.Raw.OHLCV :=
  match candles with
  | CandleSet.One c => [c]
  | CandleSet.Many l => l
  end.

(** A batch that [removeDuplicates] returns at once: the buffer is empty, or
    the first row is later than the newest candle. *)
Definition newer `{rt : JsRuntime} (batch : list CandleSet.Raw.OHLCV)
    (l : list CandleSet.Candle) : Prop :=
  match last l with
  | None => True
  | Some newest =>
      exists first, head batch = Some first
                    /\ CandleSet.gt_number (CandleSet.Raw.time first)
                         (CandleSet.time newest) = true
  end.

(** The symbols [push] may write to: its own and one per aggregation time. *)
Definition touched `{CandleSet.CandlesAggOps} (cs : CandleSet.CandleSet) (symbol : string)
    : list string :=
  symbol :: map (fun aggTime => symbol +:+ ":" +:+ aggTime)
              (CandleSet.aggTimes (CandleSet.config cs)).

(** A method that keeps the configuration and every entry of the map
    outside [keys], on a candle set of configuration [cfg]. *)
Definition confined `{CandleSet.CandlesAggOps} {A} (cfg : CandleSet.CandleSetConfig)
    (keys : list string) (m : CandleSet.St A) : Prop :=
  forall cs,
    CandleSet.config cs = cfg ->
    CandleSet.config (snd (m cs)) = cfg
    /\ forall s, s ∉ keys ->
         CandleSet.market_get (CandleSet.marketCandles (snd (m cs))) s
         = CandleSet.market_get (CandleSet.marketCandles cs) s.

(** What [ema] returns for the values the library answers. *)
Definition labelled (label : string) (values : list num) : gmap string value :=
  {[ label := match last values with
              | Some v => VNum v
              | None => VUndef
              end ]}.

(** A loader that knows the one indicator of the source. *)
Definition ema_loader `{rt : JsRuntime}
    (emaTI : value -> list Ema.field -> res (list num)) : CandleSet.Loader :=
  fun indicator =>
    if String.eqb indicator "ema" then Ok (Ema.ema emaTI)
    else Throw (Error "Cannot find module").

(** A stand-in for the library: the mean of the numbers it is given. *)
Definition example_emaTI (period : value) (values : list Ema.field) : res (list num) :=
  Ok [(fold_left (fun sum v => match v with
                               | Ema.FNum n => (sum + n)%num
                               | _ => NaN
                               end) values (Fin 0)
       / of_nat (length values))%num].

Definition ema_opts : gmap string value :=
  {[ "name" := VStr "ema"; "period" := VNum (of_nat 2); "key" := VStr "close" ]}.

Definition ema_config : CandleSet.CandleSetConfig :=
  CandleSet.mkCandleSetConfig (Fin 3) [("ema2", ema_opts)] [].

(** * Properties *)

(** ** Numbers *)

Lemma add_nan_r (x : num) : (x + NaN)%num = NaN.
Proof. destruct x; reflexivity. Qed.

(** ** Fitness evaluation *)

(** C1.  The clamp of [calcFitness] lets a NaN Sharpe ratio through: for a
    trial whose two trades both made 0.005, the mean minus 0.005 and the
    standard deviation are both zero, their quotient is NaN, neither
    comparison of the clamp holds, and both [sharpeRatio] and [total] of the
    record are NaN, whatever the runtime. *)
Theorem calcFitness_flat_trades `{rt : JsRuntime} :
  exists f, calcFitness flat_worker = Ok f
            /\ sharpeRatio f = NaN /\ total f = NaN.
Proof.
  unfold calcFitness. cbn.
  eexists. split; [reflexivity|]. cbn. split; [reflexivity|].
  apply add_nan_r.
Qed.

(** ** The monad *)

Lemma bind_ok {A B} (m : Gen A) (k : A -> Gen B) (i j : nat) (a : A) :
  m i = Ok (a, j) -> (x <- m;; k x) i = k a j.
Proof. intros E. unfold bind. rewrite E. reflexivity. Qed.

(** A loop whose body keeps [Inv] and returns keeps [Inv] and returns. *)
Lemma forEach_invariant {A S} (Inv : S -> Prop) (body : A -> S -> Gen S) (xs : list A) :
  (forall x s i, x ∈ xs -> Inv s -> exists s' j, body x s i = Ok (s', j) /\ Inv s') ->
  forall s i, Inv s -> exists s' j, forEach xs body s i = Ok (s', j) /\ Inv s'.
Proof.
  induction xs as [|x xs IH]; intros Hbody s i Hs.
  - exists s, i. split; [reflexivity | assumption].
  - destruct (Hbody x s i) as (s1 & j1 & E1 & H1); [left | assumption |].
    destruct (IH (fun y s i Hy => Hbody y s i (list_elem_of_further _ _ _ Hy)) s1 j1 H1)
      as (s2 & j2 & E2 & H2).
    exists s2, j2. split; [| assumption].
    cbn. rewrite (bind_ok _ _ _ _ _ E1). exact E2.
Qed.

Lemma forEach_singleton {A S} (body : A -> S -> Gen S) (x : A) (s s' : S) (i j : nat) :
  body x s i = Ok (s', j) -> forEach [x] body s i = Ok (s', j).
Proof. intros E. cbn. by rewrite (bind_ok _ _ _ _ _ E). Qed.

(** The same with an invariant that grows with the elements gone through. *)
Lemma forEach_prefix {A S} (Inv : list A -> S -> Prop) (body : A -> S -> Gen S) :
  forall (rest done : list A),
    (forall pre x s i, (exists post, done ++ rest = pre ++ x :: post) ->
       Inv pre s -> exists s' j, body x s i = Ok (s', j) /\ Inv (pre ++ [x]) s') ->
    forall s i, Inv done s ->
      exists s' j, forEach rest body s i = Ok (s', j) /\ Inv (done ++ rest) s'.
Proof.
  induction rest as [|x rest IH]; intros done Hbody s i Hs.
  - exists s, i. rewrite app_nil_r. split; [reflexivity | assumption].
  - destruct (Hbody done x s i) as (s1 & j1 & E1 & H1); [by exists rest | assumption |].
    destruct (IH (done ++ [x])) with (s := s1) (i := j1) as (s2 & j2 & E2 & H2).
    + intros pre y s' i' Hsplit. apply Hbody.
      rewrite <- app_assoc in Hsplit. exact Hsplit.
    + exact H1.
    + exists s2, j2. rewrite <- app_assoc in H2. split; [| exact H2].
      cbn. rewrite (bind_ok _ _ _ _ _ E1). exact E2.
Qed.

(** ** Random draws *)

Section Draws.

Variable rnd : nat -> Q.
Hypothesis rnd_unit : unit_interval rnd.

Lemma randomBetween_float (a b : Q) (i : nat) :
  (a <= b)%Q ->
  exists q, randomBetween rnd (Fin a) (Fin b) false i = Ok (Fin q, S i)
            /\ (a <= q)%Q /\ (q <= b)%Q.
Proof.
  intros Hab. destruct (rnd_unit i) as [H0 H1].
  eexists. split; [reflexivity|].
  rewrite !Qred_correct. split; nra.
Qed.

Lemma randomBetween_integer (a b : Q) (za zb : Z) (i : nat) :
  (a == inject_Z za)%Q -> (b == inject_Z zb)%Q -> (za <= zb)%Z ->
  exists z, randomBetween rnd (Fin a) (Fin b) true i = Ok (of_Z z, S i)
            /\ (za <= z <= zb)%Z.
Proof.
  intros Ha Hb Hab. destruct (rnd_unit i) as [H0 H1].
  eexists. split; [reflexivity|].
  set (x := (Qred (Qred (Qred (rnd i) * Qred (Qred (b + Qred (- a)) + 1)) + a))%Q).
  assert (Hx : (inject_Z za <= x)%Q /\ (x < inject_Z (zb + 1))%Q).
  { unfold x. rewrite !Qred_correct, Ha, Hb, inject_Z_plus.
    assert (inject_Z za <= inject_Z zb)%Q by (rewrite <- Zle_Qle; lia).
    change (inject_Z 1) with 1%Q. split; nra. }
  destruct Hx as [Hlo Hhi]. split.
  - apply Qfloor_resp_le in Hlo. rewrite Qfloor_Z in Hlo. exact Hlo.
  - pose proof (Qfloor_le x) as Hf.
    assert (inject_Z (Qfloor x) < inject_Z (zb + 1))%Q as Hlt by lra.
    rewrite <- Zlt_Qlt in Hlt. lia.
Qed.

Lemma to_index_of_Z (z : Z) : (0 <= z)%Z -> to_index (of_Z z) = Some (Z.to_nat z).
Proof.
  intros Hz. unfold to_index, of_Z. rewrite Qfloor_Z.
  rewrite Qeq_bool_refl. cbn.
  destruct (0 <=? z)%Z eqn:E; [reflexivity | apply Z.leb_gt in E; lia].
Qed.

Lemma pick_nonempty (l : list string) (i : nat) :
  l <> [] -> exists s, pick rnd l i = Ok (VStr s, S i) /\ s ∈ l.
Proof.
  intros Hl. unfold pick.
  destruct (randomBetween_integer 0 (Qred (inject_Z (Z.of_nat (length l)) + Qred (- (1))))
              0 (Z.of_nat (length l) - 1) i) as (z & E & Hz).
  - reflexivity.
  - rewrite !Qred_correct. unfold Z.sub. rewrite inject_Z_plus. reflexivity.
  - destruct l; [congruence | cbn [length]; lia].
  - destruct (lookup_lt_is_Some_2 l (Z.to_nat z)) as [s Hs]; [lia|].
    exists s. split; [| by eapply list_elem_of_lookup_2].
    rewrite (bind_ok _ _ _ _ _ E). unfold ret, index.
    rewrite to_index_of_Z by lia. cbn. rewrite Hs. reflexivity.
Qed.

End Draws.

(** ** Gene domains are kept by sampling, mutation and crossover *)

Lemma get_insert (o : gmap string value) (k : string) (v : value) :
  get (<[k := v]> o) k = v.
Proof. unfold get. by rewrite lookup_insert_eq. Qed.

Lemma get_insert_ne (o : gmap string value) (k k' : string) (v : value) :
  k <> k' -> get (<[k := v]> o) k' = get o k'.
Proof. intros Hk. unfold get. by rewrite lookup_insert_ne. Qed.

Lemma key_injective (gs : list Gene) (g g' : Gene) :
  NoDup (key <$> gs) -> g ∈ gs -> g' ∈ gs -> key g = key g' -> g = g'.
Proof.
  induction gs as [|x gs IH]; intros Hnd Hg Hg' Hk.
  - by apply elem_of_nil in Hg.
  - rewrite fmap_cons in Hnd. apply NoDup_cons in Hnd as [Hx Hnd].
    apply elem_of_cons in Hg as [-> | Hg]; apply elem_of_cons in Hg' as [-> | Hg'].
    + reflexivity.
    + exfalso. apply Hx. rewrite Hk. by apply list_elem_of_fmap_2.
    + exfalso. apply Hx. rewrite <- Hk. by apply list_elem_of_fmap_2.
    + by apply IH.
Qed.

Lemma valid_insert (gs : list Gene) (o : gmap string value) (g : Gene) (v : value) :
  NoDup (key <$> gs) -> g ∈ gs -> valid_genome gs o -> in_gene g v = true ->
  valid_genome gs (<[key g := v]> o).
Proof.
  intros Hnd Hg Ho Hv g' Hg'.
  destruct (decide (key g = key g')) as [Hk | Hk].
  - rewrite <- (key_injective gs g g' Hnd Hg Hg' Hk), get_insert. exact Hv.
  - rewrite get_insert_ne by exact Hk. by apply Ho.
Qed.

Lemma in_gene_list (g : Gene) (l : list string) (s : string) :
  list_ g = Some l -> s ∈ l -> in_gene g (VStr s) = true.
Proof. intros Hl Hs. unfold in_gene. rewrite Hl. by apply bool_decide_eq_true. Qed.

Lemma in_gene_number (g : Gene) (a b q : Q) :
  list_ g = None -> min g = Fin a -> max g = Fin b ->
  (a <= q)%Q -> (q <= b)%Q -> (integer g = true -> is_integer q = true) ->
  in_gene g (VNum (Fin q)) = true.
Proof.
  intros Hl Ha Hb Haq Hqb Hint. unfold in_gene. rewrite Hl, Ha, Hb. cbn.
  apply Qle_bool_iff in Haq, Hqb. rewrite Haq, Hqb. cbn.
  destruct (integer g); [by rewrite Hint | reflexivity].
Qed.

Lemma in_gene_number_inv (g : Gene) (a b : Q) (v : value) :
  list_ g = None -> min g = Fin a -> max g = Fin b -> in_gene g v = true ->
  exists q, v = VNum (Fin q) /\ (a <= q)%Q /\ (q <= b)%Q.
Proof.
  intros Hl Ha Hb. unfold in_gene. rewrite Hl, Ha, Hb.
  destruct v as [[q| | |]| |]; try discriminate. cbn.
  intros H. apply andb_prop in H as [H _]. apply andb_prop in H as [H1 H2].
  apply Qle_bool_iff in H1, H2. by exists q.
Qed.

(** The bounds of a well-formed numeric gene. *)
Lemma well_formed_bounds (g : Gene) :
  well_formed g = true -> list_ g = None ->
  exists a b, min g = Fin a /\ max g = Fin b /\ (a <= b)%Q
              /\ (integer g = true -> is_integer a = true /\ is_integer b = true).
Proof.
  unfold well_formed. intros H Hl. rewrite Hl in H.
  destruct (min g) as [a| | |]; try discriminate.
  destruct (max g) as [b| | |]; try discriminate.
  apply andb_prop in H as [Hab Hint]. apply Qle_bool_iff in Hab.
  exists a, b. split; [reflexivity|]. split; [reflexivity|]. split; [exact Hab|].
  intros Hi. rewrite Hi in Hint. cbn in Hint. by apply andb_prop in Hint.
Qed.

Lemma is_integer_of_Z (z : Z) : is_integer (inject_Z z) = true.
Proof. unfold is_integer. rewrite Qfloor_Z. apply Qeq_bool_refl. Qed.

Lemma is_integer_eq (q : Q) : is_integer q = true -> (q == inject_Z (Qfloor q))%Q.
Proof. apply Qeq_bool_eq. Qed.

Section Genes.

Context `{rt : JsRuntime}.
Variable eng : Engine.
Variable rnd : nat -> Q.
Hypothesis rnd_unit : unit_interval rnd.

Lemma sample_in_gene (g : Gene) (i : nat) :
  well_formed g = true ->
  exists v, sample rnd g i = Ok (v, S i) /\ in_gene g v = true.
Proof.
  intros Hwf. unfold sample. destruct (list_ g) as [l|] eqn:Hl.
  - unfold well_formed in Hwf. rewrite Hl in Hwf.
    apply negb_true_iff, bool_decide_eq_false in Hwf.
    destruct (pick_nonempty rnd rnd_unit l i Hwf) as (s & E & Hs).
    exists (VStr s). split; [exact E | by eapply in_gene_list].
  - destruct (well_formed_bounds g Hwf Hl) as (a & b & Ha & Hb & Hab & Hint).
    rewrite Ha, Hb. destruct (integer g) eqn:Hi.
    + destruct Hint as [Hia Hib]; [reflexivity|].
      apply is_integer_eq in Hia, Hib.
      destruct (randomBetween_integer rnd rnd_unit a b (Qfloor a) (Qfloor b) i)
        as (z & E & Hz); [done | done | by apply Qfloor_resp_le |].
      exists (VNum (of_Z z)). split.
      * rewrite (bind_ok _ _ _ _ _ E). reflexivity.
      * apply (in_gene_number g a b); try done.
        -- rewrite Hia, <- Zle_Qle. lia.
        -- rewrite Hib, <- Zle_Qle. lia.
        -- intros _. apply is_integer_of_Z.
    + destruct (randomBetween_float rnd rnd_unit a b i Hab) as (q & E & Hq1 & Hq2).
      exists (VNum (Fin q)). split.
      * rewrite (bind_ok _ _ _ _ _ E). reflexivity.
      * apply (in_gene_number g a b); try done. congruence.
Qed.

Lemma randomIndiv_valid (tc : TraderConfig) (opts : GeneticOpts) (gen ind i : nat) :
  NoDup (key <$> genes opts) ->
  Forall (fun g => well_formed g = true) (genes opts) ->
  exists w j, randomIndiv eng rnd tc opts gen ind i = Ok (w, j)
              /\ valid_genome (genes opts) (stratOpts (config w)).
Proof.
  intros Hnd Hwf. unfold randomIndiv.
  destruct (forEach_prefix (fun done o => valid_genome done o)
              (fun g newOpts => v <- sample rnd g;; ret (<[key g := v]> newOpts))
              (genes opts) []) with (s := stratOpts tc) (i := i)
    as (o & j & E & Ho).
  - intros pre x s k [post Hsplit] Hpre. cbn in Hsplit.
    assert (Hx : well_formed x = true).
    { rewrite Forall_forall in Hwf. apply Hwf. rewrite Hsplit. set_solver. }
    destruct (sample_in_gene x k Hx) as (v & Ev & Hv).
    exists (<[key x := v]> s), (S k). split.
    + rewrite (bind_ok _ _ _ _ _ Ev). reflexivity.
    + intros g Hg. destruct (decide (key x = key g)) as [Hk | Hk].
      * apply elem_of_app in Hg as [Hg | Hg].
        -- exfalso. rewrite Hsplit, fmap_app, fmap_cons in Hnd.
           apply NoDup_app in Hnd as (_ & Hnd & _).
           apply (Hnd (key g)); [by apply list_elem_of_fmap_2 | rewrite Hk; left].
        -- apply list_elem_of_singleton in Hg as ->. by rewrite get_insert.
      * rewrite get_insert_ne by exact Hk.
        apply elem_of_app in Hg as [Hg | Hg]; [by apply Hpre |].
        apply list_elem_of_singleton in Hg as ->. congruence.
  - intros g Hg. by apply elem_of_nil in Hg.
  - exists (createTraderWorker eng tc (worker_name tc gen ind) o (opt_silent opts)), j.
    split; [| exact Ho].
    rewrite (bind_ok _ _ _ _ _ E). reflexivity.
Qed.

(** The clamp of [mutate] on a finite number. *)
Lemma clamp_in_range (a b y : Q) :
  (a <= b)%Q ->
  exists c,
    (if (to_number (VNum (Fin y)) <? Fin a)%num then VNum (Fin a)
     else if (to_number (VNum (Fin y)) >? Fin b)%num then VNum (Fin b)
          else VNum (Fin y)) = VNum (Fin c)
    /\ (a <= c)%Q /\ (c <= b)%Q /\ ((c <= y)%Q \/ c = a).
Proof.
  intros Hab. cbn.
  destruct (Qle_bool a y) eqn:E1; cbn.
  - destruct (Qle_bool y b) eqn:E2; cbn.
    + exists y. apply Qle_bool_iff in E1, E2.
      split; [reflexivity |]. split; [exact E1 |]. split; [exact E2 |]. left. lra.
    + exists b. assert (~ (y <= b)%Q) by (rewrite <- Qle_bool_iff; congruence).
      split; [reflexivity |]. split; [exact Hab |]. split; [lra |]. left. lra.
  - exists a. split; [reflexivity |]. split; [lra |]. split; [exact Hab |]. by right.
Qed.

Lemma mutate_gene_valid (gs : list Gene) (old : gmap string value) (rate : num)
    (g : Gene) (o : gmap string value) (i : nat) :
  NoDup (key <$> gs) -> g ∈ gs -> well_formed g = true ->
  valid_genome gs old -> valid_genome gs o ->
  exists o' j, mutate_gene rnd old rate g o i = Ok (o', j) /\ valid_genome gs o'.
Proof.
  intros Hnd Hg Hwf Hold Ho. unfold mutate_gene.
  destruct (randomBetween_float rnd rnd_unit 0 1 i) as (q0 & E0 & _); [lra|].
  rewrite (bind_ok _ _ _ _ _ E0).
  destruct (Fin q0 <=? rate)%num; [| by exists o, (S i)].
  destruct (list_ g) as [l|] eqn:Hl.
  - unfold well_formed in Hwf. rewrite Hl in Hwf.
    apply negb_true_iff, bool_decide_eq_false in Hwf.
    destruct (pick_nonempty rnd rnd_unit l (S i) Hwf) as (s & E & Hs).
    exists (<[key g := VStr s]> o), (S (S i)). split.
    + rewrite (bind_ok _ _ _ _ _ E). reflexivity.
    + apply valid_insert; try done. by eapply in_gene_list.
  - destruct (well_formed_bounds g Hwf Hl) as (a & b & Ha & Hb & Hab & Hint).
    destruct (in_gene_number_inv g a b _ Hl Ha Hb (Hold g Hg)) as (x & Hx & _ & _).
    destruct (randomBetween_integer rnd rnd_unit 0 1 0 1 (S i)) as (z & E1 & Hz);
      [reflexivity | reflexivity | lia |].
    destruct (randomBetween_float rnd rnd_unit 0.005 0.5 (S (S i))) as (m & E2 & _);
      [lra|].
    rewrite (bind_ok _ _ _ _ _ E1), (bind_ok _ _ _ _ _ E2), Hx, Ha, Hb.
    assert (Hdiff : exists d, ((Fin b - Fin a) * Fin m
                               * (if (of_Z z === Fin 0)%num then Fin (-1) else Fin 1))%num
                              = Fin d).
    { destruct (of_Z z === Fin 0)%num; eexists; reflexivity. }
    destruct Hdiff as [d ->]. cbn [js_plus add]. unfold fin.
    destruct (clamp_in_range a b (Qred (x + d)) Hab) as (c & -> & Hc1 & Hc2 & _).
    eexists _, _. split; [reflexivity|].
    apply valid_insert; try done.
    destruct (integer g) eqn:Hi.
    + destruct Hint as [Hia _]; [reflexivity|]. apply is_integer_eq in Hia.
      apply (in_gene_number g a b); try done.
      * rewrite Hia, <- Zle_Qle. rewrite <- (Qfloor_Z (Qfloor a)), Qfloor_Z.
        apply Qfloor_resp_le in Hc1. exact Hc1.
      * pose proof (Qfloor_le c). lra.
      * intros _. apply is_integer_of_Z.
    + apply (in_gene_number g a b); try done. congruence.
Qed.

(** A mutation moves a numeric gene up by at most half its range. *)
Lemma mutate_gene_half_range (old : gmap string value) (rate : num) (g : Gene)
    (o : gmap string value) (i : nat) (a b x : Q) :
  list_ g = None -> min g = Fin a -> max g = Fin b -> (a <= b)%Q ->
  get old (key g) = VNum (Fin x) -> (a <= x)%Q ->
  exists o' j,
    mutate_gene rnd old rate g o i = Ok (o', j)
    /\ (o' = o \/ exists q, o' = <[key g := VNum (Fin q)]> o
                            /\ (q <= x + (b - a) / 2)%Q).
Proof.
  intros Hl Ha Hb Hab Hx Hax. unfold mutate_gene.
  assert (Hhalf : ((b - a) / 2 == (b - a) * (1 # 2))%Q) by field.
  setoid_rewrite Hhalf.
  destruct (randomBetween_float rnd rnd_unit 0 1 i) as (q0 & E0 & _); [lra|].
  rewrite (bind_ok _ _ _ _ _ E0).
  destruct (Fin q0 <=? rate)%num; [| exists o, (S i); split; [reflexivity | by left]].
  rewrite Hl.
  destruct (randomBetween_integer rnd rnd_unit 0 1 0 1 (S i)) as (z & E1 & Hz);
    [reflexivity | reflexivity | lia |].
  destruct (randomBetween_float rnd rnd_unit 0.005 0.5 (S (S i))) as (m & E2 & Hm1 & Hm2);
    [lra|].
  rewrite (bind_ok _ _ _ _ _ E1), (bind_ok _ _ _ _ _ E2), Hx, Ha, Hb.
  assert (Hdiff : exists d, ((Fin b - Fin a) * Fin m
                             * (if (of_Z z === Fin 0)%num then Fin (-1) else Fin 1))%num
                            = Fin d /\ (d <= (b - a) * (1 # 2))%Q).
  { assert (H0 : (0 <= (b + - a) * m)%Q) by (apply Qmult_le_0_compat; lra).
    assert (H1 : ((b + - a) * m <= (b + - a) * (1 # 2))%Q).
    { apply Qmult_le_compat_nonneg; split; lra. }
    destruct (of_Z z === Fin 0)%num; eexists; (split; [reflexivity |]);
      rewrite !Qred_correct; lra. }
  destruct Hdiff as (d & -> & Hd). cbn [js_plus add]. unfold fin.
  destruct (clamp_in_range a b (Qred (x + d)) Hab) as (c & -> & Hc1 & Hc2 & Hc3).
  assert (Hc : (c <= x + (b - a) * (1 # 2))%Q).
  { destruct Hc3 as [Hc3 | ->]; [rewrite Qred_correct in Hc3 |]; lra. }
  eexists _, _. split; [reflexivity |]. right.
  destruct (integer g).
  - eexists. split; [reflexivity |]. cbn. pose proof (Qfloor_le c). lra.
  - exists c. by split.
Qed.

Lemma mutate_valid (tc : TraderConfig) (parent : TraderWorker) (opts : GeneticOpts)
    (gen ind i : nat) :
  NoDup (key <$> genes opts) ->
  Forall (fun g => well_formed g = true) (genes opts) ->
  valid_genome (genes opts) (stratOpts (config parent)) ->
  exists w j, mutate eng rnd tc parent opts gen ind i = Ok (w, j)
              /\ valid_genome (genes opts) (stratOpts (config w)).
Proof.
  intros Hnd Hwf Hp. unfold mutate.
  destruct (forEach_invariant (valid_genome (genes opts))
              (mutate_gene rnd (stratOpts (config parent)) (mutationRate opts))
              (genes opts)) with (s := stratOpts (config parent)) (i := i)
    as (o & j & E & Ho).
  - intros g o k Hg Ho. apply mutate_gene_valid; try done.
    rewrite Forall_forall in Hwf. by apply Hwf.
  - exact Hp.
  - eexists _, j. rewrite (bind_ok _ _ _ _ _ E). split; [reflexivity | exact Ho].
Qed.

Lemma cross_gene_valid (gs : list Gene) (optsA : gmap string value) (g : Gene)
    (o : gmap string value) (i : nat) :
  NoDup (key <$> gs) -> g ∈ gs -> well_formed g = true ->
  valid_genome gs optsA -> valid_genome gs o ->
  exists o' j, cross_gene rnd optsA g o i = Ok (o', j) /\ valid_genome gs o'.
Proof.
  intros Hnd Hg Hwf HA Ho. unfold cross_gene.
  destruct (randomBetween_float rnd rnd_unit 0 1 i) as (q0 & E0 & _); [lra|].
  rewrite (bind_ok _ _ _ _ _ E0).
  destruct (Fin q0 <? Fin 0.5)%num; [| by exists o, (S i)].
  destruct (list_ g) as [l|] eqn:Hl.
  - unfold well_formed in Hwf. rewrite Hl in Hwf.
    apply negb_true_iff, bool_decide_eq_false in Hwf.
    destruct (pick_nonempty rnd rnd_unit l (S i) Hwf) as (s & E & Hs).
    exists (<[key g := VStr s]> o), (S (S i)). split.
    + rewrite (bind_ok _ _ _ _ _ E). reflexivity.
    + apply valid_insert; try done. by eapply in_gene_list.
  - eexists _, _. split; [reflexivity|]. apply valid_insert; try done. by apply HA.
Qed.

Lemma resample_gene_valid (gs : list Gene) (rate : num) (g : Gene)
    (o : gmap string value) (i : nat) :
  NoDup (key <$> gs) -> g ∈ gs -> well_formed g = true -> valid_genome gs o ->
  exists o' j, resample_gene rnd rate g o i = Ok (o', j) /\ valid_genome gs o'.
Proof.
  intros Hnd Hg Hwf Ho. unfold resample_gene.
  destruct (randomBetween_float rnd rnd_unit 0 1 i) as (q0 & E0 & _); [lra|].
  rewrite (bind_ok _ _ _ _ _ E0).
  destruct (Fin q0 <=? rate)%num; [| by exists o, (S i)].
  destruct (sample_in_gene g (S i) Hwf) as (v & E & Hv).
  exists (<[key g := v]> o), (S (S i)). split.
  - rewrite (bind_ok _ _ _ _ _ E). reflexivity.
  - by apply valid_insert.
Qed.

Lemma crossover_valid (n : string) (A B : TraderWorker) (opts : GeneticOpts) (i : nat) :
  NoDup (key <$> genes opts) ->
  Forall (fun g => well_formed g = true) (genes opts) ->
  valid_genome (genes opts) (stratOpts (config A)) ->
  valid_genome (genes opts) (stratOpts (config B)) ->
  exists w j, crossover eng rnd n A B opts i = Ok (w, j)
              /\ valid_genome (genes opts) (stratOpts (config w)).
Proof.
  intros Hnd Hwf HA HB. unfold crossover. rewrite Forall_forall in Hwf.
  destruct (forEach_invariant (valid_genome (genes opts))
              (cross_gene rnd (stratOpts (config A))) (genes opts))
    with (s := stratOpts (config B)) (i := i) as (o1 & j1 & E1 & Ho1);
    [intros g o k Hg Ho; apply cross_gene_valid; auto | exact HB |].
  rewrite (bind_ok _ _ _ _ _ E1).
  destruct (randomBetween_float rnd rnd_unit 0 1 j1) as (q0 & E0 & _); [lra|].
  rewrite (bind_ok _ _ _ _ _ E0).
  destruct (Fin q0 <? Fin 0.25)%num.
  - destruct (forEach_invariant (valid_genome (genes opts))
                (resample_gene rnd (mutationRate opts)) (genes opts))
      with (s := o1) (i := S j1) as (o2 & j2 & E2 & Ho2);
      [intros g o k Hg Ho; apply resample_gene_valid; auto | exact Ho1 |].
    rewrite (bind_ok _ _ _ _ _ E2). eexists _, _. split; [reflexivity | exact Ho2].
  - eexists _, _. split; [reflexivity | exact Ho1].
Qed.

End Genes.


Lemma halves_unit : unit_interval halves.
Proof. intros n. split; [discriminate | reflexivity]. Qed.

Lemma valid_worker_x (x : Q) :
  in_gene gene_x (VNum (Fin x)) = true ->
  valid_genome [gene_x] (stratOpts (config (worker_x x))).
Proof.
  intros Hx g Hg. apply list_elem_of_singleton in Hg as ->. exact Hx.
Qed.



(** ** The order of the comparator *)

Lemma before_fin (p q : Q) : before (Fin p) (Fin q) = false <-> (p <= q)%Q.
Proof.
  unfold before, sub, add, opp, fin, ltb.
  rewrite negb_false_iff, Qle_bool_iff, !Qred_correct. split; intros; lra.
Qed.

Lemma before_irrefl (a : num) : before a a = false.
Proof.
  destruct a as [p| | |]; try reflexivity. apply before_fin. lra.
Qed.

Lemma before_neg_trans (a b c : num) :
  is_nan b = false ->
  before a b = false -> before b c = false -> before a c = false.
Proof.
  destruct a as [p| | |], b as [q| | |], c as [r| | |];
    try reflexivity; try discriminate.
  rewrite !before_fin. intros _ ? ?. lra.
Qed.

Lemma same_fin (a b : num) :
  same a b = true -> exists p q, a = Fin p /\ b = Fin q /\ (p == q)%Q.
Proof.
  destruct a as [p| | |], b as [q| | |]; try discriminate.
  unfold same, sub, add, opp, fin, strict_eq. intros E.
  apply Qeq_bool_eq in E. rewrite !Qred_correct in E.
  exists p, q. repeat split. lra.
Qed.

Lemma tied_fin_same (p : Q) (b : num) :
  is_nan b = false -> tied (Fin p) b = true -> same (Fin p) b = true.
Proof.
  unfold tied. destruct b as [q| | |]; try discriminate.
  intros _ E. apply andb_prop in E as [E1 E2].
  apply negb_true_iff in E1, E2. apply before_fin in E1, E2.
  unfold same, sub, add, opp, fin, strict_eq.
  apply Qeq_eq_bool. rewrite !Qred_correct. lra.
Qed.

Lemma tied_intro (a b : num) :
  before a b = false -> before b a = false -> tied a b = true.
Proof. intros E1 E2. unfold tied. by rewrite E1, E2. Qed.

Lemma tied_elim (a b : num) :
  tied a b = true -> before a b = false /\ before b a = false.
Proof.
  unfold tied. intros E. apply andb_prop in E as [E1 E2].
  by apply negb_true_iff in E1, E2.
Qed.

Lemma before_asym (a b : num) : before a b = true -> before b a = false.
Proof.
  destruct a as [p| | |], b as [q| | |]; try reflexivity; try discriminate.
  intros E. apply before_fin.
  destruct (Qlt_le_dec p q) as [Hlt | Hle]; [| exact Hle].
  apply Qlt_le_weak, before_fin in Hlt. congruence.
Qed.

Lemma filter_none {A} (P : A -> Prop) `{!forall x, Decision (P x)} (l : list A) :
  (forall x, x ∈ l -> ~ P x) -> filter P l = [].
Proof.
  induction l as [|y ys IH]; intros Hno; [done|].
  rewrite filter_cons, decide_False by (apply Hno; left).
  apply IH. intros x Hx. apply Hno. by right.
Qed.

(** ** The ranking without exceptions: sorted, stable, idempotent *)

Section Ranking.

Context {A : Type}.
Variable score : A -> num.

Local Abbreviation tiedP k := (fun x => tied (score k) (score x) = true).

Lemma insert_by_perm (x : A) (l : list A) : insert_by score x l ≡ₚ x :: l.
Proof.
  induction l as [|y ys IH]; cbn; [done|].
  destruct (before (score y) (score x)); [| done].
  rewrite IH. apply Permutation_swap.
Qed.

Lemma sort_by_perm (l : list A) : sort_by score l ≡ₚ l.
Proof.
  induction l as [|x xs IH]; cbn; [done|].
  by rewrite insert_by_perm, IH.
Qed.

Lemma insert_by_ranked (x : A) (l : list A) :
  Forall (rankable score) l -> ranked score l -> ranked score (insert_by score x l).
Proof.
  induction l as [|y ys IH]; intros Hl Hs; cbn.
  - constructor; constructor.
  - apply Forall_cons in Hl as [Hy Hys].
    apply StronglySorted_inv in Hs as [Hs Hall].
    destruct (before (score y) (score x)) eqn:E.
    + constructor; [by apply IH |].
      rewrite insert_by_perm. constructor; [by apply before_asym | exact Hall].
    + constructor; [by constructor |].
      constructor; [exact E |].
      eapply Forall_impl; [exact Hall |].
      intros z Hz. cbn in Hz. by apply (before_neg_trans _ (score y)).
Qed.

Lemma sort_by_ranked (l : list A) :
  Forall (rankable score) l -> ranked score (sort_by score l).
Proof.
  induction l as [|x xs IH]; intros Hl; cbn; [constructor |].
  apply Forall_cons in Hl as [Hx Hxs].
  apply insert_by_ranked; [by rewrite sort_by_perm | by apply IH].
Qed.

(** Stability: the elements tied with [k] keep their order. *)
Lemma filter_insert_by (k x : A) (l : list A) :
  rankable score k ->
  filter (tiedP k) (insert_by score x l) = filter (tiedP k) (x :: l).
Proof.
  intros Hk. induction l as [|y ys IH]; cbn; [done|].
  destruct (before (score y) (score x)) eqn:E; [| done].
  rewrite (filter_cons _ y), IH, !filter_cons.
  destruct (decide (tied (score k) (score x) = true)) as [Hx | Hx]; [| done].
  destruct (decide (tied (score k) (score y) = true)) as [Hy | Hy]; [| done].
  apply tied_elim in Hx as [Hx _]. apply tied_elim in Hy as [_ Hy].
  pose proof (before_neg_trans _ _ _ Hk Hy Hx). congruence.
Qed.

Lemma filter_sort_by (k : A) (l : list A) :
  rankable score k -> filter (tiedP k) (sort_by score l) = filter (tiedP k) l.
Proof.
  intros Hk. induction l as [|x xs IH]; cbn; [done|].
  by rewrite filter_insert_by, !filter_cons, IH.
Qed.

Lemma tied_refl (k : A) : tied (score k) (score k) = true.
Proof. apply tied_intro; apply before_irrefl. Qed.

(** Two lists in ranking order with the same tied elements in the same
    order are the same list. *)
Lemma ranked_unique (l1 l2 : list A) :
  ranked score l1 -> ranked score l2 ->
  (forall k, k ∈ l1 ++ l2 -> filter (tiedP k) l1 = filter (tiedP k) l2) ->
  l1 = l2.
Proof.
  revert l2. induction l1 as [|x t1 IH]; intros [|y t2] H1 H2 Hf.
  - reflexivity.
  - specialize (Hf y (list_elem_of_here _ _)).
    rewrite filter_cons, decide_True in Hf by apply tied_refl. discriminate.
  - specialize (Hf x (list_elem_of_here _ _)).
    rewrite filter_cons, decide_True in Hf by apply tied_refl. discriminate.
  - apply StronglySorted_inv in H1 as [H1 Hx]. apply StronglySorted_inv in H2 as [H2 Hy].
    rewrite Forall_forall in Hx, Hy.
    pose proof (Hf x (list_elem_of_here _ _)) as Fx.
    assert (Fy : filter (tiedP y) (x :: t1) = filter (tiedP y) (y :: t2)).
    { apply Hf. apply elem_of_app. right. left. }
    assert (Hxy : tied (score x) (score y) = true).
    { destruct (tied (score x) (score y)) eqn:E; [reflexivity | exfalso].
      rewrite !filter_cons, decide_True, (decide_False (P := tied _ _ = true)) in Fx
        by (apply tied_refl || congruence).
      assert (E' : tied (score y) (score x) = false).
      { unfold tied in *. by rewrite andb_comm. }
      rewrite !filter_cons, (decide_True (P := tied (score y) (score y) = true)),
        (decide_False (P := tied (score y) (score x) = true)) in Fy
        by (apply tied_refl || congruence).
      assert (Hx2 : x ∈ t2).
      { eapply (list_elem_of_filter (tiedP x)). rewrite <- Fx. left. }
      assert (Hy1 : y ∈ t1).
      { eapply (list_elem_of_filter (tiedP y)). rewrite Fy. left. }
      apply Hy in Hx2. apply Hx in Hy1. cbn in Hx2, Hy1.
      rewrite (tied_intro _ _ Hx2 Hy1) in E. discriminate. }
    assert (x = y) as <-.
    { rewrite !filter_cons, decide_True, decide_True in Fx by (apply tied_refl || done).
      congruence. }
    f_equal. apply IH; try done.
    intros k Hk.
    assert (Hin : k ∈ (x :: t1) ++ x :: t2).
    { apply elem_of_app in Hk as [Hk | Hk]; apply elem_of_app; [left | right]; by right. }
    specialize (Hf k Hin). rewrite !filter_cons in Hf.
    destruct (decide (tied (score k) (score x) = true)); congruence.
Qed.

(** The rebuild puts the front elements before the appended ones. *)
Lemma resort_by_split (rest : list A) :
  forall (prev : A) (F B : list A),
    resort_by score prev rest (F ++ B) (length F)
    = F ++ fronts score prev rest ++ B ++ backs score prev rest.
Proof.
  induction rest as [|x r IH]; intros prev F B; cbn.
  - by rewrite app_nil_r.
  - destruct (same (score x) (score prev)).
    + rewrite <- (app_assoc F B [x]), IH. by rewrite <- !app_assoc.
    + unfold splice. rewrite take_app_length, drop_app_length.
      replace (F ++ x :: B) with ((F ++ [x]) ++ B) by (by rewrite <- app_assoc).
      replace (S (length F)) with (length (F ++ [x])) by (rewrite length_app; cbn; lia).
      rewrite IH. by rewrite <- !app_assoc.
Qed.

Lemma fronts_backs_perm (rest : list A) (prev : A) :
  fronts score prev rest ++ backs score prev rest ≡ₚ rest.
Proof.
  revert prev. induction rest as [|x r IH]; intros prev; cbn; [done|].
  destruct (same (score x) (score prev)).
  - rewrite <- Permutation_middle. by rewrite IH.
  - cbn. by rewrite IH.
Qed.

Lemma rank_by_unfold (l : list A) :
  rank_by score l =
  match sort_by score l with
  | [] => []
  | first :: rest => first :: fronts score first rest ++ backs score first rest
  end.
Proof.
  unfold rank_by. destruct (sort_by score l) as [|first rest]; [done|].
  pose proof (resort_by_split rest first [first] []) as E. cbn in E. by rewrite E.
Qed.

Lemma rank_by_perm (l : list A) : rank_by score l ≡ₚ l.
Proof.
  rewrite rank_by_unfold. rewrite <- (sort_by_perm l) at 2.
  destruct (sort_by score l) as [|first rest]; [done|].
  by rewrite fronts_backs_perm.
Qed.

(** On a list in ranking order, an appended element is never tied with a
    later front element: the elements tied with [k] keep their order. *)
Lemma filter_fronts_backs (k : A) (rest : list A) :
  rankable score k ->
  forall (prev : A) (B : list A),
    Forall (rankable score) (prev :: rest) ->
    ranked score (prev :: rest) ->
    Forall (fun b => (exists p, score b = Fin p)
                     /\ before (score prev) (score b) = false) B ->
    filter (tiedP k) (fronts score prev rest ++ B ++ backs score prev rest)
    = filter (tiedP k) B ++ filter (tiedP k) rest.
Proof.
  intros Hk. induction rest as [|x r IH]; intros prev B Hr Hs HB; cbn.
  - by rewrite !app_nil_r.
  - apply Forall_cons in Hr as [Hprev Hr]. pose proof Hr as Hxr.
    apply Forall_cons in Hr as [Hx Hr].
    apply StronglySorted_inv in Hs as [Hs Hall].
    apply Forall_cons in Hall as [Hpx _].
    assert (HB' : Forall (fun b => (exists p, score b = Fin p)
                                   /\ before (score x) (score b) = false) B).
    { eapply Forall_impl; [exact HB |]. intros b [Hfin Hb]. split; [exact Hfin |].
      by apply (before_neg_trans _ (score prev)). }
    destruct (same (score x) (score prev)) eqn:E.
    + replace (B ++ x :: backs score x r) with ((B ++ [x]) ++ backs score x r)
        by (by rewrite <- app_assoc).
      rewrite (IH x (B ++ [x]) Hxr Hs).
      * rewrite filter_app, <- app_assoc. f_equal.
        rewrite !filter_cons, filter_nil. by destruct (decide _).
      * apply Forall_app. split; [exact HB' |]. constructor; [| constructor].
        apply same_fin in E as (p & q & Hp & _). split; [by exists p |].
        apply before_irrefl.
    + cbn [app]. rewrite !filter_cons, (IH x B Hxr Hs HB').
      destruct (decide (tied (score k) (score x) = true)) as [Hkx | Hkx]; [| done].
      assert (Hnone : filter (tiedP k) B = []).
      { apply filter_none. intros b Hb Hkb.
        destruct (proj1 (Forall_forall _ _) HB b Hb) as [[p Hp] Hpb].
        apply tied_elim in Hkx as [Hkx1 Hkx2]. apply tied_elim in Hkb as [Hkb1 Hkb2].
        assert (before (score b) (score x) = false)
          by (by apply (before_neg_trans _ (score k))).
        assert (before (score x) (score b) = false)
          by (by apply (before_neg_trans _ (score k))).
        assert (before (score prev) (score x) = false)
          by (apply (before_neg_trans _ (score b)); [by rewrite Hp | done | done]).
        assert (Hbx : same (score b) (score x) = true).
        { rewrite Hp. apply tied_fin_same; [exact Hx |]. rewrite <- Hp. by apply tied_intro. }
        apply same_fin in Hbx as (? & q & _ & Hq & _).
        assert (same (score x) (score prev) = true); [| congruence].
        rewrite Hq. apply tied_fin_same; [exact Hprev |]. rewrite <- Hq. by apply tied_intro. }
      by rewrite Hnone.
Qed.

Lemma filter_rank_by (k : A) (l : list A) :
  rankable score k -> Forall (rankable score) l ->
  filter (tiedP k) (rank_by score l) = filter (tiedP k) (sort_by score l).
Proof.
  intros Hk Hl. rewrite rank_by_unfold.
  assert (Hs : ranked score (sort_by score l)) by (by apply sort_by_ranked).
  assert (Hr : Forall (rankable score) (sort_by score l)) by (by rewrite sort_by_perm).
  destruct (sort_by score l) as [|first rest]; [done|].
  rewrite !(filter_cons _ first).
  pose proof (filter_fronts_backs k rest Hk first [] Hr Hs (Forall_nil_2 _)) as H.
  cbn in H. rewrite H. done.
Qed.

(** Sorting a ranked list undoes the rebuild. *)
Lemma sort_by_rank_by (l : list A) :
  Forall (rankable score) l -> sort_by score (rank_by score l) = sort_by score l.
Proof.
  intros Hl.
  assert (Hr : Forall (rankable score) (rank_by score l)) by (by rewrite rank_by_perm).
  apply ranked_unique; [by apply sort_by_ranked | by apply sort_by_ranked |].
  intros k Hk.
  assert (rankable score k).
  { rewrite !sort_by_perm, rank_by_perm in Hk. rewrite Forall_forall in Hl.
    apply Hl. by apply elem_of_app in Hk as [Hk | Hk]. }
  by rewrite filter_sort_by, filter_rank_by.
Qed.

Lemma rank_by_idempotent (l : list A) :
  Forall (rankable score) l -> rank_by score (rank_by score l) = rank_by score l.
Proof.
  intros Hl. unfold rank_by at 1. rewrite sort_by_rank_by by exact Hl. reflexivity.
Qed.

End Ranking.

(** ** The ranking of [breedNewGeneration] *)

Lemma rankable_total (t : TraderWorker) :
  rankable total_score t <->
  exists f, getFitness t KTotal = Ok f /\ is_nan f = false.
Proof.
  unfold rankable, total_score. destruct (getFitness t KTotal) as [f | e].
  - split; [intros H; by exists f | intros (f' & [= <-] & H); exact H].
  - split; [discriminate | intros (f' & [=] & _)].
Qed.

Lemma getFitness_total_score (t : TraderWorker) :
  rankable total_score t -> getFitness t KTotal = Ok (total_score t).
Proof.
  unfold rankable, total_score. by destruct (getFitness t KTotal).
Qed.

Lemma byFitness_score (a b : TraderWorker) :
  rankable total_score a -> rankable total_score b ->
  byFitness a b = Ok (total_score b - total_score a)%num.
Proof.
  intros Ha Hb. unfold byFitness.
  by rewrite (getFitness_total_score a Ha), (getFitness_total_score b Hb).
Qed.

Lemma insert_sorted_pure (x : TraderWorker) (l : list TraderWorker) :
  rankable total_score x -> Forall (rankable total_score) l ->
  insert_sorted byFitness x l = Ok (insert_by total_score x l).
Proof.
  intros Hx. induction l as [|y ys IH]; intros Hl; cbn; [done|].
  apply Forall_cons in Hl as [Hy Hys].
  rewrite (byFitness_score y x Hy Hx). cbn. fold (before (total_score y) (total_score x)).
  destruct (before (total_score y) (total_score x)); [| done].
  by rewrite (IH Hys).
Qed.

Lemma js_sort_pure (l : list TraderWorker) :
  Forall (rankable total_score) l -> js_sort byFitness l = Ok (sort_by total_score l).
Proof.
  induction l as [|x xs IH]; intros Hl; cbn; [done|].
  apply Forall_cons in Hl as [Hx Hxs]. rewrite (IH Hxs). cbn.
  apply insert_sorted_pure; [exact Hx | by rewrite sort_by_perm].
Qed.

Lemma resort_pure (rest : list TraderWorker) :
  forall (prev : TraderWorker) (acc : list TraderWorker) (cur : nat),
    Forall (rankable total_score) (prev :: rest) ->
    resort prev rest acc cur = Ok (resort_by total_score prev rest acc cur).
Proof.
  induction rest as [|x r IH]; intros prev acc cur Hl; cbn; [done|].
  apply Forall_cons in Hl as [Hp Hl]. pose proof Hl as Hxr.
  apply Forall_cons in Hl as [Hx Hr].
  rewrite (getFitness_total_score x Hx), (getFitness_total_score prev Hp). cbn.
  fold (same (total_score x) (total_score prev)).
  destruct (same (total_score x) (total_score prev)); by apply IH.
Qed.

Lemma rank_pure (l : list TraderWorker) :
  Forall (rankable total_score) l -> rank l = Ok (rank_by total_score l).
Proof.
  intros Hl. unfold rank, rank_by. rewrite (js_sort_pure l Hl). cbn.
  assert (Hs : Forall (rankable total_score) (sort_by total_score l))
    by (by rewrite sort_by_perm).
  destruct (sort_by total_score l) as [|first rest]; [done|].
  by apply resort_pure.
Qed.




(** ** Sorting and ranking permute, whatever the scores *)

Section Permutations.

Context {A : Type}.
Variable cmp : A -> A -> res num.

Lemma insert_sorted_perm (x : A) (l r : list A) :
  insert_sorted cmp x l = Ok r -> r ≡ₚ x :: l.
Proof.
  revert r. induction l as [|y ys IH]; intros r; cbn.
  - by intros [= <-].
  - destruct (cmp y x) as [c|]; [cbn | discriminate].
    destruct (c <? Fin 0)%num.
    + destruct (insert_sorted cmp x ys) as [r'|]; [cbn | discriminate].
      intros [= <-]. rewrite (IH r' eq_refl). apply Permutation_swap.
    + by intros [= <-].
Qed.

Lemma js_sort_perm (l r : list A) : js_sort cmp l = Ok r -> r ≡ₚ l.
Proof.
  revert r. induction l as [|x xs IH]; intros r; cbn.
  - by intros [= <-].
  - destruct (js_sort cmp xs) as [s|]; [cbn | discriminate].
    intros E. apply insert_sorted_perm in E. by rewrite E, (IH s eq_refl).
Qed.

End Permutations.

Lemma splice_perm {A} (l : list A) (i : nat) (x : A) : splice l i x ≡ₚ x :: l.
Proof.
  unfold splice. rewrite <- Permutation_middle. by rewrite take_drop.
Qed.

Lemma resort_perm (rest : list TraderWorker) :
  forall (prev : TraderWorker) (acc r : list TraderWorker) (cur : nat),
    resort prev rest acc cur = Ok r -> r ≡ₚ acc ++ rest.
Proof.
  induction rest as [|x xs IH]; intros prev acc r cur; cbn.
  - intros [= <-]. by rewrite app_nil_r.
  - destruct (getFitness x KTotal) as [fi|]; [cbn | discriminate].
    destruct (getFitness prev KTotal) as [fp|]; [cbn | discriminate].
    destruct (fi - fp === Fin 0)%num; intros E; apply IH in E; rewrite E.
    + by rewrite <- app_assoc.
    + rewrite splice_perm. apply Permutation_middle.
Qed.

Lemma rank_perm (l r : list TraderWorker) : rank l = Ok r -> r ≡ₚ l.
Proof.
  unfold rank. destruct (js_sort byFitness l) as [s|] eqn:Es; [cbn | discriminate].
  apply js_sort_perm in Es. destruct s as [|first rest].
  - intros [= <-]. exact Es.
  - intros E. apply resort_perm in E. by rewrite E.
Qed.

(** ** Building a generation never rejects a configuration *)

Section Building.

Context `{rt : JsRuntime}.
Variable eng : Engine.
Variable rnd : nat -> Q.

Lemma randomBetween_returns (a b : num) (int : bool) (i : nat) :
  exists x, randomBetween rnd a b int i = Ok (x, S i).
Proof. unfold randomBetween. destruct int; eexists; reflexivity. Qed.

Lemma sample_returns (g : Gene) (i : nat) :
  exists v, sample rnd g i = Ok (v, S i).
Proof.
  unfold sample, pick. destruct (list_ g) as [l|].
  - destruct (randomBetween_returns (Fin 0) (of_nat (length l) - Fin 1)%num true i)
      as [x E].
    rewrite (bind_ok _ _ _ _ _ E). eexists. reflexivity.
  - destruct (randomBetween_returns (min g) (max g) (integer g) i) as [x E].
    rewrite (bind_ok _ _ _ _ _ E). eexists. reflexivity.
Qed.

Lemma randomIndiv_returns (tc : TraderConfig) (opts : GeneticOpts) (gen ind i : nat) :
  exists w j, randomIndiv eng rnd tc opts gen ind i = Ok (w, j).
Proof.
  unfold randomIndiv.
  destruct (forEach_invariant (fun _ : gmap string value => True)
              (fun g newOpts => v <- sample rnd g;; ret (<[key g := v]> newOpts))
              (genes opts)) with (s := stratOpts tc) (i := i) as (o & j & E & _).
  - intros g o k _ _. destruct (sample_returns g k) as [v Ev].
    rewrite (bind_ok _ _ _ _ _ Ev). by eexists _, _.
  - exact I.
  - rewrite (bind_ok _ _ _ _ _ E). by eexists _, _.
Qed.

Lemma makeGeneration_from_returns (fuel : nat) :
  forall (ind : nat) (tc : TraderConfig) (opts : GeneticOpts) (gen : nat)
         (acc : list TraderWorker) (i : nat),
  exists g j, makeGeneration_from eng rnd fuel ind tc opts gen acc i = Ok (g, j)
              /\ length g = length acc + fuel.
Proof.
  induction fuel as [|fuel IH]; intros ind tc opts gen acc i; cbn.
  - exists acc, i. split; [reflexivity | lia].
  - destruct (ind =? 0).
    + destruct (IH (S ind) tc opts gen
                  (acc ++ [createTraderWorker eng tc (worker_name tc gen ind)
                             (stratOpts tc) (opt_silent opts)]) i)
        as (g & j & E & Hlen).
      exists g, j. split; [exact E |]. rewrite Hlen, length_app. cbn. lia.
    + destruct (randomIndiv_returns tc opts gen ind i) as (w & k & Ew).
      destruct (IH (S ind) tc opts gen (acc ++ [w]) k) as (g & j & E & Hlen).
      exists g, j. rewrite (bind_ok _ _ _ _ _ Ew). split; [exact E |].
      rewrite Hlen, length_app. cbn. lia.
Qed.

(** Without genes every individual is the baseline. *)
Lemma makeGeneration_from_no_gene (fuel : nat) :
  forall (ind : nat) (tc : TraderConfig) (opts : GeneticOpts) (gen : nat)
         (acc : list TraderWorker) (i : nat),
    genes opts = [] ->
    makeGeneration_from eng rnd fuel ind tc opts gen acc i
    = Ok (acc ++ map (fun k => createTraderWorker eng tc (worker_name tc gen k)
                                 (stratOpts tc) (opt_silent opts))
                   (seq ind fuel), i).
Proof.
  induction fuel as [|fuel IH]; intros ind tc opts gen acc i Hg; cbn.
  - by rewrite app_nil_r.
  - assert (E : (if ind =? 0
                 then ret (createTraderWorker eng tc (worker_name tc gen ind)
                             (stratOpts tc) (opt_silent opts))
                 else randomIndiv eng rnd tc opts gen ind) i
                = Ok (createTraderWorker eng tc (worker_name tc gen ind)
                        (stratOpts tc) (opt_silent opts), i)).
    { destruct (ind =? 0); [reflexivity |]. unfold randomIndiv. by rewrite Hg. }
    rewrite (bind_ok _ _ _ _ _ E), (IH _ _ _ _ _ _ Hg). by rewrite <- app_assoc.
Qed.

Lemma length_slice0 {A} (l : list A) (e p : Z) :
  (p <= e)%Z -> (p <= Z.of_nat (length l))%Z ->
  (p <= Z.of_nat (length (slice0 l e)))%Z.
Proof.
  intros Hpe Hpl. unfold slice0.
  destruct (e <? 0)%Z eqn:E; rewrite length_take; lia.
Qed.

Lemma breedNewGeneration_all_elite (tc : TraderConfig)
    (previous ranked_ : list TraderWorker) (opts : GeneticOpts) (gen i : nat) :
  rank previous = Ok ranked_ ->
  (popSize opts <= elitism opts)%Z ->
  (popSize opts <= Z.of_nat (length previous))%Z ->
  breedNewGeneration eng rnd tc previous opts gen i
  = Ok (slice0 ranked_ (elitism opts), i).
Proof.
  intros Hr He Hp. unfold breedNewGeneration.
  assert (E : lift (rank previous) i = Ok (ranked_, i)) by (unfold lift; by rewrite Hr).
  rewrite (bind_ok _ _ _ _ _ E).
  pose proof (length_slice0 ranked_ (elitism opts) (popSize opts) He) as Hl.
  rewrite (Permutation_length (rank_perm _ _ Hr)) in Hl. specialize (Hl Hp).
  replace (Z.to_nat _) with 0 by lia. reflexivity.
Qed.

End Building.




(** ** Crossover *)

Section Crossover.

Context `{rt : JsRuntime}.
Variable eng : Engine.
Variable rnd : nat -> Q.
Hypothesis rnd_unit : unit_interval rnd.

Variable gs : list Gene.
Hypothesis gs_keys : NoDup (key <$> gs).
Hypothesis gs_wf : Forall (fun g => well_formed g = true) gs.

Variables optsA optsB : gmap string value.

Lemma crossing_start : crossing gs optsA optsB optsB.
Proof. split; [done | intros g _; by left]. Qed.

Lemma crossing_insert (o : gmap string value) (g : Gene) (v : value) :
  g ∈ gs -> crossing gs optsA optsB o -> crossed optsA optsB g v ->
  crossing gs optsA optsB (<[key g := v]> o).
Proof.
  intros Hg [Hout Hin] Hv. split.
  - intros k Hk. rewrite lookup_insert_ne; [by apply Hout |].
    intros <-. apply Hk. by apply list_elem_of_fmap_2.
  - intros g' Hg'. destruct (decide (key g = key g')) as [Hk | Hk].
    + rewrite <- (key_injective gs g g' gs_keys Hg Hg' Hk), get_insert. exact Hv.
    + rewrite get_insert_ne by exact Hk. by apply Hin.
Qed.

Lemma cross_gene_crossing (g : Gene) (o : gmap string value) (i : nat) :
  g ∈ gs -> crossing gs optsA optsB o ->
  exists o' j, cross_gene rnd optsA g o i = Ok (o', j) /\ crossing gs optsA optsB o'.
Proof.
  intros Hg Ho. unfold cross_gene.
  assert (Hwf : well_formed g = true)
    by (by apply (proj1 (Forall_forall _ _) gs_wf)).
  destruct (randomBetween_float rnd rnd_unit 0 1 i) as (q0 & E0 & _); [lra|].
  rewrite (bind_ok _ _ _ _ _ E0).
  destruct (Fin q0 <? Fin 0.5)%num; [| by exists o, (S i)].
  destruct (list_ g) as [l|] eqn:Hl.
  - unfold well_formed in Hwf. rewrite Hl in Hwf.
    apply negb_true_iff, bool_decide_eq_false in Hwf.
    destruct (pick_nonempty rnd rnd_unit l (S i) Hwf) as (s & E & Hs).
    exists (<[key g := VStr s]> o), (S (S i)). split.
    + rewrite (bind_ok _ _ _ _ _ E). reflexivity.
    + apply crossing_insert; try done. right. right. by eapply in_gene_list.
  - eexists _, _. split; [reflexivity |].
    apply crossing_insert; try done. right. by left.
Qed.

Lemma resample_gene_crossing (rate : num) (g : Gene) (o : gmap string value) (i : nat) :
  g ∈ gs -> crossing gs optsA optsB o ->
  exists o' j, resample_gene rnd rate g o i = Ok (o', j)
               /\ crossing gs optsA optsB o'.
Proof.
  intros Hg Ho. unfold resample_gene.
  assert (Hwf : well_formed g = true)
    by (by apply (proj1 (Forall_forall _ _) gs_wf)).
  destruct (randomBetween_float rnd rnd_unit 0 1 i) as (q0 & E0 & _); [lra|].
  rewrite (bind_ok _ _ _ _ _ E0).
  destruct (Fin q0 <=? rate)%num; [| by exists o, (S i)].
  destruct (sample_in_gene rnd rnd_unit g (S i) Hwf) as (v & E & Hv).
  exists (<[key g := v]> o), (S (S i)). split.
  - rewrite (bind_ok _ _ _ _ _ E). reflexivity.
  - apply crossing_insert; try done. right. by right.
Qed.

End Crossover.




(** ** One trial task *)

Section Task.

Context `{rt : JsRuntime}.
Variable eng : Engine.

Lemma same_settings_refl (c : TraderConfig) : same_settings c c.
Proof. by repeat split. Qed.

Lemma same_settings_trans (c1 c2 c3 : TraderConfig) :
  same_settings c1 c2 -> same_settings c2 c3 -> same_settings c1 c3.
Proof.
  intros (? & ? & ? & ?) (? & ? & ? & ?). repeat split; congruence.
Qed.

Lemma same_settings_cleared (c c' : TraderConfig) :
  same_settings c c' -> cleared c -> cleared c'.
Proof. intros (_ & _ & Ha & Hp) [? ?]. split; congruence. Qed.

(** An awaited call changes the engine and nothing else of the worker. *)
Lemma await_effect (p : phase) (r r' : run) (err : option exn) :
  await eng p r = (err, r') ->
  config (worker r') = config (worker r)
  /\ hasRunned (worker r') = hasRunned (worker r)
  /\ fitnesses (worker r') = fitnesses (worker r)
  /\ events r' = events r ++ [Called p (config (worker r))].
Proof.
  unfold await. destruct (method eng p (worker r)); intros [= <- <-]; by cbn.
Qed.

(** The loop body from any of its awaits on: one more record on success,
    none on failure; only calls on the worker's own configuration. *)
Lemma from_phase_effect (p : phase) (r r' : run) (err : option exn) :
  from_phase eng p r = (err, r') ->
  config (worker r') = config (worker r)
  /\ hasRunned (worker r') = hasRunned (worker r)
  /\ (exists calls_, events r' = events r ++ Called p (config (worker r)) :: calls_
                     /\ Forall (fun ev => exists q, ev = Called q (config (worker r)))
                          calls_)
  /\ match err with
     | None => exists f, real f
                         /\ fitnesses (worker r') = Some (recorded (worker r) ++ [f])
     | Some _ => fitnesses (worker r') = fitnesses (worker r)
     end.
Proof.
  assert (Hstop : forall r r' err, from_stop eng r = (err, r') ->
            config (worker r') = config (worker r)
            /\ hasRunned (worker r') = hasRunned (worker r)
            /\ events r' = events r ++ [Called AtStop (config (worker r))]
            /\ match err with
               | None => exists f, real f
                           /\ fitnesses (worker r') = Some (recorded (worker r) ++ [f])
               | Some _ => fitnesses (worker r') = fitnesses (worker r)
               end).
  { clear. intros r r' err. unfold from_stop.
    destruct (await eng AtStop r) as [[e|] r1] eqn:E1;
      apply await_effect in E1 as (Hc & Hh & Hf & He).
    - by intros [= <- <-].
    - destruct (calcFitness (worker r1)) as [f|e] eqn:Ef; intros [= <- <-]; cbn.
      + repeat split; try done. exists f. split; [by exists (worker r1) |].
        unfold recorded. by rewrite Hf.
      + done. }
  assert (Hstart : forall r r' err, from_start eng r = (err, r') ->
            config (worker r') = config (worker r)
            /\ hasRunned (worker r') = hasRunned (worker r)
            /\ (exists calls_,
                   events r' = events r ++ Called AtStart (config (worker r)) :: calls_
                   /\ Forall (fun ev => exists q, ev = Called q (config (worker r)))
                        calls_)
            /\ match err with
               | None => exists f, real f
                           /\ fitnesses (worker r') = Some (recorded (worker r) ++ [f])
               | Some _ => fitnesses (worker r') = fitnesses (worker r)
               end).
  { clear - Hstop. intros r r' err. unfold from_start.
    destruct (await eng AtStart r) as [[e|] r1] eqn:E1;
      apply await_effect in E1 as (Hc & Hh & Hf & He).
    - intros [= <- <-]. repeat split; try done. exists []. by rewrite He.
    - intros E2. apply Hstop in E2 as (Hc2 & Hh2 & He2 & Hf2).
      split; [congruence |]. split; [congruence |]. split.
      + exists [Called AtStop (config (worker r))]. split.
        * rewrite He2, He, Hc, <- app_assoc. reflexivity.
        * repeat constructor. by eexists.
      + unfold recorded in *. rewrite Hf in Hf2. exact Hf2. }
  destruct p; cbn [from_phase].
  - unfold from_init.
    destruct (await eng AtInit r) as [[e|] r1] eqn:E1;
      apply await_effect in E1 as (Hc & Hh & Hf & He).
    + intros [= <- <-]. repeat split; try done. exists []. by rewrite He.
    + intros E2. apply Hstart in E2 as (Hc2 & Hh2 & (cs & He2 & Hcs) & Hf2).
      split; [congruence |]. split; [congruence |]. split.
      * exists (Called AtStart (config (worker r)) :: cs). split.
        -- rewrite He2, He, Hc, <- app_assoc. reflexivity.
        -- rewrite Hc in Hcs. constructor; [by eexists | exact Hcs].
      * unfold recorded in *. rewrite Hf in Hf2. exact Hf2.
  - apply Hstart.
  - intros E. apply Hstop in E as (Hc & Hh & He & Hf).
    repeat split; try done. exists []. by rewrite He.
Qed.

Lemma from_init_effect (r r' : run) (err : option exn) :
  from_init eng r = (err, r') ->
  config (worker r') = config (worker r)
  /\ hasRunned (worker r') = hasRunned (worker r)
  /\ (exists calls_, events r' = events r ++ Called AtInit (config (worker r)) :: calls_
                     /\ Forall (fun ev => exists q, ev = Called q (config (worker r)))
                          calls_)
  /\ match err with
     | None => exists f, real f
                         /\ fitnesses (worker r') = Some (recorded (worker r) ++ [f])
     | Some _ => fitnesses (worker r') = fitnesses (worker r)
     end.
Proof. apply (from_phase_effect AtInit). Qed.

Lemma set_backtest_settings (t : TraderWorker) (i : nat) (e : Backtest) :
  same_settings (config t) (config (set_backtest t i e)).
Proof. by repeat split. Qed.

(** The loop over the environments: the records of the environments gone
    through are appended, in order; a failure leaves fewer records than
    there are environments. *)
Lemma env_loop_effect (envs_ : list Backtest) :
  forall (i : nat) (r r' : run) (err : option exn),
    env_loop eng i envs_ r = (err, r') ->
    same_settings (config (worker r)) (config (worker r'))
    /\ hasRunned (worker r') = hasRunned (worker r)
    /\ (exists evs,
          events r' = events r ++ evs
          /\ Forall (fun ev => exists q c, ev = Called q c
                                /\ same_settings (config (worker r)) c) evs
          /\ (envs_ <> [] -> exists c rest, evs = Called AtInit c :: rest))
    /\ (exists fs,
          Forall real fs
          /\ recorded (worker r') = recorded (worker r) ++ fs
          /\ (fs <> [] -> fitnesses (worker r') = Some (recorded (worker r) ++ fs))
          /\ (fs = [] -> fitnesses (worker r') = fitnesses (worker r))
          /\ match err with
             | None => length fs = length envs_
             | Some _ => length fs < length envs_
             end).
Proof.
  induction envs_ as [|e rest IH]; intros i r r' err; cbn [env_loop].
  - intros [= <- <-]. split; [apply same_settings_refl |]. split; [done |]. split.
    + exists []. rewrite app_nil_r. by repeat split.
    + exists []. rewrite app_nil_r. by repeat split.
  - unfold one_env.
    destruct (from_init eng (mkRun (set_backtest (worker r) i e) (events r)))
      as [[e1|] r1] eqn:E1;
      apply from_init_effect in E1 as (Hc & Hh & (cs & He & Hcs) & Hf);
      cbn [worker events] in *.
    + intros [= <- <-]. split; [rewrite Hc; apply set_backtest_settings |].
      split; [exact Hh |]. split.
      * eexists. split; [exact He |]. split; [| by eexists _, _].
        constructor; [eexists _, _; split; [done | apply set_backtest_settings] |].
        eapply Forall_impl; [exact Hcs |]. intros ev [q ->].
        eexists _, _. split; [done | apply set_backtest_settings].
      * exists []. rewrite app_nil_r. split; [constructor |].
        split; [unfold recorded; by rewrite Hf |]. split; [done |].
        split; [by intros _ |]. cbn. lia.
    + intros E2. apply IH in E2 as (Hc2 & Hh2 & (evs & He2 & Hevs & _) & Hrec).
      assert (Hs : same_settings (config (worker r)) (config (worker r1)))
        by (rewrite Hc; apply set_backtest_settings).
      split; [by eapply same_settings_trans |].
      split; [by rewrite Hh2, Hh |]. split.
      * exists ((Called AtInit (config (set_backtest (worker r) i e)) :: cs) ++ evs).
        split; [rewrite He2, He; by rewrite <- app_assoc |]. split; [| by eexists _, _].
        apply Forall_app. split.
        -- constructor; [eexists _, _; split; [done | apply set_backtest_settings] |].
           eapply Forall_impl; [exact Hcs |]. intros ev [q ->].
           eexists _, _. split; [done | apply set_backtest_settings].
        -- eapply Forall_impl; [exact Hevs |]. intros ev (q & c & -> & Hqc).
           eexists _, _. split; [done | by eapply same_settings_trans].
      * destruct Hf as (f & Hreal & Hf).
        assert (Hr1 : recorded (worker r1) = recorded (worker r) ++ [f])
          by (unfold recorded at 1; by rewrite Hf).
        destruct Hrec as (fs & Hfs & Hrec & Hne & Hnil & Hlen).
        exists (f :: fs). split; [by constructor |].
        split; [rewrite Hrec, Hr1; by rewrite <- app_assoc |].
        split; [| split; [done |]].
        -- intros _. destruct fs as [|f' fs'].
           ++ rewrite (Hnil eq_refl). exact Hf.
           ++ rewrite (Hne ltac:(done)), Hr1. by rewrite <- app_assoc.
        -- destruct err; cbn; lia.
Qed.

(** The [catch] block: one sentinel; a stop when the engine is not
    stopped, whose own error is logged; the rejection, logged by the
    [.catch] of the queued task. *)
Lemma on_error_effect (err : exn) (r r' : run) (s : settled) :
  on_error eng err r = (s, r') ->
  s = Rejected err
  /\ config (worker r') = config (worker r)
  /\ hasRunned (worker r') = hasRunned (worker r)
  /\ fitnesses (worker r') = Some (recorded (worker r) ++ [sentinel])
  /\ match status (trader (worker r)) with
     | STOP => events r' = events r ++ [Logged err]
     | NotStopped _ =>
         events r' = events r ++ [Called AtStop (config (worker r)); Logged err]
         \/ exists e', events r' = events r ++ [Called AtStop (config (worker r));
                                                Logged e'; Logged err]
     end.
Proof.
  unfold on_error, reject, best_effort_stop, await. cbn [worker events].
  change (trader (push_fitness (worker r) sentinel)) with (trader (worker r)).
  destruct (status (trader (worker r))).
  - intros [= <- <-]. by cbn.
  - destruct (method eng AtStop (push_fitness (worker r) sentinel));
      intros [= <- <-]; cbn; repeat split; rewrite <- ?app_assoc; eauto.
Qed.

Lemma set_hasRunned_same (t : TraderWorker) : hasRunned t = true -> set_hasRunned t true = t.
Proof. destruct t; cbn. by intros ->. Qed.

(** A fulfilled task: an individual that had run is left as it was and the
    engine is not called; one that had not holds one more record per
    environment. *)
Lemma task_fulfilled (envs_ : list Backtest) (t : TraderWorker) (r : run) :
  task eng envs_ t = (Fulfilled, r) ->
  hasRunned (worker r) = true
  /\ same_settings (config t) (config (worker r))
  /\ (hasRunned t = true -> worker r = t /\ events r = [])
  /\ (hasRunned t = false ->
      exists fs, Forall real fs /\ length fs = length envs_
                 /\ recorded (worker r) = recorded t ++ fs).
Proof.
  unfold task, task_from. cbn [worker]. destruct (hasRunned t) eqn:Hh.
  - cbn. intros [= <-]. cbn. split; [done |]. split; [apply same_settings_refl |].
    split; [| done]. intros _. split; [by apply set_hasRunned_same | done].
  - destruct (env_loop eng 0 envs_ (mkRun t [])) as [[e|] r1] eqn:E; cbn [settle].
    + intros H. apply on_error_effect in H as [[=] _].
    + intros [= <-]. cbn.
      apply env_loop_effect in E as (Hc & _ & _ & fs & Hfs & Hrec & _ & _ & Hlen).
      split; [done |]. split; [exact Hc |]. split; [done |]. intros _. by exists fs.
Qed.

(** A rejected task: the individual had not run and is not marked as run;
    it holds the records of the environments gone through before the
    failure, fewer than there are environments, and one sentinel. *)
Lemma task_rejected (envs_ : list Backtest) (t : TraderWorker) (r : run) (e : exn) :
  task eng envs_ t = (Rejected e, r) ->
  hasRunned t = false /\ hasRunned (worker r) = false
  /\ same_settings (config t) (config (worker r))
  /\ exists fs, Forall real fs /\ length fs < length envs_
                /\ fitnesses (worker r) = Some (recorded t ++ fs ++ [sentinel]).
Proof.
  unfold task, task_from. cbn [worker]. destruct (hasRunned t) eqn:Hh; [by cbn |].
  destruct (env_loop eng 0 envs_ (mkRun t [])) as [[e1|] r1] eqn:E; cbn [settle];
    [| by intros [=]].
  intros H. apply on_error_effect in H as (_ & Hc & Hh1 & Hf & _).
  apply env_loop_effect in E as (Hc1 & Hh2 & _ & fs & Hfs & Hrec & _ & _ & Hlen).
  cbn [worker] in *. split; [done |]. split; [congruence |].
  split; [by rewrite Hc |]. exists fs. split; [done |]. split; [done |].
  by rewrite Hf, Hrec, <- app_assoc.
Qed.

(** A task on an individual that has not run calls [init] first and leaves
    at least one more record, when there is an environment. *)
Lemma task_runs (envs_ : list Backtest) (t : TraderWorker) (r : run) (s : settled) :
  hasRunned t = false -> envs_ <> [] -> task eng envs_ t = (s, r) ->
  (exists c rest, events r = Called AtInit c :: rest)
  /\ exists more, more <> [] /\ fitnesses (worker r) = Some (recorded t ++ more).
Proof.
  intros Hh Hne. unfold task, task_from. cbn [worker]. rewrite Hh.
  destruct (env_loop eng 0 envs_ (mkRun t [])) as [[e1|] r1] eqn:E; cbn [settle];
    apply env_loop_effect in E
      as (_ & _ & (evs & Hev & _ & Hinit) & fs & _ & Hrec & Hsome & _ & Hlen);
    destruct (Hinit Hne) as (c & rest & ->); cbn [worker events] in *.
  - intros H. apply on_error_effect in H as (_ & _ & _ & Hf & Hevs). split.
    + destruct (status (trader (worker r1))); [| destruct Hevs as [Hevs | [e' Hevs]]];
        rewrite Hevs, Hev; by eexists _, _.
    + exists (fs ++ [sentinel]). split; [by destruct fs |].
      by rewrite Hf, Hrec, <- app_assoc.
  - intros [= <- <-]. cbn. split; [rewrite Hev; by eexists _, _ |].
    exists fs. assert (fs <> []) by (destruct fs, envs_; cbn in *; try done; lia).
    split; [done |]. by apply Hsome.
Qed.

End Task.

(** C9.  A rejected task leaves its individual unmarked ([hasRunned] was and
    stays false) with the records it had, then the records of the
    environments gone through before the failure (fewer than there are
    environments), then exactly one sentinel; run again on any non-empty
    list of environments, the individual is handed to the engine again and
    gets further records appended. *)
Theorem failed_task_keeps_partial_records `{rt : JsRuntime} (eng : Engine)
    (envs_ : list Backtest) (t : TraderWorker) (e : exn) (r : run) :
  task eng envs_ t = (Rejected e, r) ->
  hasRunned t = false /\ hasRunned (worker r) = false
  /\ (exists fs, Forall real fs /\ length fs < length envs_
                 /\ fitnesses (worker r) = Some (recorded t ++ fs ++ [sentinel]))
  /\ (forall later s' r',
        later <> [] -> task eng later (worker r) = (s', r') ->
        (exists c rest, events r' = Called AtInit c :: rest)
        /\ exists more, more <> []
                        /\ fitnesses (worker r') = Some (recorded (worker r) ++ more)).
Proof.
  intros H. pose proof (task_rejected eng envs_ t r e H) as (Ht & Hr & _ & Hfs).
  split; [done |]. split; [done |]. split; [done |].
  intros later s' r' Hne H'. by eapply task_runs.
Qed.

Lemma failed_task_keeps_partial_records_witness :
  (hasRunned (new_worker "ema-gen0-ind1") = false
   /\ hasRunned (worker failed_run) = false
   /\ (exists fs, Forall (real (rt := example_runtime)) fs
                  /\ length fs < length three_windows
                  /\ fitnesses (worker failed_run)
                     = Some (recorded (new_worker "ema-gen0-ind1") ++ fs ++ [sentinel]))
   /\ (forall later s' r',
         later <> [] ->
         task (rt := example_runtime) flaky_engine later (worker failed_run) = (s', r') ->
         (exists c rest, events r' = Called AtInit c :: rest)
         /\ exists more, more <> []
                         /\ fitnesses (worker r')
                            = Some (recorded (worker failed_run) ++ more)))
  /\ length (recorded (worker failed_run)) = 2
  /\ calls failed_run = [AtInit; AtStart; AtStop; AtInit; AtStart; AtStop].
Proof.
  split; [| split; vm_compute; reflexivity].
  apply (failed_task_keeps_partial_records (rt := example_runtime) flaky_engine
           three_windows (new_worker "ema-gen0-ind1") (Error "simulation fault")
           failed_run).
  vm_compute. reflexivity.
Defined.

(** ** The worker pool *)

Section Pool.

Context `{rt : JsRuntime}.
Variable eng : Engine.
Variable envs_ : list Backtest.

Lemma finish_fail (err : exn) (r : run) :
  finish eng envs_ (fail err r) = on_error eng err r.
Proof.
  unfold fail, on_error, finish. cbn [worker events].
  destruct (status (trader (push_fitness (worker r) sentinel))); reflexivity.
Qed.

Lemma finish_enter (i : nat) (rest : list Backtest) (r : run) :
  finish eng envs_ (enter i rest r) = settle eng (env_loop eng i rest r).
Proof. destruct rest; reflexivity. Qed.

(** Resuming a task does not change what it settles to. *)
Lemma finish_advance (s : slot) :
  finish eng envs_ (advance eng envs_ s) = finish eng envs_ s.
Proof.
  destruct s as [st r]. unfold advance. cbn [state job].
  destruct st as [|i rest [| |]|err|x].
  - unfold finish at 2, task_from. cbn [state job].
    destruct (hasRunned (worker r)); [reflexivity | apply finish_enter].
  - unfold finish at 2. cbn [state job from_phase]. unfold from_init.
    destruct (await eng AtInit r) as [[err|] r1]; [apply finish_fail | reflexivity].
  - unfold finish at 2. cbn [state job from_phase]. unfold from_start.
    destruct (await eng AtStart r) as [[err|] r1]; [apply finish_fail | reflexivity].
  - unfold finish at 2. cbn [state job from_phase]. unfold from_stop.
    destruct (await eng AtStop r) as [[err|] r1]; [apply finish_fail |].
    destruct (calcFitness (worker r1)); [apply finish_enter | apply finish_fail].
  - reflexivity.
  - reflexivity.
Qed.

Lemma finish_submit (g : list TraderWorker) :
  map (finish eng envs_) (submit g) = run_generation eng envs_ g.
Proof. unfold submit, run_generation. rewrite map_map. reflexivity. Qed.

Lemma pool_step_finish (c : nat) (p q : list slot) :
  pool_step eng c envs_ p q -> map (finish eng envs_) q = map (finish eng envs_) p.
Proof.
  intros [before s after _ _ _ | before s after _];
    by rewrite !map_app, !map_cons, finish_advance.
Qed.

Lemma pool_steps_finish (c : nat) (p q : list slot) :
  pool_steps eng c envs_ p q -> map (finish eng envs_) q = map (finish eng envs_) p.
Proof.
  induction 1 as [p | p q r Hstep _ IH]; [reflexivity |].
  rewrite IH. by eapply pool_step_finish.
Qed.

Lemma idle_outcomes (p : list slot) :
  idle p -> map outcome_of p = map (fun s => Some (finish eng envs_ s)) p.
Proof.
  induction 1 as [|s p Hs _ IH]; [reflexivity |]. cbn. rewrite IH. f_equal.
  unfold outcome_of, finish. destruct s as [[| | |x] r]; try discriminate. reflexivity.
Qed.

(** Whatever the order in which the pool resumes the tasks, an idle pool
    holds for every individual what its task settles to on its own. *)
Lemma pool_idle_results (c : nat) (g : list TraderWorker) (p : list slot) :
  pool_steps eng c envs_ (submit g) p -> idle p ->
  map outcome_of p = map Some (run_generation eng envs_ g).
Proof.
  intros Hsteps Hidle. rewrite (idle_outcomes p Hidle).
  rewrite <- finish_submit, <- (pool_steps_finish c _ _ Hsteps).
  by rewrite map_map.
Qed.

Lemma running_app (p q : list slot) : running (p ++ q) = running p + running q.
Proof. unfold running. by rewrite filter_app, length_app. Qed.

Lemma running_cons (s : slot) (p : list slot) :
  running (s :: p) = (if is_running s then 1 else 0) + running p.
Proof.
  unfold running. rewrite filter_cons. by destruct (is_running s).
Qed.

(** At most [concurrency] tasks run at any time. *)
Lemma pool_step_bound (c : nat) (p q : list slot) :
  pool_step eng c envs_ p q -> running p <= c -> running q <= c.
Proof.
  intros [before s after Hq _ Hlt | before s after Hr];
    rewrite running_app, running_cons; rewrite running_app, running_cons in *.
  - assert (Hs : is_running s = false) by (unfold is_running; by rewrite Hq).
    rewrite Hs in Hlt. destruct (is_running (advance eng envs_ s)); lia.
  - rewrite Hr. destruct (is_running (advance eng envs_ s)); lia.
Qed.

Lemma pool_steps_bound (c : nat) (p q : list slot) :
  pool_steps eng c envs_ p q -> running p <= c -> running q <= c.
Proof.
  induction 1 as [p | p q r Hstep _ IH]; [done |].
  intros Hp. apply IH. by eapply pool_step_bound.
Qed.

Lemma running_submit (g : list TraderWorker) : running (submit g) = 0.
Proof.
  unfold submit. induction g as [|t g IH]; [done |].
  rewrite map_cons, running_cons. exact IH.
Qed.

(** Every resumption brings a task closer to its end. *)
Lemma weight_fail (err : exn) (r : run) : weight envs_ (fail err r) <= 1.
Proof.
  unfold fail. cbn [worker events].
  destruct (status (trader (push_fitness (worker r) sentinel))); cbn; lia.
Qed.

Lemma weight_enter (i : nat) (rest : list Backtest) (r : run) :
  weight envs_ (enter i rest r) < 3 * length rest + 2.
Proof. destruct rest; cbn; lia. Qed.

Lemma weight_advance (s : slot) :
  is_settled s = false -> weight envs_ (advance eng envs_ s) < weight envs_ s.
Proof.
  destruct s as [st r]. unfold advance, is_settled. cbn [state job].
  destruct st as [|i rest [| |]|err|x]; intros Hs; try discriminate.
  - destruct (hasRunned (worker r)); [cbn; lia | apply weight_enter].
  - destruct (await eng AtInit r) as [[err|] r1];
      [pose proof (weight_fail err r1) |]; cbn in *; lia.
  - destruct (await eng AtStart r) as [[err|] r1];
      [pose proof (weight_fail err r1) |]; cbn in *; lia.
  - destruct (await eng AtStop r) as [[err|] r1];
      [pose proof (weight_fail err r1); cbn in *; lia |].
    destruct (calcFitness (worker r1)) as [f|err];
      [apply weight_enter | pose proof (weight_fail err r1); cbn in *; lia].
  - cbn. lia.
Qed.

Lemma total_weight_cons (s : slot) (p : list slot) :
  total_weight envs_ (s :: p) = weight envs_ s + total_weight envs_ p.
Proof. reflexivity. Qed.

Lemma total_weight_app (p q : list slot) :
  total_weight envs_ (p ++ q) = total_weight envs_ p + total_weight envs_ q.
Proof.
  induction p as [|s p IH]; [reflexivity |].
  cbn [app]. rewrite !total_weight_cons, IH. lia.
Qed.

Lemma pool_step_weight (c : nat) (p q : list slot) :
  pool_step eng c envs_ p q -> total_weight envs_ q < total_weight envs_ p.
Proof.
  intros [before s after Hq _ _ | before s after Hr];
    rewrite !total_weight_app, !total_weight_cons;
    (assert (Hs : is_settled s = false);
     [unfold is_settled, is_running in *; destruct (state s); congruence |]);
    pose proof (weight_advance s Hs); lia.
Qed.

Lemma idle_running (p : list slot) : idle p -> running p = 0.
Proof.
  induction 1 as [|x l Hx _ IHl]; [done |].
  rewrite running_cons, IHl. unfold is_settled, is_running in *.
  by destruct (state x).
Qed.

(** A pool that is not idle can make a step: a running task resumes, or,
    when none runs, the first queued task starts. *)
Lemma pool_progress (c : nat) (p : list slot) :
  1 <= c -> running p <= c -> ~ idle p -> exists q, pool_step eng c envs_ p q.
Proof.
  intros Hc Hrun Hidle.
  assert (Hcases :
    idle p
    \/ (exists before s after, p = before ++ s :: after /\ is_running s = true)
    \/ (running p = 0
        /\ exists before s after, p = before ++ s :: after /\ state s = Queued
             /\ Forall (fun s' => is_queued s' = false) before)).
  { clear. induction p as [|s p IH]; [left; constructor |].
    destruct (is_running s) eqn:Hr; [right; left; by exists [], s, p |].
    destruct IH as [IH | [(b & s' & a & -> & Hs') | (H0 & b & s' & a & -> & Hs' & Hb)]].
    - destruct (state s) eqn:Hst; try (unfold is_running in Hr; rewrite Hst in Hr;
                                       discriminate).
      + right. right. split; [by rewrite running_cons, Hr, idle_running |].
        exists [], s, p. split; [done |]. split; [done | constructor].
      + left. constructor; [unfold is_settled; by rewrite Hst | exact IH].
    - right. left. by exists (s :: b), s', a.
    - destruct (state s) eqn:Hst; try (unfold is_running in Hr; rewrite Hst in Hr;
                                       discriminate).
      + right. right. split; [by rewrite running_cons, Hr |].
        exists [], s, (b ++ s' :: a). split; [done |]. split; [done | constructor].
      + right. right. split; [by rewrite running_cons, Hr |].
        exists (s :: b), s', a. split; [done |]. split; [done |].
        constructor; [unfold is_queued; by rewrite Hst | exact Hb]. }
  destruct Hcases as [H | [(b & s & a & -> & Hs) | (H0 & b & s & a & -> & Hs & Hb)]].
  - contradiction.
  - eexists. by apply step_resume.
  - eexists. apply step_start; [done | done | lia].
Qed.

(** The pool reaches idle. *)
Lemma pool_reaches_idle (c : nat) :
  1 <= c ->
  forall (n : nat) (p : list slot),
    total_weight envs_ p <= n -> running p <= c ->
    exists q, pool_steps eng c envs_ p q /\ idle q.
Proof.
  intros Hc. induction n as [|n IH]; intros p Hw Hrun.
  - exists p. split; [constructor |].
    clear Hrun. induction p as [|s p IHp]; [constructor |].
    rewrite total_weight_cons in Hw. constructor; [| apply IHp; lia].
    unfold weight, is_settled in *.
    destruct (state s) as [| ? ? [| |] | |]; first [lia | done].
  - assert (Hdec : idle p \/ ~ idle p).
    { clear. induction p as [|s p [IHp | IHp]].
      - left. constructor.
      - destruct (is_settled s) eqn:Hs; [left; by constructor |].
        right. intros H. inversion H; congruence.
      - right. intros H. inversion H; subst. contradiction. }
    destruct Hdec as [Hidle | Hbusy]; [exists p; split; [constructor | done] |].
    destruct (pool_progress c p Hc Hrun Hbusy) as [q Hstep].
    destruct (IH q) as (r & Hsteps & Hr).
    + pose proof (pool_step_weight c p q Hstep). lia.
    + by eapply pool_step_bound.
    + exists r. split; [by econstructor | done].
Qed.

End Pool.

(** ** After the pool is idle: records, display sort, checkpoint *)

Lemma getFitness_defined (t : TraderWorker) (k : metric) (l : list Fitness) :
  fitnesses t = Some l ->
  getFitness t k
  = Ok (fold_left (fun sum f => sum + fitness_get f k) l (Fin 0) / of_nat (length l))%num.
Proof. intros E. unfold getFitness. by rewrite E. Qed.

Lemma byFitness_returns (a b : TraderWorker) :
  has_records a -> has_records b -> exists c, byFitness a b = Ok c.
Proof.
  intros (la & Ha & _) (lb & Hb & _). unfold byFitness.
  rewrite (getFitness_defined a KTotal la Ha), (getFitness_defined b KTotal lb Hb).
  by eexists.
Qed.

Lemma insert_sorted_returns (x : TraderWorker) (l : list TraderWorker) :
  Forall has_records (x :: l) -> exists r, insert_sorted byFitness x l = Ok r.
Proof.
  intros Hall. apply Forall_cons in Hall as [Hx Hl].
  induction l as [|y ys IH]; cbn; [by eexists |].
  apply Forall_cons in Hl as [Hy Hys].
  destruct (byFitness_returns y x Hy Hx) as [c ->]. cbn.
  destruct (c <? Fin 0)%num; [| by eexists].
  destruct (IH Hys) as [r ->]. by eexists.
Qed.

Lemma js_sort_returns (l : list TraderWorker) :
  Forall has_records l -> exists s, js_sort byFitness l = Ok s /\ s ≡ₚ l.
Proof.
  induction l as [|x xs IH]; intros Hl; [by exists [] |].
  apply Forall_cons in Hl as [Hx Hxs]. destruct (IH Hxs) as (s & Es & Hs).
  cbn. rewrite Es. cbn.
  destruct (insert_sorted_returns x s) as [r Er]; [constructor; [done | by rewrite Hs] |].
  exists r. split; [exact Er |].
  apply insert_sorted_perm in Er. by rewrite Er, Hs.
Qed.

Lemma mapM_returns {A B} (f : A -> res B) (l : list A) :
  Forall (fun x => exists y, f x = Ok y) l ->
  exists ys, mapM f l = Ok ys /\ length ys = length l.
Proof.
  induction 1 as [|x xs [y Hy] _ (ys & IH & Hlen)]; [by exists [] |].
  exists (y :: ys). cbn. rewrite Hy, IH. cbn. by rewrite Hlen.
Qed.

(** The display sort and the checkpoint succeed on a non-empty generation
    whose individuals all hold records; the file lists every individual. *)
Lemma checkpoint_returns (ws : list TraderWorker) :
  ws <> [] -> Forall has_records ws ->
  exists g ck, checkpoint ws = Ok (g, ck) /\ g ≡ₚ ws
               /\ ck_gen ck = map (fun t => (name (config t), fitnesses t,
                                             stratOpts (config t))) g.
Proof.
  intros Hne Hall. unfold checkpoint.
  destruct (js_sort_returns ws Hall) as (g & -> & Hg). cbn.
  assert (Hgall : Forall has_records g) by (by rewrite Hg).
  destruct (mapM_returns (fun t => getFitness t KTotal) g) as (fits & -> & Hlen).
  { eapply Forall_impl; [exact Hgall |]. intros t (l & Hl & _).
    rewrite (getFitness_defined t _ l Hl). by eexists. }
  cbn.
  destruct (mapM_returns (fun t =>
              _ <-? getFitness t KTotal;
              _ <-? getFitness t KCurrentProfit;
              _ <-? getFitness t KPercentTradeWin;
              _ <-? getFitness t KSharpeRatio;
              getFitness t KTradeFrequency) g) as (logs & -> & _).
  { eapply Forall_impl; [exact Hgall |]. intros t (l & Hl & _).
    rewrite !(getFitness_defined t _ l Hl). cbn. by eexists. }
  cbn. destruct fits as [|f fits].
  - exfalso. apply Hne. apply Permutation_length in Hg.
    destruct g, ws; cbn in *; try done; lia.
  - cbn. by eexists _, _.
Qed.

Section AfterIdle.

Context `{rt : JsRuntime}.
Variable eng : Engine.

(** With an environment to run, a task leaves records on every individual
    that held some whenever it was marked as run. *)
Lemma task_has_records (envs_ : list Backtest) (t : TraderWorker) :
  envs_ <> [] -> evaluated t -> has_records (worker (snd (task eng envs_ t))).
Proof.
  intros Hne Hev. destruct (task eng envs_ t) as [s r] eqn:E. cbn.
  destruct (hasRunned t) eqn:Hh.
  - destruct s as [|e]; [| by apply task_rejected in E as [? _]; congruence].
    apply task_fulfilled in E as (_ & _ & Hsame & _).
    destruct (Hsame Hh) as [Hw _]. rewrite Hw.
    specialize (Hev Hh). unfold recorded in Hev. unfold has_records.
    destruct (fitnesses t) as [l|]; cbn in Hev; [exists l; by split | done].
  - apply task_runs in E as [_ (more & Hmore & Hf)]; try done.
    eexists. split; [exact Hf |]. by destruct (recorded t), more.
Qed.

Lemma has_records_evaluated (t : TraderWorker) : has_records t -> evaluated t.
Proof. intros (l & Hl & Hne) _. unfold recorded. by rewrite Hl. Qed.

Lemma run_generation_has_records (envs_ : list Backtest) (g : list TraderWorker) :
  envs_ <> [] -> Forall evaluated g ->
  Forall has_records (workers (run_generation eng envs_ g)).
Proof.
  intros Hne Hg. unfold workers, run_generation. rewrite map_map.
  apply Forall_map. eapply Forall_impl; [exact Hg |].
  intros t Ht. by apply task_has_records.
Qed.

End AfterIdle.



(** ** What a generation is made of *)

Lemma bind_inv {A B} (m : Gen A) (k : A -> Gen B) (i j : nat) (b : B) :
  (x <- m;; k x) i = Ok (b, j) -> exists a i', m i = Ok (a, i') /\ k a i' = Ok (b, j).
Proof.
  unfold bind. destruct (m i) as [[a i']|]; [| discriminate]. intros E. by exists a, i'.
Qed.

Lemma lift_inv {A} (r : res A) (i j : nat) (a : A) :
  lift r i = Ok (a, j) -> r = Ok a /\ j = i.
Proof. unfold lift. destruct r; [| discriminate]. by intros [= -> ->]. Qed.

Section Generations.

Context `{rt : JsRuntime}.
Variable eng : Engine.
Variable rnd : nat -> Q.

Lemma createTraderWorker_fresh (tc : TraderConfig) (n : string)
    (o : gmap string value) (b : bool) :
  fresh (createTraderWorker eng tc n o b).
Proof. by repeat split. Qed.

Lemma randomIndiv_fresh (tc : TraderConfig) (opts : GeneticOpts) (gen ind i j : nat)
    (w : TraderWorker) :
  randomIndiv eng rnd tc opts gen ind i = Ok (w, j) -> fresh w.
Proof.
  unfold randomIndiv. intros E. apply bind_inv in E as (o & i' & _ & [= <- _]).
  apply createTraderWorker_fresh.
Qed.

Lemma mutate_fresh (tc : TraderConfig) (t : TraderWorker) (opts : GeneticOpts)
    (gen ind i j : nat) (w : TraderWorker) :
  mutate eng rnd tc t opts gen ind i = Ok (w, j) -> fresh w.
Proof.
  unfold mutate. intros E. apply bind_inv in E as (o & i' & _ & [= <- _]).
  apply createTraderWorker_fresh.
Qed.

Lemma crossover_fresh (n : string) (a b : TraderWorker) (opts : GeneticOpts)
    (i j : nat) (w : TraderWorker) :
  crossover eng rnd n a b opts i = Ok (w, j) -> fresh w.
Proof.
  unfold crossover. intros E.
  apply bind_inv in E as (o1 & i1 & _ & E). apply bind_inv in E as (r & i2 & _ & E).
  apply bind_inv in E as (o2 & i3 & _ & [= <- _]). apply createTraderWorker_fresh.
Qed.

Lemma breed_one_fresh (tc : TraderConfig) (g : list TraderWorker) (opts : GeneticOpts)
    (gen ind i j : nat) (w : TraderWorker) :
  breed_one eng rnd tc g opts gen ind i = Ok (w, j) -> fresh w.
Proof.
  unfold breed_one. intros E. apply bind_inv in E as (r & i1 & _ & E).
  destruct (r <? Fin 0.6)%num.
  - apply bind_inv in E as (ps & i2 & _ & E). apply bind_inv in E as (t2 & i3 & _ & E).
    apply bind_inv in E as (t1 & i4 & _ & E). by eapply crossover_fresh.
  - destruct (r <? Fin 0.9)%num.
    + apply bind_inv in E as (x & i2 & _ & E). apply bind_inv in E as (t & i3 & _ & E).
      by eapply mutate_fresh.
    + by eapply randomIndiv_fresh.
Qed.

Lemma fill_shape (fuel : nat) :
  forall (tc : TraderConfig) (g : list TraderWorker) (opts : GeneticOpts) (gen : nat)
         (acc new : list TraderWorker) (i j : nat),
    fill eng rnd fuel tc g opts gen acc i = Ok (new, j) ->
    exists children, new = acc ++ children /\ Forall fresh children.
Proof.
  induction fuel as [|fuel IH]; intros tc g opts gen acc new i j; cbn.
  - intros [= <- _]. exists []. by rewrite app_nil_r.
  - intros E. apply bind_inv in E as (child & i1 & Hc & E).
    apply breed_one_fresh in Hc. apply IH in E as (children & -> & Hall).
    exists (child :: children). split; [by rewrite <- app_assoc | by constructor].
Qed.

(** The new generation: the leading [elitism] individuals of the ranking,
    then newly built ones. *)
Lemma breedNewGeneration_shape (tc : TraderConfig) (previous : list TraderWorker)
    (opts : GeneticOpts) (gen i j : nat) (new : list TraderWorker) :
  breedNewGeneration eng rnd tc previous opts gen i = Ok (new, j) ->
  exists ranked_ children,
    rank previous = Ok ranked_
    /\ new = slice0 ranked_ (elitism opts) ++ children
    /\ Forall fresh children.
Proof.
  unfold breedNewGeneration. intros E. apply bind_inv in E as (ranked_ & i1 & Hr & E).
  apply lift_inv in Hr as [Hr ->]. apply fill_shape in E as (children & -> & Hall).
  by exists ranked_, children.
Qed.

Lemma makeGeneration_from_fresh (fuel : nat) :
  forall (ind : nat) (tc : TraderConfig) (opts : GeneticOpts) (gen : nat)
         (acc g : list TraderWorker) (i j : nat),
    makeGeneration_from eng rnd fuel ind tc opts gen acc i = Ok (g, j) ->
    Forall fresh acc -> Forall fresh g.
Proof.
  induction fuel as [|fuel IH]; intros ind tc opts gen acc g i j; cbn.
  - by intros [= <- _].
  - intros E Hacc. apply bind_inv in E as (w & i1 & Hw & E).
    eapply IH; [exact E |]. apply Forall_app. split; [exact Hacc |].
    constructor; [| constructor].
    destruct (ind =? 0).
    + injection Hw as <- _. apply createTraderWorker_fresh.
    + by eapply randomIndiv_fresh.
Qed.

Lemma makeGeneration_fresh (tc : TraderConfig) (opts : GeneticOpts) (gen i j : nat)
    (g : list TraderWorker) :
  makeGeneration eng rnd tc opts gen i = Ok (g, j) -> Forall fresh g.
Proof.
  intros E. eapply makeGeneration_from_fresh; [exact E | constructor].
Qed.

Lemma slice0_subset {A} (l : list A) (e : Z) (x : A) : x ∈ slice0 l e -> x ∈ l.
Proof.
  unfold slice0. destruct (e <? 0)%Z; apply subseteq_take.
Qed.

End Generations.

(** ** The run *)

Lemma checkpoint_perm (ws g : list TraderWorker) (ck : Checkpoint) :
  checkpoint ws = Ok (g, ck) -> g ≡ₚ ws.
Proof.
  unfold checkpoint. destruct (js_sort byFitness ws) as [s|] eqn:Es; [cbn | discriminate].
  apply js_sort_perm in Es.
  destruct (mapM _ s) as [fits|]; [cbn | discriminate].
  destruct (mapM _ s) as [logs|]; [cbn | discriminate].
  destruct (mean fits) as [m|]; [cbn | discriminate].
  by intros [= <- _].
Qed.

Section Run.

Context `{rt : JsRuntime}.
Variable eng : Engine.
Variable rnd : nat -> Q.
Variable tc : TraderConfig.
Variable opts : GeneticOpts.

(** One turn of the loop: the generation is built or bred, handed to a pool
    of at least one place, and displayed in some order. *)
Lemma generation_body_shape (gen : nat) (previous : option (list TraderWorker))
    (i j : nat) (report : Report) :
  generation_body eng rnd tc opts gen previous i = Ok (report, j) ->
  match previous with
  | None => Forall fresh (scheduled report)
  | Some prev =>
      exists ranked_ children,
        rank prev = Ok ranked_
        /\ scheduled report = slice0 ranked_ (elitism opts) ++ children
        /\ Forall fresh children
  end
  /\ results report = run_generation eng (envs opts) (scheduled report)
  /\ displayed report ≡ₚ workers (results report)
  /\ (1 <= threads opts)%Z.
Proof.
  unfold generation_body. intros E.
  apply bind_inv in E as (g & i1 & Hg & E). apply bind_inv in E as ([] & i2 & Hq & E).
  apply lift_inv in Hq as [Hq ->]. apply bind_inv in E as ([g' ck] & i3 & Hck & E).
  apply lift_inv in Hck as [Hck ->]. injection E as <- _. cbn.
  split; [| split; [done | split]].
  - destruct previous as [prev|].
    + by apply breedNewGeneration_shape in Hg.
    + by apply makeGeneration_fresh in Hg.
  - by apply checkpoint_perm in Hck.
  - unfold getQueue in Hq. destruct (threads opts <? 1)%Z eqn:Ht; [discriminate |].
    apply Z.ltb_ge in Ht. exact Ht.
Qed.

Lemma genetic_loop_linked (fuel : nat) :
  forall (gen : nat) (previous : option (list TraderWorker)) (reports : list Report)
         (i : nat),
  exists new,
    fst (genetic_loop eng rnd fuel gen tc opts previous reports i) = reports ++ new
    /\ linked eng rnd tc opts previous new.
Proof.
  induction fuel as [|fuel IH]; intros gen previous reports i; cbn [genetic_loop].
  - exists []. by rewrite app_nil_r.
  - destruct (generation_body eng rnd tc opts gen previous i) as [[report j]|e] eqn:E.
    + destruct (IH (S gen) (Some (displayed report)) (reports ++ [report]) j)
        as (new & Hnew & Hlinked).
      exists (report :: new). split; [rewrite Hnew; by rewrite <- app_assoc |].
      split; [by exists gen, i, j | exact Hlinked].
    + exists []. by rewrite app_nil_r.
Qed.

Lemma genetic_linked (i : nat) :
  linked eng rnd tc opts None (fst (genetic eng rnd tc opts i)).
Proof.
  unfold genetic.
  destruct (genetic_loop_linked (Z.to_nat (generation opts)) 0 None [] i)
    as (new & -> & H).
  exact H.
Qed.

(** Every individual handed to the pool holds records when it is marked as
    run, and holds records once the pool is idle. *)
Lemma linked_records (reports : list Report) :
  envs opts <> [] ->
  forall previous,
    (forall prev, previous = Some prev -> Forall evaluated prev) ->
    linked eng rnd tc opts previous reports ->
    Forall (fun report =>
              results report = run_generation eng (envs opts) (scheduled report)
              /\ Forall evaluated (scheduled report)
              /\ Forall has_records (workers (results report))
              /\ Forall has_records (displayed report)) reports.
Proof.
  intros Hne. induction reports as [|report rest IH]; intros previous Hprev;
    cbn [linked]; [constructor |].
  intros [(gen & i & j & E) Hrest].
  apply generation_body_shape in E as (Hsched & Hres & Hdisp & _).
  assert (Hev : Forall evaluated (scheduled report)).
  { destruct previous as [prev|].
    - destruct Hsched as (ranked_ & children & Hr & -> & Hfresh).
      apply Forall_app. split.
      + specialize (Hprev prev eq_refl). rewrite <- (rank_perm _ _ Hr) in Hprev.
        rewrite Forall_forall in Hprev. apply Forall_forall. intros t Ht.
        apply Hprev. by eapply slice0_subset.
      + eapply Forall_impl; [exact Hfresh |]. intros w (Hw & _) Hrun. congruence.
    - eapply Forall_impl; [exact Hsched |]. intros w (Hw & _) Hrun. congruence. }
  assert (Hrec : Forall has_records (workers (results report))).
  { rewrite Hres. by apply run_generation_has_records. }
  assert (Hd : Forall has_records (displayed report)) by (by rewrite Hdisp).
  constructor; [done |].
  apply (IH (Some (displayed report))); [| exact Hrest].
  intros prev [= <-]. eapply Forall_impl; [exact Hd |]. apply has_records_evaluated.
Qed.

(** Two reports that follow one another: the later generation starts with
    the leading [elitism] individuals of the ranking of the earlier one. *)
Lemma linked_consecutive (reports : list Report) :
  forall previous (g : nat) (r1 r2 : Report),
    linked eng rnd tc opts previous reports ->
    reports !! g = Some r1 -> reports !! S g = Some r2 ->
    exists ranked_ children,
      rank (displayed r1) = Ok ranked_
      /\ scheduled r2 = slice0 ranked_ (elitism opts) ++ children
      /\ Forall fresh children
      /\ results r1 = run_generation eng (envs opts) (scheduled r1)
      /\ displayed r1 ≡ₚ workers (results r1)
      /\ results r2 = run_generation eng (envs opts) (scheduled r2).
Proof.
  induction reports as [|report rest IH]; intros previous g r1 r2; [done |].
  cbn [linked]. intros [(gen1 & i1 & j1 & E1) Hrest] H1 H2. destruct g as [|g].
  - injection H1 as <-. destruct rest as [|report2 rest]; [done |].
    injection H2 as <-. destruct Hrest as [(gen & i & j & E) _].
    apply generation_body_shape in E
      as ((ranked_ & children & Hr & Hs & Hf) & Hres & _ & _).
    apply generation_body_shape in E1 as (_ & Hres1 & Hdisp1 & _).
    by exists ranked_, children.
  - by eapply (IH (Some (displayed report)) g).
Qed.

End Run.

(** ** Configurations without candle aggregation *)

Section Clearing.

Context `{rt : JsRuntime}.
Variable eng : Engine.
Variable rnd : nat -> Q.
Variable tc : TraderConfig.
Variable opts : GeneticOpts.

Local Abbreviation clearedW := (fun w : TraderWorker => cleared (config w)).

(** A task keeps the two fields empty and calls the engine on nothing but
    the worker's own configuration. *)
Lemma task_cleared (envs_ : list Backtest) (t : TraderWorker) :
  cleared (config t) ->
  cleared (config (worker (snd (task eng envs_ t))))
  /\ calls_cleared (snd (task eng envs_ t)).
Proof.
  intros Hc. unfold task, task_from, calls_cleared. cbn [worker].
  destruct (hasRunned t).
  - cbn. split; [exact Hc | constructor].
  - destruct (env_loop eng 0 envs_ (mkRun t [])) as [[e|] r1] eqn:E; cbn [settle];
      apply env_loop_effect in E as (Hs & _ & (evs & Hev & Hevs & _) & _);
      cbn [worker events app] in Hs, Hev.
    + assert (Hcalls : Forall (fun ev => forall p c, ev = Called p c -> cleared c)
                         (events r1)).
      { rewrite Hev. eapply Forall_impl; [exact Hevs |].
        intros ev (q & c & -> & Hqc) p c' [= _ <-].
        by eapply same_settings_cleared. }
      assert (Hc1 : cleared (config (worker r1)))
        by (by eapply same_settings_cleared).
      destruct (on_error eng e r1) as [s r'] eqn:E'.
      apply on_error_effect in E' as (_ & Hcfg & _ & _ & Hevents). cbn [snd].
      split; [by rewrite Hcfg |].
      destruct (status (trader (worker r1)));
        [| destruct Hevents as [Hevents | [e' Hevents]]];
        rewrite Hevents; apply Forall_app; (split; [exact Hcalls |]);
        repeat (apply Forall_cons_2;
                [intros p c Heq; first [discriminate | by injection Heq as _ <-] |]);
        apply Forall_nil_2.
    + cbn. split; [by eapply same_settings_cleared |]. rewrite Hev.
      eapply Forall_impl; [exact Hevs |].
      intros ev (q & c & -> & Hqc) p c' [= _ <-]. by eapply same_settings_cleared.
Qed.

(** Through a whole run: every individual handed to the pool has the two
    fields empty, and so has every configuration the engine is called
    with. *)
Lemma linked_cleared (reports : list Report) :
  forall previous,
    (forall prev, previous = Some prev -> Forall clearedW prev) ->
    linked eng rnd tc opts previous reports ->
    Forall (fun report =>
              Forall clearedW (scheduled report)
              /\ Forall (fun x => calls_cleared (snd x)) (results report))
      reports.
Proof.
  induction reports as [|report rest IH]; intros previous Hprev; cbn [linked];
    [constructor |].
  intros [(gen & i & j & E) Hrest].
  apply generation_body_shape in E as (Hsched & Hres & Hdisp & _).
  assert (Hs : Forall clearedW (scheduled report)).
  { destruct previous as [prev|].
    - destruct Hsched as (ranked_ & children & Hr & -> & Hfresh).
      apply Forall_app. split.
      + specialize (Hprev prev eq_refl). rewrite <- (rank_perm _ _ Hr) in Hprev.
        rewrite Forall_forall in Hprev. apply Forall_forall. intros t Ht.
        apply Hprev. by eapply slice0_subset.
      + eapply Forall_impl; [exact Hfresh |]. by intros w (_ & _ & Hw).
    - eapply Forall_impl; [exact Hsched |]. by intros w (_ & _ & Hw). }
  assert (Hr : Forall (fun x => clearedW (worker (snd x)) /\ calls_cleared (snd x))
                 (results report)).
  { rewrite Hres. unfold run_generation. apply Forall_fmap.
    eapply Forall_impl; [exact Hs |]. intros t Ht. by apply task_cleared. }
  constructor.
  - split; [exact Hs |]. eapply Forall_impl; [exact Hr |]. by intros x [_ Hx].
  - apply (IH (Some (displayed report))); [| exact Hrest].
    intros prev [= <-]. rewrite Hdisp. unfold workers. apply Forall_fmap.
    eapply Forall_impl; [exact Hr |]. by intros x [Hx _].
Qed.

End Clearing.

(** C8.  [createTraderWorker] builds the worker, and constructs its engine,
    from a configuration whose [aggTimes] and [candleSetPlugins] are empty,
    whatever configuration it is given; the baseline individual, the random
    individuals, the mutated and the crossed children are all built by it.
    In every generation of a run every individual handed to the pool has
    the two fields empty, and so has every configuration on which [init],
    [start] or [stop] is called. *)
Theorem workers_run_without_candle_plugins `{rt : JsRuntime} (eng : Engine)
    (rnd : nat -> Q) (tc : TraderConfig) (opts : GeneticOpts) :
  (forall c n o s,
      let w := createTraderWorker eng c n o s in
      cleared (config w) /\ trader w = construct eng (config w) s
      /\ name (config w) = n /\ stratOpts (config w) = o
      /\ backtest (env (config w)) = backtest (env c) /\ flush (config w) = flush c)
  /\ (forall gen i g j,
        makeGeneration eng rnd tc opts gen i = Ok (g, j) ->
        Forall (fun w => cleared (config w)) g)
  /\ (forall gen ind i w j,
        randomIndiv eng rnd tc opts gen ind i = Ok (w, j) -> cleared (config w))
  /\ (forall t gen ind i w j,
        mutate eng rnd tc t opts gen ind i = Ok (w, j) -> cleared (config w))
  /\ (forall n a b i w j,
        crossover eng rnd n a b opts i = Ok (w, j) -> cleared (config w))
  /\ (forall i report,
        report ∈ fst (genetic eng rnd tc opts i) ->
        Forall (fun w => cleared (config w)) (scheduled report)
        /\ Forall (fun x => calls_cleared (snd x)) (results report)).
Proof.
  split; [by intros c n o s; cbn |].
  split.
  { intros gen i g j E. apply makeGeneration_fresh in E.
    eapply Forall_impl; [exact E |]. by intros w (_ & _ & Hw). }
  split; [intros gen ind i w j E; by apply randomIndiv_fresh in E as (_ & _ & Hw) |].
  split; [intros t gen ind i w j E; by apply mutate_fresh in E as (_ & _ & Hw) |].
  split; [intros n a b i w j E; by apply crossover_fresh in E as (_ & _ & Hw) |].
  intros i report Hin.
  pose proof (linked_cleared eng rnd tc opts _ None ltac:(discriminate)
                (genetic_linked eng rnd tc opts i)) as Hall.
  rewrite Forall_forall in Hall. exact (Hall report Hin).
Qed.






(** ** Further properties of the fitness functions *)

Lemma clampSharpe_range (s : num) :
  (s = NaN /\ clampSharpe s = NaN)
  \/ exists q, clampSharpe s = Fin q /\ (0 <= q <= 4)%Q.
Proof.
  unfold clampSharpe. destruct s as [a| | |]; cbn.
  - right. destruct (Qle_bool 0 a) eqn:H0; cbn.
    + apply Qle_bool_iff in H0. destruct (Qle_bool a 4) eqn:H4; cbn.
      * apply Qle_bool_iff in H4. by exists a.
      * exists 4%Q. split; [done |]. split; discriminate.
    + exists 0%Q. split; [done |]. split; discriminate.
  - right. exists 4%Q. split; [done |]. split; discriminate.
  - right. exists 0%Q. split; [done |]. split; discriminate.
  - by left.
Qed.

(** ** Further properties of the run *)

Section Further.

Context `{rt : JsRuntime}.
Variable eng : Engine.
Variable rnd : nat -> Q.

Lemma mapM_inv {A B} (f : A -> res B) (l : list A) (ys : list B) :
  mapM f l = Ok ys -> Forall (fun x => exists y, f x = Ok y) l.
Proof.
  revert ys. induction l as [|x xs IH]; intros ys; cbn; [constructor |].
  destruct (f x) as [y|] eqn:Ex; cbn; [| discriminate].
  destruct (mapM f xs) as [ys'|] eqn:Exs; cbn; [| discriminate].
  intros _. constructor; [by exists y | by eapply IH].
Qed.

(** A checkpoint is only written for individuals that all hold a list of
    records. *)
Lemma checkpoint_defined (ws g : list TraderWorker) (ck : Checkpoint) :
  checkpoint ws = Ok (g, ck) -> Forall (fun t => fitnesses t <> None) ws.
Proof.
  intros E. rewrite <- (checkpoint_perm _ _ _ E). unfold checkpoint in E.
  destruct (js_sort byFitness ws) as [g'|] eqn:Es; cbn [res_bind] in E; [| discriminate].
  destruct (mapM (fun t => getFitness t KTotal) g') as [fits|] eqn:Ef;
    cbn [res_bind] in E; [| discriminate].
  assert (g = g') as ->.
  { repeat match type of E with
           | (match ?m with _ => _ end) = _ => destruct m; cbn [res_bind] in E
           | res_bind ?m _ = _ => destruct m; cbn [res_bind] in E
           end; congruence. }
  apply mapM_inv in Ef. eapply Forall_impl; [exact Ef |].
  intros t [y Hy] Hnone. unfold getFitness in Hy. by rewrite Hnone in Hy.
Qed.

Lemma task_no_env (t : TraderWorker) :
  hasRunned t = false ->
  task eng [] t = (Fulfilled, mkRun (set_hasRunned t true) []).
Proof. intros Hh. unfold task, task_from. cbn. by rewrite Hh. Qed.

Lemma generation_body_no_env (tc : TraderConfig) (opts : GeneticOpts) (gen i : nat) :
  envs opts = [] -> (1 <= popSize opts)%Z ->
  exists e, generation_body eng rnd tc opts gen None i = Throw e.
Proof.
  intros Henv Hpop.
  destruct (generation_body eng rnd tc opts gen None i) as [[report j]|e] eqn:E;
    [exfalso | by exists e].
  unfold generation_body in E.
  apply bind_inv in E as (g & i1 & Hg & E). apply bind_inv in E as ([] & i2 & Hq & E).
  apply bind_inv in E as ([g' ck] & i3 & Hck & _). apply lift_inv in Hck as [Hck _].
  apply checkpoint_defined in Hck.
  pose proof (makeGeneration_fresh eng rnd _ _ _ _ _ _ Hg) as Hfresh.
  destruct (makeGeneration_from_returns eng rnd (Z.to_nat (popSize opts)) 0 tc opts gen [] i)
    as (g0 & j0 & Hg0 & Hlen).
  unfold makeGeneration in Hg. rewrite Hg0 in Hg. injection Hg as -> ->.
  destruct g as [|t rest]; [cbn in Hlen; lia |].
  apply Forall_cons in Hfresh as [(Hh & Hf & _) _].
  rewrite Henv in Hck. unfold run_generation in Hck. cbn [map] in Hck.
  rewrite (task_no_env t Hh) in Hck. apply Forall_cons in Hck as [Hck _].
  by cbn in Hck.
Qed.

End Further.

(** Without an environment no individual gets a record, the display sort or
    the first [getFitness] of the log throws, and the run ends with the
    fatal error in its first generation. *)
Theorem no_environment_is_fatal `{rt : JsRuntime} (eng : Engine) (rnd : nat -> Q)
    (tc : TraderConfig) (opts : GeneticOpts) (i : nat) :
  envs opts = [] -> (1 <= popSize opts)%Z -> (1 <= generation opts)%Z ->
  genetic eng rnd tc opts i = ([], Some fatal).
Proof.
  intros Henv Hpop Hgen. unfold genetic.
  destruct (Z.to_nat (generation opts)) as [|n] eqn:En; [lia |]. cbn [genetic_loop].
  destruct (generation_body_no_env eng rnd tc opts 0 i Henv Hpop) as [e ->].
  reflexivity.
Qed.

Lemma no_environment_is_fatal_witness :
  genetic (rt := example_runtime) quiet_engine halves (config_x 3) opts_no_env 0
  = ([], Some fatal).
Proof.
  apply (no_environment_is_fatal (rt := example_runtime) quiet_engine halves (config_x 3)
           opts_no_env 0); [reflexivity | cbn; lia | cbn; lia].
Defined.

(** ** Further properties of the ranking and of generation 0 *)

Lemma before_false_leb (a b : num) :
  is_nan a = false -> is_nan b = false -> before a b = false -> (a <=? b)%num = true.
Proof.
  destruct a as [p| | |], b as [q| | |]; try discriminate; try reflexivity.
  intros _ _ H. apply before_fin in H. by apply Qle_bool_iff.
Qed.

(** On a generation whose aggregate totals are numbers the ranking returns a
    permutation of the generation whose first individual has the greatest
    total. *)
Theorem rank_best_first (l : list TraderWorker) :
  Forall (fun t => exists f, getFitness t KTotal = Ok f /\ is_nan f = false) l ->
  exists r,
    rank l = Ok r /\ r ≡ₚ l
    /\ forall first rest,
         r = first :: rest ->
         forall t, t ∈ l -> (total_score t <=? total_score first)%num = true.
Proof.
  intros Hg.
  assert (Hl : Forall (rankable total_score) l).
  { eapply Forall_impl; [exact Hg |]. intros t Ht. by apply rankable_total. }
  exists (rank_by total_score l). split; [by apply rank_pure |].
  split; [apply rank_by_perm |].
  intros first rest Hr t Ht. rewrite rank_by_unfold in Hr.
  pose proof (sort_by_ranked total_score l Hl) as Hsorted.
  assert (Hin : t ∈ sort_by total_score l) by (by rewrite sort_by_perm).
  assert (Hs : Forall (rankable total_score) (sort_by total_score l))
    by (by rewrite sort_by_perm).
  destruct (sort_by total_score l) as [|first' rest']; [discriminate |].
  injection Hr as -> _. apply Forall_cons in Hs as [Hfirst Hrest].
  apply elem_of_cons in Hin as [-> | Hin].
  - apply before_false_leb; [exact Hfirst | exact Hfirst | apply before_irrefl].
  - apply StronglySorted_inv in Hsorted as [_ Hall].
    rewrite Forall_forall in Hrest. rewrite List.Forall_forall in Hall.
    apply before_false_leb; [by apply Hrest | exact Hfirst |].
    apply Hall. by apply list_elem_of_In.
Qed.

Lemma rank_best_first_witness :
  exists r,
    rank tied_generation = Ok r /\ r ≡ₚ tied_generation
    /\ forall first rest,
         r = first :: rest ->
         forall t, t ∈ tied_generation ->
                   (total_score t <=? total_score first)%num = true.
Proof.
  apply (rank_best_first tied_generation).
  repeat constructor; eexists; split; reflexivity.
Defined.

Section Layout.

Context `{rt : JsRuntime}.
Variable eng : Engine.
Variable rnd : nat -> Q.

Lemma randomIndiv_name (tc : TraderConfig) (opts : GeneticOpts) (gen ind i j : nat)
    (w : TraderWorker) :
  randomIndiv eng rnd tc opts gen ind i = Ok (w, j) ->
  name (config w) = worker_name tc gen ind.
Proof.
  unfold randomIndiv. intros E. by apply bind_inv in E as (o & i' & _ & [= <- _]).
Qed.

Lemma makeGeneration_from_layout (fuel : nat) :
  forall (ind : nat) (tc : TraderConfig) (opts : GeneticOpts) (gen : nat)
         (acc : list TraderWorker) (i : nat),
  exists more j,
    makeGeneration_from eng rnd fuel ind tc opts gen acc i = Ok (acc ++ more, j)
    /\ names more = map (worker_name tc gen) (seq ind fuel)
    /\ (ind = 0 -> forall w, more !! 0 = Some w -> stratOpts (config w) = stratOpts tc).
Proof.
  induction fuel as [|fuel IH]; intros ind tc opts gen acc i; cbn [makeGeneration_from].
  - exists [], i. rewrite app_nil_r. by repeat split.
  - destruct (ind =? 0) eqn:Hind.
    + destruct (IH (S ind) tc opts gen
                  (acc ++ [createTraderWorker eng tc (worker_name tc gen ind)
                             (stratOpts tc) (opt_silent opts)]) i)
        as (more & j & E & Hnames & _).
      exists (createTraderWorker eng tc (worker_name tc gen ind) (stratOpts tc)
                (opt_silent opts) :: more), j.
      split; [cbn; rewrite E; by rewrite <- app_assoc |].
      split; [cbn; by rewrite <- Hnames |]. by intros _ w [= <-].
    + destruct (randomIndiv_returns eng rnd tc opts gen ind i) as (w & k & Ew).
      destruct (IH (S ind) tc opts gen (acc ++ [w]) k) as (more & j & E & Hnames & _).
      exists (w :: more), j. rewrite (bind_ok _ _ _ _ _ Ew).
      split; [rewrite E; by rewrite <- app_assoc |].
      split; [cbn; rewrite <- Hnames; by rewrite (randomIndiv_name _ _ _ _ _ _ _ Ew) |].
      intros ->. discriminate.
Qed.

End Layout.

(** Generation 0: [makeGeneration] returns [popSize] fresh individuals named
    [<name>-gen<gen>-ind<k>] in the order of [k]; the first one carries the
    caller's [stratOpts] unchanged. *)
Theorem makeGeneration_layout `{rt : JsRuntime} (eng : Engine) (rnd : nat -> Q)
    (tc : TraderConfig) (opts : GeneticOpts) (gen i : nat) :
  exists g j,
    makeGeneration eng rnd tc opts gen i = Ok (g, j)
    /\ names g = map (worker_name tc gen) (seq 0 (Z.to_nat (popSize opts)))
    /\ (forall w, g !! 0 = Some w -> stratOpts (config w) = stratOpts tc)
    /\ Forall (fun w => hasRunned w = false /\ fitnesses w = None) g.
Proof.
  destruct (makeGeneration_from_layout eng rnd (Z.to_nat (popSize opts)) 0 tc opts gen [] i)
    as (g & j & E & Hnames & Hfirst).
  exists g, j. split; [exact E |]. split; [exact Hnames |].
  split; [by apply Hfirst |].
  apply makeGeneration_fresh in E. eapply Forall_impl; [exact E |].
  by intros w (? & ? & _).
Qed.

(** A window shorter than two weeks and no trade: the trade budget is zero,
    [tradeFrequency] is zero over zero and the total is NaN. *)
Theorem calcFitness_short_window `{rt : JsRuntime} (w : TraderWorker) (bt : Backtest) :
  backtest (env (config w)) = Some bt ->
  floor (daysBetween (start bt) (stop bt) / Fin 14) = Fin 0 ->
  default [] (tradeHistory (trader w)) = [] ->
  exists f, calcFitness w = Ok f /\ tradeFrequency f = NaN /\ total f = NaN.
Proof.
  intros Hbt Hlimit Hnone. unfold calcFitness. rewrite Hbt, Hnone. cbn [deref res_bind].
  rewrite Hlimit. eexists. split; [reflexivity |]. cbn. split; [reflexivity |].
  by rewrite add_nan_r.
Qed.

Lemma calcFitness_short_window_witness :
  exists f, calcFitness (rt := example_runtime) idle_worker = Ok f
            /\ tradeFrequency f = NaN /\ total f = NaN.
Proof.
  apply (calcFitness_short_window (rt := example_runtime) idle_worker week);
    [reflexivity | vm_compute; reflexivity | reflexivity].
Defined.

(** ** Further properties of the draws and of the loops *)



Section Sizes.

Context `{rt : JsRuntime}.
Variable eng : Engine.
Variable rnd : nat -> Q.

Lemma fill_length (fuel : nat) :
  forall (tc : TraderConfig) (g : list TraderWorker) (opts : GeneticOpts) (gen : nat)
         (acc new : list TraderWorker) (i j : nat),
    fill eng rnd fuel tc g opts gen acc i = Ok (new, j) ->
    length new = length acc + fuel.
Proof.
  induction fuel as [|fuel IH]; intros tc g opts gen acc new i j; cbn [fill].
  - intros [= <- _]. lia.
  - intros E. apply bind_inv in E as (child & i1 & _ & E).
    apply IH in E. rewrite E, length_app. cbn. lia.
Qed.

Lemma genetic_loop_outcome (tc : TraderConfig) (opts : GeneticOpts) (fuel : nat) :
  forall (gen : nat) (previous : option (list TraderWorker)) (reports : list Report)
         (i : nat),
    match snd (genetic_loop eng rnd fuel gen tc opts previous reports i) with
    | None =>
        length (fst (genetic_loop eng rnd fuel gen tc opts previous reports i))
        = length reports + fuel
    | Some e =>
        e = fatal
        /\ length (fst (genetic_loop eng rnd fuel gen tc opts previous reports i))
           < length reports + fuel
    end.
Proof.
  induction fuel as [|fuel IH]; intros gen previous reports i; cbn [genetic_loop].
  - cbn. lia.
  - destruct (generation_body eng rnd tc opts gen previous i) as [[report j]|e].
    + specialize (IH (S gen) (Some (displayed report)) (reports ++ [report]) j).
      rewrite length_app in IH. cbn [length] in IH.
      destruct (snd (genetic_loop eng rnd fuel (S gen) tc opts
                       (Some (displayed report)) (reports ++ [report]) j));
        [destruct IH as [-> IH]; split; [done | lia] | lia].
    + cbn. split; [done | lia].
Qed.

End Sizes.

(** A run either goes through all its generations and leaves one report
    (one checkpoint) per generation, or stops at the first turn that throws
    with the error of line 442, leaving the reports of the turns before. *)
Theorem genetic_outcome `{rt : JsRuntime} (eng : Engine) (rnd : nat -> Q)
    (tc : TraderConfig) (opts : GeneticOpts) (i : nat) :
  match snd (genetic eng rnd tc opts i) with
  | None => length (fst (genetic eng rnd tc opts i)) = Z.to_nat (generation opts)
  | Some e =>
      e = fatal
      /\ length (fst (genetic eng rnd tc opts i)) < Z.to_nat (generation opts)
  end.
Proof.
  unfold genetic.
  apply (genetic_loop_outcome eng rnd tc opts (Z.to_nat (generation opts)) 0 None [] i).
Qed.

(** When [breedNewGeneration] returns and the number of elite individuals is
    within the population size and the previous generation, the new
    generation has [popSize] individuals. *)
Theorem breedNewGeneration_size `{rt : JsRuntime} (eng : Engine) (rnd : nat -> Q)
    (tc : TraderConfig) (previous new : list TraderWorker) (opts : GeneticOpts)
    (gen i j : nat) :
  breedNewGeneration eng rnd tc previous opts gen i = Ok (new, j) ->
  (0 <= elitism opts <= popSize opts)%Z ->
  (elitism opts <= Z.of_nat (length previous))%Z ->
  length new = Z.to_nat (popSize opts).
Proof.
  unfold breedNewGeneration. intros E He Hp.
  apply bind_inv in E as (ranked_ & i1 & Hr & E). apply lift_inv in Hr as [Hr _].
  apply fill_length in E. rewrite E.
  assert (Hlen : length (slice0 ranked_ (elitism opts)) = Z.to_nat (elitism opts)).
  { unfold slice0. destruct (elitism opts <? 0)%Z eqn:Hneg; [lia |].
    rewrite length_take, (Permutation_length (rank_perm _ _ Hr)). lia. }
  rewrite Hlen. lia.
Qed.

Lemma breedNewGeneration_size_witness :
  exists new j,
    breedNewGeneration (rt := example_runtime) quiet_engine halves (config_x 3)
      tied_generation opts_carry 1 0 = Ok (new, j)
    /\ length new = Z.to_nat (popSize opts_carry).
Proof.
  destruct (breedNewGeneration (rt := example_runtime) quiet_engine halves (config_x 3)
              tied_generation opts_carry 1 0) as [[new j]|e] eqn:E;
    [| vm_compute in E; discriminate].
  exists new, j. split; [reflexivity |].
  apply (breedNewGeneration_size (rt := example_runtime) quiet_engine halves (config_x 3)
           tied_generation new opts_carry 1 0 j E); [cbn; lia | cbn; lia].
Defined.

(** * Further properties *)

(** ** The calls of a task, in order *)

Section Trace.

Context `{rt : JsRuntime}.
Variable eng : Engine.

Lemma windowed_again (c : TraderConfig) (i j : nat) (e e' : Backtest) :
  windowed (windowed c i e) j e' = windowed c j e'.
Proof. reflexivity. Qed.

Lemma full_trace_windowed (envs_ : list Backtest) :
  forall (c : TraderConfig) (i j : nat) (e : Backtest),
    full_trace (windowed c i e) j envs_ = full_trace c j envs_.
Proof. induction envs_ as [|e' rest IH]; intros c i j e; cbn; [done |]. by rewrite IH. Qed.

(** One turn of the loop body: the three calls in order when it succeeds, a
    non-empty prefix of them when it fails. *)
Lemma one_env_trace (i : nat) (e : Backtest) (r r' : run) (err : option exn) :
  one_env eng i e r = (err, r') ->
  config (worker r') = windowed (config (worker r)) i e
  /\ exists tr,
       events r' = events r ++ tr
       /\ tr `prefix_of` calls_for (config (worker r)) i e
       /\ tr <> []
       /\ (err = None -> tr = calls_for (config (worker r)) i e).
Proof.
  unfold one_env, from_init, from_start, from_stop, calls_for.
  set (c := windowed (config (worker r)) i e).
  destruct (await eng AtInit _) as [[e1|] r1] eqn:E1;
    apply await_effect in E1 as (Hc1 & _ & _ & He1); cbn [worker events] in Hc1, He1;
    change (config (set_backtest (worker r) i e)) with c in Hc1, He1.
  { intros [= <- <-]. split; [exact Hc1 |]. exists [Called AtInit c].
    split; [exact He1 |]. split; [by eexists |]. split; [done | discriminate]. }
  destruct (await eng AtStart r1) as [[e2|] r2] eqn:E2;
    apply await_effect in E2 as (Hc2 & _ & _ & He2); rewrite Hc1 in He2.
  { intros [= <- <-]. split; [congruence |]. exists [Called AtInit c; Called AtStart c].
    split; [rewrite He2, He1; by rewrite <- app_assoc |].
    split; [by eexists |]. split; [done | discriminate]. }
  destruct (await eng AtStop r2) as [[e3|] r3] eqn:E3;
    apply await_effect in E3 as (Hc3 & _ & _ & He3); rewrite Hc2, Hc1 in He3.
  { intros [= <- <-]. split; [congruence |].
    exists [Called AtInit c; Called AtStart c; Called AtStop c].
    split; [rewrite He3, He2, He1; by rewrite <- !app_assoc |].
    split; [by exists [] |]. split; [done | discriminate]. }
  assert (Hall : events r3 = events r ++ [Called AtInit c; Called AtStart c; Called AtStop c])
    by (rewrite He3, He2, He1; by rewrite <- !app_assoc).
  destruct (calcFitness (worker r3)) as [f|e4]; intros [= <- <-]; cbn [worker events];
    (split; [cbn; congruence |]); eexists; (split; [exact Hall |]);
    (split; [by exists [] |]); by split.
Qed.

(** The loop: a prefix of the full trace, the full trace when it succeeds. *)
Lemma env_loop_trace (envs_ : list Backtest) :
  forall (i : nat) (r r' : run) (err : option exn),
    env_loop eng i envs_ r = (err, r') ->
    exists tr,
      events r' = events r ++ tr
      /\ tr `prefix_of` full_trace (config (worker r)) i envs_
      /\ (err = None -> tr = full_trace (config (worker r)) i envs_)
      /\ (envs_ <> [] -> tr <> []).
Proof.
  induction envs_ as [|e rest IH]; intros i r r' err; cbn [env_loop full_trace].
  - intros [= <- <-]. exists []. rewrite app_nil_r. by repeat split.
  - destruct (one_env eng i e r) as [[e1|] r1] eqn:E1;
      apply one_env_trace in E1 as (Hc & tr & He & Hpre & Hne & Hfull).
    + intros [= <- <-]. exists tr. split; [exact He |].
      split; [by apply prefix_app_r |]. split; [discriminate | done].
    + intros E2. apply IH in E2 as (tr2 & He2 & Hpre2 & Hfull2 & _).
      rewrite Hc, full_trace_windowed in Hpre2, Hfull2.
      rewrite (Hfull eq_refl) in He. exists (calls_for (config (worker r)) i e ++ tr2).
      split; [rewrite He2, He; by rewrite <- app_assoc |].
      split; [by apply prefix_app |].
      split; [intros Herr; by rewrite (Hfull2 Herr) | by intros _ Happ].
Qed.

End Trace.



(** ** Tournament selection *)

Section Tournament.

Context `{rt : JsRuntime}.
Variable rnd : nat -> Q.
Hypothesis rnd_unit : unit_interval rnd.
Variable generation_ : list TraderWorker.
Hypothesis populated : generation_ <> [].
Hypothesis evaluated_all : Forall has_records generation_.

Lemma draw_member (i : nat) :
  exists t, draw rnd generation_ i = Ok (Some t, S i) /\ t ∈ generation_.
Proof.
  unfold draw.
  destruct (randomBetween_integer rnd rnd_unit 0
              (Qred (inject_Z (Z.of_nat (length generation_)) + Qred (- (1))))
              0 (Z.of_nat (length generation_) - 1) i) as (z & E & Hz).
  - reflexivity.
  - rewrite !Qred_correct. unfold Z.sub. rewrite inject_Z_plus. reflexivity.
  - destruct generation_; [congruence | cbn [length]; lia].
  - destruct (lookup_lt_is_Some_2 generation_ (Z.to_nat z)) as [t Ht]; [lia |].
    exists t. split; [| by eapply list_elem_of_lookup_2].
    rewrite (bind_ok _ _ _ _ _ E). unfold ret, index.
    rewrite to_index_of_Z by lia. cbn. by rewrite Ht.
Qed.

Lemma getFitness_has_records (t : TraderWorker) :
  has_records t -> exists f, getFitness t KTotal = Ok f.
Proof. intros (l & Hl & _). eexists. by apply getFitness_defined. Qed.

Lemma checkSameFitness_returns (ts : list TraderWorker) (f : num) :
  Forall has_records ts -> exists b, checkSameFitness (Some <$> ts) f = Ok b.
Proof.
  induction 1 as [|t ts Ht _ IH]; cbn; [by eexists |].
  destruct (getFitness_has_records t Ht) as [ft ->]. cbn.
  destruct (ft === f)%num; [by eexists | exact IH].
Qed.

Lemma member_has_records (t : TraderWorker) : t ∈ generation_ -> has_records t.
Proof. intros Ht. rewrite Forall_forall in evaluated_all. by apply evaluated_all. Qed.

(** The retry loop ends on a member of the generation after at most [fuel]
    further draws. *)
Lemma redraw_member (ts : list TraderWorker) (fuel : nat) :
  Forall has_records ts ->
  forall (t : TraderWorker) (i : nat),
    t ∈ generation_ ->
    exists t' j,
      redraw rnd fuel generation_ (Some <$> ts) (Some t) i = Ok (Some t', j)
      /\ t' ∈ generation_ /\ i <= j <= i + fuel.
Proof.
  intros Hts. induction fuel as [|fuel IH]; intros t i Ht; cbn [redraw].
  - exists t, i. split; [done |]. split; [done | lia].
  - destruct (getFitness_has_records t (member_has_records t Ht)) as [f Hf].
    unfold bind at 1, lift at 1. cbn [getFitness_undef deref res_bind]. rewrite Hf.
    destruct (checkSameFitness_returns ts f Hts) as [b Hb].
    unfold bind at 1, lift at 1. rewrite Hb. destruct b.
    + destruct (draw_member i) as (t1 & Ed & Ht1). rewrite (bind_ok _ _ _ _ _ Ed).
      destruct (IH t1 (S i) Ht1) as (t' & j & E & Ht' & Hj).
      exists t', j. split; [exact E |]. split; [exact Ht' | lia].
    + exists t, i. split; [done |]. split; [done | lia].
Qed.

Lemma tournament_draws_members (participant : nat) :
  forall (ts : list TraderWorker) (i : nat),
    Forall (fun t => t ∈ generation_) ts ->
    exists ts' j,
      tournament_draws rnd participant generation_ (Some <$> ts) i = Ok (Some <$> ts', j)
      /\ Forall (fun t => t ∈ generation_) ts'
      /\ length ts' = length ts + participant
      /\ i + participant <= j <= i + participant * S (length generation_).
Proof.
  induction participant as [|p IH]; intros ts i Hts; cbn [tournament_draws].
  - exists ts, i. split; [done |]. split; [done |]. split; lia.
  - destruct (draw_member i) as (t0 & Ed & Ht0). rewrite (bind_ok _ _ _ _ _ Ed).
    assert (Hrec : Forall has_records ts).
    { eapply Forall_impl; [exact Hts |]. apply member_has_records. }
    destruct (redraw_member ts (length generation_) Hrec t0 (S i) Ht0)
      as (t & j1 & Er & Ht & Hj1).
    rewrite (bind_ok _ _ _ _ _ Er).
    destruct (IH (ts ++ [t]) j1) as (ts' & j & E & Hts' & Hlen & Hj).
    { apply Forall_app. split; [exact Hts | by constructor]. }
    exists ts', j. rewrite fmap_snoc in E.
    split; [exact E |]. split; [exact Hts' |]. rewrite length_app in Hlen. cbn in Hlen.
    split; [lia | nia].
Qed.

Lemma js_sort_undef_defined (ts : list TraderWorker) :
  Forall has_records ts ->
  exists s, js_sort_undef byFitness (Some <$> ts) = Ok (Some <$> s) /\ s ≡ₚ ts
            /\ js_sort byFitness ts = Ok s.
Proof.
  intros Hts. unfold js_sort_undef.
  assert (Homap : omap id (Some <$> ts) = ts).
  { clear. induction ts as [|t ts IH]; cbn; [done |]. by rewrite IH. }
  assert (Hnone : filter (fun o : option TraderWorker => o = None) (Some <$> ts) = []).
  { clear. induction ts as [|t ts IH]; [done |].
    rewrite fmap_cons, filter_cons. destruct (decide (Some t = None)); [done | exact IH]. }
  rewrite Homap, Hnone. destruct (js_sort_returns ts Hts) as (s & -> & Hs).
  exists s. cbn. by rewrite app_nil_r.
Qed.

End Tournament.

(** [tournamentSelection] on a generation that is not empty and whose
    individuals all hold records: it returns two individuals of the
    generation, after at least four and at most [4 * (n + 1)] draws, the
    first of which has the greater aggregate total when the totals are
    numbers. *)
Theorem tournament_parents (rnd : nat -> Q) (generation_ : list TraderWorker) (i : nat) :
  unit_interval rnd -> generation_ <> [] -> Forall has_records generation_ ->
  exists t1 t2 j,
    tournamentSelection rnd generation_ 4 i = Ok ([Some t1; Some t2], j)
    /\ t1 ∈ generation_ /\ t2 ∈ generation_
    /\ i + 4 <= j <= i + 4 * S (length generation_)
    /\ (Forall (rankable total_score) generation_ ->
        (total_score t2 <=? total_score t1)%num = true).
Proof.
  intros Hrnd Hne Hrec. unfold tournamentSelection.
  destruct (tournament_draws_members rnd Hrnd generation_ Hne Hrec 4 [] i)
    as (ts & j & E & Hts & Hlen & Hj); [constructor |].
  change (Some <$> []) with (@nil (option TraderWorker)) in E.
  rewrite (bind_ok _ _ _ _ _ E).
  assert (Hts_rec : Forall has_records ts).
  { eapply Forall_impl; [exact Hts |]. intros t Ht.
    rewrite Forall_forall in Hrec. by apply Hrec. }
  destruct (js_sort_undef_defined ts Hts_rec) as (s & Es & Hperm & Esort).
  unfold bind, lift. rewrite Es.
  assert (Hs : Forall (fun t => t ∈ generation_) s) by (by rewrite Hperm).
  pose proof (Permutation_length Hperm) as Hl. rewrite Hlen in Hl.
  destruct s as [|t1 [|t2 [|t3 [|t4 [|]]]]]; try discriminate Hl.
  exists t1, t2, j. cbn. split; [done |].
  apply Forall_cons in Hs as [H1 Hs]. apply Forall_cons in Hs as [H2 _].
  split; [exact H1 |]. split; [exact H2 |]. split; [lia |].
  intros Hrank.
  assert (Hrank_ts : Forall (rankable total_score) ts).
  { eapply Forall_impl; [exact Hts |]. intros t Ht.
    rewrite Forall_forall in Hrank. by apply Hrank. }
  rewrite (js_sort_pure ts Hrank_ts) in Esort. injection Esort as Esort.
  pose proof (sort_by_ranked total_score ts Hrank_ts) as Hsorted. rewrite Esort in Hsorted.
  apply StronglySorted_inv in Hsorted as [_ Hall]. apply List.Forall_cons_iff in Hall as [H21 _].
  rewrite Forall_forall in Hrank.
  apply before_false_leb; [by apply Hrank | by apply Hrank | exact H21].
Qed.

Lemma tournament_parents_witness :
  exists t1 t2 j,
    tournamentSelection halves tied_generation 4 0 = Ok ([Some t1; Some t2], j)
    /\ t1 ∈ tied_generation /\ t2 ∈ tied_generation
    /\ 0 + 4 <= j <= 0 + 4 * S (length tied_generation)
    /\ (Forall (rankable total_score) tied_generation ->
        (total_score t2 <=? total_score t1)%num = true).
Proof.
  apply (tournament_parents halves tied_generation 0).
  - intros n. split; vm_compute; [discriminate | reflexivity].
  - discriminate.
  - repeat (apply Forall_cons_2; [eexists; split; [reflexivity | discriminate] |]).
    apply Forall_nil_2.
Defined.

Section SameDraw.

Variable c : Q.
Hypothesis c_unit : (0 <= c)%Q /\ (c < 1)%Q.
Variable generation_ : list TraderWorker.
Hypothesis populated : generation_ <> [].
Hypothesis evaluated_all : Forall has_records generation_.

Local Abbreviation always := (fun _ : nat => c).

Lemma always_unit : unit_interval always.
Proof. intros n. exact c_unit. Qed.

Lemma draw_always (i : nat) :
  draw always generation_ i
  = match draw always generation_ 0 with
    | Ok (o, _) => Ok (o, S i)
    | Throw e => Throw e
    end.
Proof. reflexivity. Qed.

Lemma redraw_always (ts : list TraderWorker) (t : TraderWorker) (fuel : nat) :
  Forall has_records ts ->
  draw always generation_ 0 = Ok (Some t, 1) ->
  forall i, exists j,
    redraw always fuel generation_ (Some <$> ts) (Some t) i = Ok (Some t, j).
Proof.
  intros Hts Hd. assert (Ht : has_records t).
  { destruct (draw_member always always_unit generation_ populated evaluated_all 0)
      as (t' & E & Ht').
    rewrite Hd in E. injection E as <-.
    by apply (member_has_records generation_ evaluated_all). }
  induction fuel as [|fuel IH]; intros i; cbn [redraw]; [by exists i |].
  destruct (getFitness_has_records t Ht) as [f Hf].
  unfold bind at 1, lift at 1. cbn [getFitness_undef deref res_bind]. rewrite Hf.
  destruct (checkSameFitness_returns ts f Hts) as [b Hb].
  unfold bind at 1, lift at 1. rewrite Hb. destruct b; [| by exists i].
  unfold bind at 1. rewrite draw_always, Hd. apply IH.
Qed.

End SameDraw.

(** [tournamentSelection] does not keep the two parents apart: when the
    random source keeps answering the same number, every draw and every
    retry picks the same individual, and both parents are that
    individual. *)
Theorem tournament_same_parent (c : Q) (generation_ : list TraderWorker) (i : nat) :
  (0 <= c)%Q /\ (c < 1)%Q -> generation_ <> [] -> Forall has_records generation_ ->
  exists t j,
    t ∈ generation_
    /\ tournamentSelection (fun _ => c) generation_ 4 i = Ok ([Some t; Some t], j).
Proof.
  intros Hc Hne Hrec.
  destruct (draw_member _ (always_unit c Hc) generation_ Hne Hrec 0) as (t & Ed & Ht).
  assert (Htr : has_records t) by (by apply (member_has_records generation_ Hrec)).
  assert (Hstep : forall (ts : list TraderWorker) (p i : nat) k,
             Forall has_records ts ->
             (forall j, exists j',
                 tournament_draws (fun _ => c) p generation_ (Some <$> (ts ++ [t])) j
                 = Ok (k, j')) ->
             exists j',
               tournament_draws (fun _ => c) (S p) generation_ (Some <$> ts) i = Ok (k, j')).
  { intros ts p i0 k Hts Hnext. cbn [tournament_draws].
    unfold bind at 1. rewrite (draw_always c generation_ i0), Ed.
    destruct (redraw_always c Hc generation_ Hne Hrec ts t (length generation_) Hts Ed (S i0))
      as [j1 Er].
    unfold bind at 1. rewrite Er. rewrite <- fmap_snoc. apply Hnext. }
  exists t. unfold tournamentSelection.
  assert (Hdraws : exists j, tournament_draws (fun _ => c) 4 generation_ [] i
                             = Ok (Some <$> [t; t; t; t], j)).
  { apply (Hstep [] 3 i); [constructor |]. intros j1.
    apply (Hstep [t] 2 j1); [by repeat constructor |]. intros j2.
    apply (Hstep [t; t] 1 j2); [by repeat constructor |]. intros j3.
    apply (Hstep [t; t; t] 0 j3); [by repeat constructor |]. intros j4.
    by exists j4. }
  destruct Hdraws as [j Hdraws]. exists j. split; [exact Ht |].
  rewrite (bind_ok _ _ _ _ _ Hdraws).
  destruct (getFitness_has_records t Htr) as [f Hf].
  unfold bind, lift, js_sort_undef. cbn. unfold byFitness. rewrite Hf. cbn.
  change (f - f <? Fin 0)%num with (before f f). rewrite before_irrefl. cbn.
  rewrite Hf. cbn. change (f - f <? Fin 0)%num with (before f f). rewrite before_irrefl.
  cbn. rewrite Hf. cbn. change (f - f <? Fin 0)%num with (before f f).
  rewrite before_irrefl. cbn. reflexivity.
Qed.

Lemma tournament_same_parent_witness :
  exists t j,
    t ∈ tied_generation
    /\ tournamentSelection (fun _ => (1 # 2)%Q) tied_generation 4 0
       = Ok ([Some t; Some t], j).
Proof.
  apply (tournament_same_parent (1 # 2) tied_generation 0).
  - split; vm_compute; [discriminate | reflexivity].
  - discriminate.
  - repeat (apply Forall_cons_2; [eexists; split; [reflexivity | discriminate] |]).
    apply Forall_nil_2.
Defined.

(** ** The Sharpe ratio of trades that all made the same profit *)

Lemma fold_add_replicate {A} (f : A -> num) (x : A) (d : Q) (n : nat) :
  f x = Fin d ->
  forall a, exists q,
    fold_left (fun sum t => sum + f t)%num (replicate n x) (Fin a) = Fin q
    /\ (q == a + inject_Z (Z.of_nat n) * d)%Q.
Proof.
  intros Hf. induction n as [|n IH]; intros a; cbn [replicate fold_left].
  - exists a. split; [done |]. cbn. ring.
  - rewrite Hf. cbn [add]. unfold fin.
    destruct (IH (Qred (a + d))) as (q & -> & Hq). exists q. split; [done |].
    rewrite Hq, Qred_correct, Nat2Z.inj_succ, <- Z.add_1_r, inject_Z_plus. ring.
Qed.

Lemma Qcompare_shift (x p c : Q) : (x == p - c)%Q -> (x ?= 0)%Q = (p ?= c)%Q.
Proof.
  intros Hx. destruct (p ?= c)%Q eqn:E.
  - apply Qeq_alt in E. apply Qeq_alt. lra.
  - apply Qlt_alt in E. apply -> Qlt_alt. lra.
  - apply Qgt_alt in E. apply -> Qgt_alt. lra.
Qed.

(** With a standard deviation of zero the ratio is a division by zero:
    plus or minus infinity, or NaN when the common profit is exactly the
    0.5 % the mean is compared with. *)
Lemma calcSharpeRatio_equal_profits `{rt : JsRuntime} (n : nat) (p : Q) :
  calcSharpeRatio (replicate (S n) (mkTrade (Fin p))) = inf_of (p ?= 0.005)%Q.
Proof.
  unfold calcSharpeRatio. rewrite length_replicate.
  set (N := inject_Z (Z.of_nat (S n))).
  assert (HN : (0 < N)%Q) by (unfold N; rewrite <- (Zlt_Qlt 0); lia).
  assert (HN0 : Qeq_bool N 0 = false).
  { apply not_true_is_false. intros H. apply Qeq_bool_eq in H. lra. }
  destruct (fold_add_replicate orderProfit (mkTrade (Fin p)) p (S n) eq_refl 0)
    as (s & -> & Hs). fold N in Hs.
  unfold of_nat, of_Z. fold N. cbn [div]. rewrite HN0. unfold fin.
  set (m := Qred (s / N)).
  assert (Hm : (m == p)%Q) by (unfold m; rewrite Qred_correct, Hs; field; lra).
  set (sq := fun t : PortfolioTrade =>
               ((orderProfit t - Fin m) * (orderProfit t - Fin m))%num).
  assert (Hsq : exists d, sq (mkTrade (Fin p)) = Fin d /\ (d == 0)%Q).
  { eexists. split; [reflexivity |]. rewrite !Qred_correct, Hm. ring. }
  destruct Hsq as (d & Hsq & Hd).
  destruct (fold_add_replicate sq (mkTrade (Fin p)) d (S n) Hsq 0) as (s2 & Es2 & Hs2).
  fold N in Hs2. unfold sq in Es2. rewrite Es2. cbn [div]. rewrite HN0. unfold fin.
  assert (Hzero : (Qred (s2 / N) ?= 0)%Q = Eq).
  { apply Qeq_alt. rewrite Qred_correct, Hs2, Hd. field. lra. }
  unfold Math_sqrt. rewrite Hzero. cbn.
  f_equal. apply Qcompare_shift. rewrite !Qred_correct, Hm. reflexivity.
Qed.



(** ** The ranges of a fitness record *)

Lemma ratio_unit (k n : nat) :
  k <= n -> 0 < n -> within 0 1 (of_nat k / of_nat n)%num.
Proof.
  intros Hk Hn. unfold of_nat, of_Z. cbn [div].
  assert (HN : (0 < inject_Z (Z.of_nat n))%Q) by (rewrite <- (Zlt_Qlt 0); lia).
  assert (HK : (0 <= inject_Z (Z.of_nat k))%Q) by (rewrite <- (Zle_Qle 0); lia).
  assert (HKN : (inject_Z (Z.of_nat k) <= inject_Z (Z.of_nat n))%Q)
    by (rewrite <- Zle_Qle; lia).
  destruct (Qeq_bool (inject_Z (Z.of_nat n)) 0) eqn:E;
    [apply Qeq_bool_eq in E; lra |].
  eexists. split; [reflexivity |]. rewrite Qred_correct. split.
  - apply Qle_shift_div_l; [exact HN | lra].
  - apply Qle_shift_div_r; [exact HN | lra].
Qed.

Lemma floor_cases (x : num) :
  floor x = NaN \/ floor x = PInf \/ floor x = NInf \/ exists z, floor x = of_Z z.
Proof. destruct x; cbn; eauto. Qed.

(** The trade frequency for [n] trades and a budget of [floor x] trades. *)
Lemma frequency_cases (n : nat) (x : num) :
  let limit := floor x in
  let tf := if (of_nat n >? limit)%num then Fin 1 else (of_nat n / limit)%num in
  (tf = NaN \/ within 0 1 tf)
  /\ (tf = NaN <-> limit = NaN \/ (limit = Fin 0 /\ n = 0)).
Proof.
  intros limit tf. subst tf.
  destruct (floor_cases x) as [H | [H | [H | [z H]]]]; fold limit in H; rewrite H.
  - cbn. split; [by left |]. split; [by left | done].
  - cbn. split; [right; exists 0%Q; split; [done | split; discriminate] |].
    split; [discriminate | intros [? | [? _]]; discriminate].
  - cbn. split; [right; exists 1%Q; split; [done | split; discriminate] |].
    split; [discriminate | intros [? | [? _]]; discriminate].
  - unfold gtb, of_nat, of_Z. cbn [ltb].
    destruct (Qle_bool (inject_Z (Z.of_nat n)) (inject_Z z)) eqn:Hle; cbn [negb].
    + apply Qle_bool_iff in Hle. rewrite <- Zle_Qle in Hle. cbn [div].
      destruct (Qeq_bool (inject_Z z) 0) eqn:Hz.
      * apply Qeq_bool_eq in Hz. change 0%Q with (inject_Z 0) in Hz.
        assert (z = 0%Z) as -> by (by apply inject_Z_injective).
        assert (n = 0) as -> by lia.
        cbn. split; [by left |]. split; [intros _; by right | done].
      * assert (z <> 0%Z) by (intros ->; discriminate Hz).
        split.
        -- right.
           assert (HZ : (0 < inject_Z z)%Q) by (rewrite <- (Zlt_Qlt 0); lia).
           assert (HN : (0 <= inject_Z (Z.of_nat n))%Q) by (rewrite <- (Zle_Qle 0); lia).
           assert (HNZ : (inject_Z (Z.of_nat n) <= inject_Z z)%Q)
             by (rewrite <- Zle_Qle; lia).
           eexists. split; [reflexivity |]. rewrite Qred_correct. split.
           ++ apply Qle_shift_div_l; [exact HZ | lra].
           ++ apply Qle_shift_div_r; [exact HZ | lra].
        -- split; [discriminate |].
           intros [? | [Hlim _]]; [discriminate |]. injection Hlim as Hlim. lia.
    + split; [right; exists 1%Q; split; [done | split; discriminate] |].
      split; [discriminate |]. intros [? | [Hlim Hn]]; [discriminate |].
      injection Hlim as ->. subst n. discriminate Hle.
Qed.



(** ** The statistics of a checkpoint *)

Lemma leb_refl (x : num) : is_nan x = false -> (x <=? x)%num = true.
Proof. destruct x; try done. intros _. apply Qle_bool_iff. lra. Qed.

Lemma leb_trans (x y z : num) :
  (x <=? y)%num = true -> (y <=? z)%num = true -> (x <=? z)%num = true.
Proof.
  destruct x as [a| | |], y as [b| | |], z as [c| | |]; try done. cbn.
  rewrite !Qle_bool_iff. lra.
Qed.

Lemma leb_not_nan (x y : num) :
  (x <=? y)%num = true -> is_nan x = false /\ is_nan y = false.
Proof. by destruct x, y. Qed.

Lemma gtb_false_leb (x m : num) :
  is_nan x = false -> is_nan m = false -> (x >? m)%num = false -> (x <=? m)%num = true.
Proof.
  destruct x as [a| | |], m as [b| | |]; try done. cbn.
  intros _ _ H. by apply negb_false_iff in H.
Qed.

Lemma gtb_true_leb (x m : num) : (x >? m)%num = true -> (m <=? x)%num = true.
Proof.
  destruct x as [a| | |], m as [b| | |]; try done. cbn.
  intros H. apply negb_true_iff in H. apply Qle_bool_iff.
  destruct (Qlt_le_dec a b) as [Hlt | Hle]; [| exact Hle].
  apply Qlt_le_weak, Qle_bool_iff in Hlt. congruence.
Qed.

Lemma leb_NInf (x : num) : (x <=? NInf)%num = true -> x = NInf.
Proof. by destruct x. Qed.

Lemma leb_PInf (x : num) : (PInf <=? x)%num = true -> x = PInf.
Proof. by destruct x. Qed.

Local Abbreviation numbers xs := (Forall (fun x : num => is_nan x = false) xs).

Lemma max_fold (xs : list num) :
  forall m,
    numbers xs -> is_nan m = false ->
    let r := fold_left (fun m x => if is_nan m || is_nan x then NaN
                                   else if (x >? m)%num then x else m) xs m in
    (r = m \/ r ∈ xs) /\ (m <=? r)%num = true
    /\ Forall (fun x => (x <=? r)%num = true) xs.
Proof.
  induction xs as [|x xs IH]; intros m Hxs Hm; cbn [fold_left].
  - split; [by left |]. split; [by apply leb_refl | constructor].
  - apply Forall_cons in Hxs as [Hx Hxs]. rewrite Hm, Hx. cbn [orb].
    destruct (x >? m)%num eqn:Hgt.
    + destruct (IH x Hxs Hx) as (Hin & Hle & Hall). cbv zeta in *.
      split; [right; destruct Hin as [-> | Hin]; [left | by right] |].
      split; [eapply leb_trans; [by apply gtb_true_leb | exact Hle] |].
      by constructor.
    + destruct (IH m Hxs Hm) as (Hin & Hle & Hall). cbv zeta in *.
      split; [destruct Hin as [-> | Hin]; [by left | right; by right] |].
      split; [exact Hle |]. constructor; [| exact Hall].
      eapply leb_trans; [by apply gtb_false_leb | exact Hle].
Qed.

Lemma min_fold (xs : list num) :
  forall m,
    numbers xs -> is_nan m = false ->
    let r := fold_left (fun m x => if is_nan m || is_nan x then NaN
                                   else if (x <? m)%num then x else m) xs m in
    (r = m \/ r ∈ xs) /\ (r <=? m)%num = true
    /\ Forall (fun x => (r <=? x)%num = true) xs.
Proof.
  induction xs as [|x xs IH]; intros m Hxs Hm; cbn [fold_left].
  - split; [by left |]. split; [by apply leb_refl | constructor].
  - apply Forall_cons in Hxs as [Hx Hxs]. rewrite Hm, Hx. cbn [orb].
    destruct (x <? m)%num eqn:Hlt.
    + destruct (IH x Hxs Hx) as (Hin & Hle & Hall). cbv zeta in *.
      split; [right; destruct Hin as [-> | Hin]; [left | by right] |].
      split; [eapply leb_trans; [exact Hle | by apply (gtb_true_leb m x)] |].
      by constructor.
    + destruct (IH m Hxs Hm) as (Hin & Hle & Hall). cbv zeta in *.
      split; [destruct Hin as [-> | Hin]; [by left | right; by right] |].
      split; [exact Hle |]. constructor; [| exact Hall].
      eapply leb_trans; [exact Hle | by apply (gtb_false_leb m x)].
Qed.

(** [Math.max(...xs)] and [Math.min(...xs)] of numbers: attained and
    bounding. *)
Lemma Math_max_spec (xs : list num) :
  xs <> [] -> numbers xs ->
  Math_max xs ∈ xs /\ Forall (fun x => (x <=? Math_max xs)%num = true) xs.
Proof.
  intros Hne Hxs. destruct (max_fold xs NInf Hxs eq_refl) as (Hin & _ & Hall).
  cbv zeta in *. fold (Math_max xs) in Hin, Hall. split; [| exact Hall].
  destruct Hin as [Hr | Hin]; [| exact Hin]. destruct xs as [|x xs]; [done |].
  apply Forall_cons in Hall as [Hx _]. rewrite Hr in Hx. apply leb_NInf in Hx.
  rewrite Hr, <- Hx. by left.
Qed.

Lemma Math_min_spec (xs : list num) :
  xs <> [] -> numbers xs ->
  Math_min xs ∈ xs /\ Forall (fun x => (Math_min xs <=? x)%num = true) xs.
Proof.
  intros Hne Hxs. destruct (min_fold xs PInf Hxs eq_refl) as (Hin & _ & Hall).
  cbv zeta in *. fold (Math_min xs) in Hin, Hall. split; [| exact Hall].
  destruct Hin as [Hr | Hin]; [| exact Hin]. destruct xs as [|x xs]; [done |].
  apply Forall_cons in Hall as [Hx _]. rewrite Hr in Hx. apply leb_PInf in Hx.
  rewrite Hr, <- Hx. by left.
Qed.

Lemma mapM_total_score (g : list TraderWorker) :
  Forall (rankable total_score) g ->
  mapM (fun t => getFitness t KTotal) g = Ok (map total_score g).
Proof.
  induction 1 as [|t g Ht _ IH]; cbn; [done |].
  by rewrite (getFitness_total_score t Ht), IH.
Qed.

Lemma ranked_descending (g : list TraderWorker) :
  Forall (rankable total_score) g -> ranked total_score g ->
  StronglySorted (fun t u => (total_score u <=? total_score t)%num = true) g.
Proof.
  intros Hg Hr. induction Hr as [|t g Hr IH Hall]; [constructor |].
  apply Forall_cons in Hg as [Ht Hg]. constructor; [by apply IH |].
  rewrite Forall_forall in Hg. rewrite List.Forall_forall in Hall.
  apply List.Forall_forall. intros u Hu.
  apply before_false_leb; [apply Hg; by apply list_elem_of_In | exact Ht | by apply Hall].
Qed.

(** The checkpoint of a generation whose aggregate totals are numbers lists
    the individuals from the greatest total to the least; its [max] and
    [min] are totals of individuals of the generation and bound every
    total. *)
Theorem checkpoint_statistics (ws : list TraderWorker) :
  ws <> [] ->
  Forall (fun t => exists f, getFitness t KTotal = Ok f /\ is_nan f = false) ws ->
  exists g ck,
    checkpoint ws = Ok (g, ck)
    /\ g ≡ₚ ws
    /\ ck_gen ck = map (fun t => (name (config t), fitnesses t, stratOpts (config t))) g
    /\ StronglySorted (fun t u => (total_score u <=? total_score t)%num = true) g
    /\ (exists t, t ∈ ws /\ ck_max ck = total_score t)
    /\ (exists t, t ∈ ws /\ ck_min ck = total_score t)
    /\ (forall t, t ∈ ws ->
          (ck_min ck <=? total_score t)%num = true
          /\ (total_score t <=? ck_max ck)%num = true).
Proof.
  intros Hne Hws.
  assert (Hrank : Forall (rankable total_score) ws).
  { eapply Forall_impl; [exact Hws |]. intros t Ht. by apply rankable_total. }
  assert (Hrec : Forall has_records ws).
  { eapply Forall_impl; [exact Hws |]. intros t (f & Hf & Hnan). unfold getFitness in Hf.
    destruct (fitnesses t) as [l|] eqn:Hl; [| discriminate]. exists l. split; [done |].
    intros ->. cbn in Hf. injection Hf as <-. discriminate. }
  destruct (checkpoint_returns ws Hne Hrec) as (g & ck & E & Hperm & Hgen).
  exists g, ck. split; [exact E |]. split; [exact Hperm |]. split; [exact Hgen |].
  unfold checkpoint in E. rewrite (js_sort_pure ws Hrank) in E. cbn [res_bind] in E.
  assert (Hsorted : Forall (rankable total_score) (sort_by total_score ws))
    by (by rewrite sort_by_perm).
  rewrite (mapM_total_score _ Hsorted) in E. cbn [res_bind] in E.
  destruct (mapM _ (sort_by total_score ws)) as [ys|]; cbn [res_bind] in E; [| discriminate].
  destruct (mean _) as [m|]; cbn [res_bind] in E; [| discriminate].
  injection E as <- <-. cbn [ck_max ck_min].
  split; [apply ranked_descending; [exact Hsorted | by apply sort_by_ranked] |].
  set (fits := map total_score (sort_by total_score ws)).
  assert (Hfits_ne : fits <> []).
  { subst fits. intros H. apply fmap_nil_inv in H.
    apply Hne. apply Permutation_nil_r. by rewrite <- H, sort_by_perm. }
  assert (Hfits : numbers fits).
  { subst fits. apply Forall_fmap. exact Hsorted. }
  destruct (Math_max_spec fits Hfits_ne Hfits) as [Hmax_in Hmax].
  destruct (Math_min_spec fits Hfits_ne Hfits) as [Hmin_in Hmin].
  assert (Hmember : forall x, x ∈ fits -> exists t, t ∈ ws /\ x = total_score t).
  { intros x Hx. subst fits. apply list_elem_of_fmap in Hx as (t & -> & Ht).
    exists t. split; [by rewrite <- (sort_by_perm total_score ws) | done]. }
  split; [by apply Hmember |]. split; [by apply Hmember |].
  intros t Ht. assert (Hin : total_score t ∈ fits).
  { subst fits. apply list_elem_of_fmap. exists t.
    split; [done | by rewrite sort_by_perm]. }
  rewrite Forall_forall in Hmax, Hmin. split; [by apply Hmin | by apply Hmax].
Qed.

Lemma checkpoint_statistics_witness :
  exists g ck,
    checkpoint tied_generation = Ok (g, ck)
    /\ g ≡ₚ tied_generation
    /\ ck_gen ck = map (fun t => (name (config t), fitnesses t, stratOpts (config t))) g
    /\ StronglySorted (fun t u => (total_score u <=? total_score t)%num = true) g
    /\ (exists t, t ∈ tied_generation /\ ck_max ck = total_score t)
    /\ (exists t, t ∈ tied_generation /\ ck_min ck = total_score t)
    /\ (forall t, t ∈ tied_generation ->
          (ck_min ck <=? total_score t)%num = true
          /\ (total_score t <=? ck_max ck)%num = true).
Proof.
  apply (checkpoint_statistics tied_generation); [discriminate |].
  repeat constructor; eexists; split; reflexivity.
Defined.

(** ** The names of a bred generation *)

Section Names.

Context `{rt : JsRuntime}.
Variable eng : Engine.
Variable rnd : nat -> Q.

Lemma breed_one_name (tc : TraderConfig) (g : list TraderWorker) (opts : GeneticOpts)
    (gen ind i j : nat) (w : TraderWorker) :
  breed_one eng rnd tc g opts gen ind i = Ok (w, j) ->
  name (config w) = worker_name tc gen ind.
Proof.
  unfold breed_one. intros E. apply bind_inv in E as (r & i1 & _ & E).
  destruct (r <? Fin 0.6)%num.
  - apply bind_inv in E as (ps & i2 & _ & E). apply bind_inv in E as (t2 & i3 & _ & E).
    apply bind_inv in E as (t1 & i4 & _ & E). unfold crossover in E.
    apply bind_inv in E as (o1 & i5 & _ & E). apply bind_inv in E as (r' & i6 & _ & E).
    by apply bind_inv in E as (o2 & i7 & _ & [= <- _]).
  - destruct (r <? Fin 0.9)%num.
    + apply bind_inv in E as (k & i2 & _ & E). apply bind_inv in E as (t & i3 & _ & E).
      unfold mutate in E. by apply bind_inv in E as (o & i4 & _ & [= <- _]).
    + by eapply randomIndiv_name.
Qed.

Lemma fill_names (fuel : nat) :
  forall (tc : TraderConfig) (g : list TraderWorker) (opts : GeneticOpts) (gen : nat)
         (acc new : list TraderWorker) (i j : nat),
    fill eng rnd fuel tc g opts gen acc i = Ok (new, j) ->
    exists children,
      new = acc ++ children
      /\ names children = map (worker_name tc gen) (seq (length acc) fuel).
Proof.
  induction fuel as [|fuel IH]; intros tc g opts gen acc new i j; cbn [fill].
  - intros [= <- _]. exists []. by rewrite app_nil_r.
  - intros E. apply bind_inv in E as (child & i1 & Hc & E).
    apply breed_one_name in Hc. apply IH in E as (children & -> & Hn).
    exists (child :: children). split; [by rewrite <- app_assoc |].
    rewrite length_app in Hn. cbn [length] in Hn. rewrite Nat.add_1_r in Hn.
    change (names (child :: children)) with (name (config child) :: names children).
    rewrite Hc, Hn. reflexivity.
Qed.

End Names.

(** A generation bred from the previous one starts with the leading
    [elitism] individuals of the ranking, under the names they have; every
    individual after them is new and named [<name>-gen<gen>-ind<k>] after
    its position [k] in the generation, whichever of crossover, mutation and
    random sampling made it. *)
Theorem breedNewGeneration_names `{rt : JsRuntime} (eng : Engine) (rnd : nat -> Q)
    (tc : TraderConfig) (previous new : list TraderWorker) (opts : GeneticOpts)
    (gen i j : nat) :
  breedNewGeneration eng rnd tc previous opts gen i = Ok (new, j) ->
  exists ranked_ children,
    rank previous = Ok ranked_
    /\ new = slice0 ranked_ (elitism opts) ++ children
    /\ Forall fresh children
    /\ forall k w,
         length (slice0 ranked_ (elitism opts)) <= k -> new !! k = Some w ->
         name (config w) = worker_name tc gen k.
Proof.
  intros E. pose proof E as Eshape.
  apply breedNewGeneration_shape in Eshape as (ranked_ & children & Hr & Hnew & Hfresh).
  exists ranked_, children. split; [exact Hr |]. split; [exact Hnew |].
  split; [exact Hfresh |].
  unfold breedNewGeneration in E. apply bind_inv in E as (ranked' & i1 & Hr' & E).
  apply lift_inv in Hr' as [Hr' _]. rewrite Hr in Hr'. injection Hr' as <-.
  apply fill_names in E as (children' & Hnew' & Hnames).
  rewrite Hnew in Hnew'. apply app_inv_head in Hnew' as <-.
  intros k w Hk Hw. rewrite Hnew, lookup_app_r in Hw by exact Hk.
  set (e := length (slice0 ranked_ (elitism opts))) in *.
  assert (Hname : names children !! (k - e) = Some (name (config w))).
  { unfold names. by rewrite list_lookup_fmap, Hw. }
  rewrite Hnames, list_lookup_fmap in Hname.
  destruct (seq e _ !! (k - e)) as [k'|] eqn:Hseq; [| discriminate].
  apply lookup_seq in Hseq as [-> _]. injection Hname as <-. f_equal. lia.
Qed.

Lemma breedNewGeneration_names_witness :
  exists new j ranked_ children,
    breedNewGeneration (rt := example_runtime) quiet_engine halves (config_x 3)
      tied_generation opts_carry 1 0 = Ok (new, j)
    /\ rank tied_generation = Ok ranked_
    /\ new = slice0 ranked_ (elitism opts_carry) ++ children
    /\ Forall fresh children
    /\ forall k w,
         length (slice0 ranked_ (elitism opts_carry)) <= k -> new !! k = Some w ->
         name (config w) = worker_name (config_x 3) 1 k.
Proof.
  destruct (breedNewGeneration (rt := example_runtime) quiet_engine halves (config_x 3)
              tied_generation opts_carry 1 0) as [[new j]|e] eqn:E;
    [| vm_compute in E; discriminate].
  destruct (breedNewGeneration_names (rt := example_runtime) quiet_engine halves
              (config_x 3) tied_generation new opts_carry 1 0 j E)
    as (ranked_ & children & H).
  exists new, j, ranked_, children. split; [reflexivity | exact H].
Defined.

(** ** A gene the parent has no value for *)

Lemma forEach_keeps {A S} (Inv : S -> Prop) (body : A -> S -> Gen S) (xs : list A) :
  (forall x s i s' j, x ∈ xs -> Inv s -> body x s i = Ok (s', j) -> Inv s') ->
  forall s i s' j, Inv s -> forEach xs body s i = Ok (s', j) -> Inv s'.
Proof.
  induction xs as [|x xs IH]; intros Hbody s i s' j Hs; cbn [forEach].
  - by intros [= <- _].
  - intros E. apply bind_inv in E as (s1 & i1 & E1 & E).
    eapply (IH (fun y s i s' j Hy => Hbody y s i s' j (list_elem_of_further _ _ _ Hy)));
      [| exact E].
    eapply Hbody; [by left | exact Hs | exact E1].
Qed.

(** [mutate] on a parent that has no value under the key of a numeric gene:
    [undefined + diff] is NaN, no comparison of the clamp holds, and the
    child has NaN for the gene when the gene was mutated and no value when
    it was not. *)
Theorem mutate_missing_key `{rt : JsRuntime} (eng : Engine) (rnd : nat -> Q)
    (tc : TraderConfig) (parent : TraderWorker) (opts : GeneticOpts)
    (gen ind i j : nat) (g : Gene) (w : TraderWorker) :
  NoDup (key <$> genes opts) -> g ∈ genes opts -> list_ g = None ->
  stratOpts (config parent) !! key g = None ->
  mutate eng rnd tc parent opts gen ind i = Ok (w, j) ->
  stratOpts (config w) !! key g = None
  \/ stratOpts (config w) !! key g = Some (VNum NaN).
Proof.
  intros Hnd Hg Hl Hmiss. unfold mutate. intros E.
  apply bind_inv in E as (o & i1 & E & [= <- _]). cbn.
  refine (forEach_keeps (fun o => o !! key g = None \/ o !! key g = Some (VNum NaN))
            _ _ _ _ _ _ _ (or_introl Hmiss) E).
  intros g' s k s' k' Hg' Hs. unfold mutate_gene. intros Eg.
  apply bind_inv in Eg as (r & k1 & _ & Eg).
  destruct (r <=? mutationRate opts)%num; [| by injection Eg as <- _].
  destruct (decide (key g' = key g)) as [Hk | Hk].
  - assert (g' = g) as -> by (by eapply key_injective).
    rewrite Hl in Eg. apply bind_inv in Eg as (d & k2 & _ & Eg).
    apply bind_inv in Eg as (m & k3 & _ & Eg). unfold get in Eg. rewrite Hmiss in Eg.
    cbn in Eg. assert (Hnan : (NaN >? max g)%num = false) by (by destruct (max g)).
    rewrite Hnan in Eg. right. destruct (integer g); injection Eg as <- _;
      by rewrite lookup_insert_eq.
  - assert (Hframe : forall v, <[key g' := v]> s !! key g = s !! key g)
      by (intros v; by apply lookup_insert_ne).
    destruct (list_ g').
    + apply bind_inv in Eg as (v & k2 & _ & [= <- _]). by rewrite Hframe.
    + apply bind_inv in Eg as (d & k2 & _ & Eg).
      apply bind_inv in Eg as (m & k3 & _ & [= <- _]). by rewrite Hframe.
Qed.

Lemma mutate_missing_key_witness :
  exists w j,
    mutate (rt := example_runtime) quiet_engine halves base_config
      (new_worker "ema-gen0-ind0") (opts_x (Fin 1)) 1 1 0 = Ok (w, j)
    /\ (stratOpts (config w) !! key gene_x = None
        \/ stratOpts (config w) !! key gene_x = Some (VNum NaN)).
Proof.
  destruct (mutate (rt := example_runtime) quiet_engine halves base_config
              (new_worker "ema-gen0-ind0") (opts_x (Fin 1)) 1 1 0)
    as [[w j]|e] eqn:E; [| vm_compute in E; discriminate].
  exists w, j. split; [reflexivity |].
  apply (mutate_missing_key (rt := example_runtime) quiet_engine halves base_config
           (new_worker "ema-gen0-ind0") (opts_x (Fin 1)) 1 1 0 j gene_x w);
    [by apply NoDup_singleton | by left | reflexivity | | exact E].
  vm_compute. reflexivity.
Defined.

(** * The candle sets *)

(** ** The map of the markets *)

Section Markets.

Import CandleSet.
Context `{rt : JsRuntime} `{aggOps : CandlesAggOps}.

Lemma market_get_set (m : Markets) (s s' : string) (e : entry) :
  market_get (market_set m s e) s' = if decide (s = s') then Some e else market_get m s'.
Proof.
  induction m as [|[k e'] m IH]; cbn.
  - destruct (decide (s = s')); reflexivity.
  - destruct (decide (k = s)) as [-> | Hks]; cbn.
    + destruct (decide (s = s')); reflexivity.
    + destruct (decide (k = s')) as [-> | Hks'].
      * destruct (decide (s = s')); [congruence | reflexivity].
      * exact IH.
Qed.

Lemma keys_set_present (m : Markets) (s : string) (e : entry) :
  market_get m s <> None -> map fst (market_set m s e) = map fst m.
Proof.
  induction m as [|[k e'] m IH]; cbn; [done |].
  destruct (decide (k = s)); cbn; [done |]. intros H. by rewrite IH.
Qed.

Lemma keys_set_absent (m : Markets) (s : string) (e : entry) :
  market_get m s = None -> map fst (market_set m s e) = map fst m ++ [s].
Proof.
  induction m as [|[k e'] m IH]; cbn; [done |].
  destruct (decide (k = s)); cbn; [done |]. intros H. by rewrite IH.
Qed.

Lemma market_get_keys (m : Markets) (s : string) :
  market_get m s = None <-> s ∉ map fst m.
Proof.
  induction m as [|[k e] m IH]; cbn.
  - split; [intros _; apply not_elem_of_nil | done].
  - rewrite not_elem_of_cons. destruct (decide (k = s)) as [-> | Hk].
    + split; [done | by intros [? _]].
    + rewrite IH. split; [by split | by intros [_ ?]].
Qed.

Lemma grows_refl (cs : CandleSet) : grows cs cs.
Proof. by repeat split. Qed.

Lemma grows_trans (cs1 cs2 cs3 : CandleSet) :
  grows cs1 cs2 -> grows cs2 cs3 -> grows cs1 cs3.
Proof.
  intros (Hc & Hp & Hk & Hn) (Hc' & Hp' & Hk' & Hn').
  split; [congruence |]. split; [congruence |].
  split; [by etrans | auto].
Qed.

Lemma grows_set (cs : CandleSet) (s : string) (e : entry) :
  grows cs (set_markets cs (market_set (marketCandles cs) s e)).
Proof.
  split; [done |]. split; [done |]. unfold market_keys. cbn.
  destruct (market_get (marketCandles cs) s) eqn:E.
  - rewrite keys_set_present by congruence. split; [done | auto].
  - rewrite keys_set_absent by exact E. split; [by apply prefix_app_r |].
    intros Hnd. apply NoDup_app. split; [exact Hnd |].
    split; [| apply NoDup_singleton].
    intros k Hk Hs. apply list_elem_of_singleton in Hs as ->.
    by apply market_get_keys in E.
Qed.

Lemma growing_sret {A} (a : A) : growing (sret a).
Proof. intros cs. apply grows_refl. Qed.

Lemma growing_slift {A} (r : res A) : growing (slift r).
Proof. intros cs. apply grows_refl. Qed.

Lemma growing_sbind {A B} (m : St A) (k : A -> St B) :
  growing m -> (forall a, growing (k a)) -> growing (sbind m k).
Proof.
  intros Hm Hk cs. unfold sbind. specialize (Hm cs).
  destruct (m cs) as [[a|e] cs1]; cbn in Hm; [| exact Hm].
  eapply grows_trans; [exact Hm | apply Hk].
Qed.

Lemma growing_for_each {A} (xs : list A) (body : A -> St unit) :
  (forall x, growing (body x)) -> growing (for_each xs body).
Proof.
  intros Hbody. induction xs as [|x xs IH]; cbn [for_each].
  - apply growing_sret.
  - apply growing_sbind; [apply Hbody | intros _; exact IH].
Qed.

Lemma growing_getMarketCandles (s : string) (agg : option string) :
  growing (getMarketCandles s agg).
Proof.
  intros cs. unfold getMarketCandles.
  destruct (market_get (marketCandles cs) s) as [e|] eqn:E.
  - rewrite E. destruct e; apply grows_refl.
  - match goal with
    | |- context [market_set _ s ?e] => pose proof (grows_set cs s e) as H
    end.
    by destruct (market_get (marketCandles (set_markets cs _)) s) as [[]|].
Qed.

Lemma grows_write (r : ref) (l : list Candle) (cs : CandleSet) : grows cs (write r l cs).
Proof.
  unfold write. destruct (market_get (marketCandles cs) (symbol_of r)) as [[]|];
    [apply grows_set | apply grows_set | apply grows_refl].
Qed.

Lemma growing_ref_push (r : ref) (c : Candle) : growing (ref_push r c).
Proof.
  intros cs. unfold ref_push.
  destruct r; try apply grows_write.
  destruct (market_get (marketCandles cs) (symbol_of (TheAgg symbol))) as [[]|];
    cbn [snd]; [apply grows_write | apply grows_set | apply grows_write].
Qed.

Lemma growing_ref_pop (r : ref) : growing (ref_pop r).
Proof. intros cs. apply grows_write. Qed.

Lemma growing_removeDuplicates (candles : list Raw.OHLCV) (s : string) :
  growing (removeDuplicates candles s).
Proof.
  apply growing_sbind; [apply growing_getMarketCandles |]. intros r cs.
  destruct (last (read r cs)) as [newest|]; [| apply grows_refl].
  refine (growing_sbind _ _ _ _ cs); [apply growing_slift |]. intros first.
  destruct (gt_number _ _); [apply growing_sret |].
  apply growing_sbind; [| intros _; apply growing_sret].
  apply growing_for_each. intros candle cs'.
  destruct (last (read r cs')) as [n|]; [| apply grows_refl].
  destruct (same_number _ _); [| apply grows_refl].
  refine (growing_sbind _ _ _ _ cs'); [apply growing_ref_pop | intros _; apply growing_sret].
Qed.

Lemma growing_run_plugins (ps : list CandleSetPlugin) (r : ref) :
  forall c, growing (run_plugins ps r c).
Proof.
  induction ps as [|p ps IH]; intros c cs; cbn [run_plugins]; [apply grows_refl |].
  destruct (p (read r cs) c); [apply IH | apply grows_refl].
Qed.

Lemma growing_calcCandle (s : string) (candle : Raw.OHLCV) : growing (calcCandle s candle).
Proof.
  apply growing_sbind; [apply growing_getMarketCandles |]. intros r cs.
  apply growing_run_plugins.
Qed.

Lemma growing_push (candles : rows) (s : string) : growing (push candles s).
Proof.
  apply growing_sbind; [apply growing_getMarketCandles |]. intros r.
  apply growing_sbind; [apply growing_removeDuplicates |]. intros l.
  apply growing_sbind.
  - apply growing_for_each. intros candle.
    apply growing_sbind; [apply growing_calcCandle |]. intros c.
    apply growing_sbind; [apply growing_ref_push |]. intros _ cs.
    refine (growing_for_each (aggTimes (config cs)) _ _ cs). intros aggTime.
    apply growing_sbind; [apply growing_getMarketCandles | intros ra; apply growing_ref_push].
  - intros _ cs. cbv zeta. destruct (_ >? _)%num; [apply grows_write | apply grows_refl].
Qed.

End Markets.

(** ** The buffer of one market *)

Section Buffer.

Import CandleSet.
Context `{rt : JsRuntime} `{aggOps : CandlesAggOps}.

Lemma market_set_set (m : Markets) (s : string) (e e' : entry) :
  market_set (market_set m s e) s e' = market_set m s e'.
Proof.
  induction m as [|[k e0] m IH]; cbn.
  - by destruct (decide (s = s)).
  - destruct (decide (k = s)) as [-> | Hk]; cbn.
    + by destruct (decide (s = s)).
    + destruct (decide (k = s)); [done | by rewrite IH].
Qed.

(** The candle set in which the array of [s] is [l]. *)
Local Abbreviation holding cs s l := (write (TheArray s) l cs).
Local Abbreviation present cs s l :=
  (market_get (marketCandles cs) s = Some (Arr l)).

Lemma present_holding (cs : CandleSet) (s : string) (l0 l : list Candle) :
  present cs s l0 -> present (holding cs s l) s l.
Proof.
  intros H. unfold write. cbn [symbol_of]. rewrite H. cbn.
  rewrite market_get_set. by destruct (decide (s = s)).
Qed.

Lemma holding_holding (cs : CandleSet) (s : string) (l0 l l' : list Candle) :
  present cs s l0 -> holding (holding cs s l) s l' = holding cs s l'.
Proof.
  intros H. pose proof (present_holding cs s l0 l H) as H'.
  unfold write at 1. cbn [symbol_of]. rewrite H'. unfold write. cbn [symbol_of].
  rewrite H. unfold set_markets. cbn. by rewrite market_set_set.
Qed.

Lemma holding_same (cs : CandleSet) (s : string) (l : list Candle) :
  present cs s l -> marketCandles (holding cs s l) = marketCandles cs.
Proof.
  intros H. unfold write. cbn [symbol_of]. rewrite H. cbn. revert H.
  induction (marketCandles cs) as [|[k e] m IH]; cbn; [done |].
  destruct (decide (k = s)); [by intros [= ->] | intros H; by rewrite IH].
Qed.

Lemma holding_frame (cs : CandleSet) (s s' : string) (l : list Candle) :
  s' <> s ->
  market_get (marketCandles (holding cs s l)) s' = market_get (marketCandles cs) s'.
Proof.
  intros Hs. unfold write. cbn [symbol_of].
  destruct (market_get (marketCandles cs) s) as [[]|]; cbn; [| | done];
    rewrite market_get_set; by destruct (decide (s = s')).
Qed.

Lemma read_present (cs : CandleSet) (s : string) (l : list Candle) :
  present cs s l -> read (TheArray s) cs = l.
Proof. intros H. unfold read. cbn. by rewrite H. Qed.

Lemma getMarketCandles_present (cs : CandleSet) (s : string) (l : list Candle) :
  present cs s l -> getMarketCandles s None cs = (Ok (TheArray s), cs).
Proof. intros H. unfold getMarketCandles. rewrite H. cbn. by rewrite H. Qed.

(** The first [getMarketCandles] of a method: an array is there
    afterwards, with the candles that were there. *)
Lemma getMarketCandles_array (cs : CandleSet) (s : string) :
  array_at cs s ->
  exists cs0,
    getMarketCandles s None cs = (Ok (TheArray s), cs0)
    /\ present cs0 s (candles_at cs s)
    /\ config cs0 = config cs /\ plugins cs0 = plugins cs
    /\ (forall s', s' <> s ->
          market_get (marketCandles cs0) s' = market_get (marketCandles cs) s')
    /\ (market_get (marketCandles cs) s <> None -> cs0 = cs).
Proof.
  intros Harr. unfold getMarketCandles, candles_at, read. cbn [symbol_of].
  destruct (market_get (marketCandles cs) s) as [[l|a]|] eqn:E.
  - rewrite E. exists cs. by repeat split.
  - by destruct (Harr a).
  - cbn. rewrite market_get_set. destruct (decide (s = s)); [| done].
    eexists. split; [reflexivity |]. cbn. rewrite market_get_set.
    destruct (decide (s = s)); [| done]. repeat split; try done.
    intros s' Hs'. rewrite market_get_set. by destruct (decide (s = s')).
Qed.

Lemma ref_pop_present (cs : CandleSet) (s : string) (l : list Candle) :
  present cs s l ->
  ref_pop (TheArray s) cs = (Ok (last l), holding cs s (removelast l)).
Proof. intros H. unfold ref_pop. by rewrite (read_present cs s l H). Qed.

Lemma ref_push_present (cs : CandleSet) (s : string) (l : list Candle) (c : Candle) :
  present cs s l -> ref_push (TheArray s) c cs = (Ok tt, holding cs s (l ++ [c])).
Proof.
  intros H. unfold ref_push. cbn [symbol_of]. by rewrite (read_present cs s l H).
Qed.

Lemma run_plugins_present (ps : list CandleSetPlugin) (cs : CandleSet) (s : string)
    (l : list Candle) :
  present cs s l ->
  forall c, run_plugins ps (TheArray s) c cs = (with_indicators ps l c, cs).
Proof.
  intros H. induction ps as [|p ps IH]; intros c; cbn; [done |].
  rewrite (read_present cs s l H). destruct (p l c); cbn; [apply IH | done].
Qed.

Lemma calcCandle_present (cs : CandleSet) (s : string) (l : list Candle)
    (row : Raw.OHLCV) :
  present cs s l ->
  calcCandle s row cs = (with_indicators (plugins cs) l (blank row), cs).
Proof.
  intros H. unfold calcCandle, sbind. rewrite (getMarketCandles_present cs s l H).
  by apply run_plugins_present.
Qed.

Lemma removeDuplicates_newer (cs : CandleSet) (s : string) (l : list Candle)
    (batch : list Raw.OHLCV) :
  present cs s l -> newer batch l -> removeDuplicates batch s cs = (Ok batch, cs).
Proof.
  intros H Hnew. unfold removeDuplicates, sbind at 1.
  rewrite (getMarketCandles_present cs s l H), (read_present cs s l H).
  unfold newer in Hnew. destruct (last l) as [newest|]; [| done].
  destruct Hnew as (first & Hhead & Hgt). unfold sbind, slift. rewrite Hhead. cbn.
  by rewrite Hgt.
Qed.

(** The loop of [push] when no aggregation is configured. *)
Lemma push_loop_present (batch : list Raw.OHLCV) :
  forall (cs : CandleSet) (s : string) (l : list Candle),
    present cs s l -> aggTimes (config cs) = [] ->
    for_each batch
      (fun candle =>
         sbind (calcCandle s candle)
           (fun newCandle =>
              sbind (ref_push (TheArray s) newCandle)
                (fun _ cs =>
                   for_each (aggTimes (config cs))
                     (fun aggTime =>
                        sbind (getMarketCandles (s ++ ":" ++ aggTime) (Some aggTime))
                          (fun candleAgg => ref_push candleAgg newCandle)) cs))) cs
    = (fst (appended (plugins cs) l batch),
       holding cs s (snd (appended (plugins cs) l batch))).
Proof.
  induction batch as [|row rest IH]; intros cs s l H Hagg; cbn [for_each appended].
  - cbn. unfold write. cbn [symbol_of]. rewrite H. unfold sret. f_equal.
    destruct cs as [c p m]. unfold set_markets. cbn in *. f_equal.
    clear - H. induction m as [|[k e] m IHm]; cbn in *; [done |].
    destruct (decide (k = s)); [by injection H as -> | by rewrite <- IHm].
  - unfold sbind at 1. unfold sbind at 1. rewrite (calcCandle_present cs s l row H).
    destruct (with_indicators (plugins cs) l (blank row)) as [c|e] eqn:Ec.
    + unfold sbind at 1. rewrite (ref_push_present cs s l c H).
      assert (Hc : config (holding cs s (l ++ [c])) = config cs).
      { unfold write. cbn [symbol_of]. by rewrite H. }
      assert (Hp : plugins (holding cs s (l ++ [c])) = plugins cs).
      { unfold write. cbn [symbol_of]. by rewrite H. }
      rewrite Hc, Hagg. cbn [for_each]. unfold sret.
      rewrite (IH _ s (l ++ [c]) (present_holding cs s l _ H)) by (by rewrite Hc).
      rewrite Hp. by rewrite (holding_holding cs s l _ _ H).
    + cbn. f_equal. unfold write. cbn [symbol_of]. rewrite H.
      destruct cs as [c p m]. unfold set_markets. cbn in *. f_equal.
      clear - H. induction m as [|[k e0] m IHm]; cbn in *; [done |].
      destruct (decide (k = s)); [by injection H as -> | by rewrite <- IHm].
Qed.

End Buffer.

(** ** Pushing rows *)

Section Push.

Import CandleSet.
Context `{rt : JsRuntime} `{aggOps : CandlesAggOps}.

Lemma with_indicators_ohlcv (ps : list CandleSetPlugin) (l : list Candle) :
  forall c c', with_indicators ps l c = Ok c' -> ohlcv c' = ohlcv c.
Proof.
  induction ps as [|p ps IH]; intros c c'; cbn; [by intros [= ->] |].
  destruct (p l c) as [out|]; cbn; [| discriminate]. intros E. by apply IH in E.
Qed.

(** The candles [appended] adds: one per row, in the order of the rows,
    each made by the plugins from the buffer as it is when its row is
    reached. *)
Lemma appended_spec (ps : list CandleSetPlugin) (batch : list Raw.OHLCV) :
  forall l, exists new,
    snd (appended ps l batch) = l ++ new
    /\ (forall k c, new !! k = Some c ->
          exists row, batch !! k = Some row
                      /\ with_indicators ps (l ++ take k new) (blank row) = Ok c
                      /\ ohlcv c = numbers_of row)
    /\ match fst (appended ps l batch) with
       | Ok _ => length new = length batch
       | Throw _ => length new < length batch
       end.
Proof.
  induction batch as [|row rest IH]; intros l; cbn [appended].
  - exists []. rewrite app_nil_r. split; [done |]. split; [done | done].
  - destruct (with_indicators ps l (blank row)) as [c|e] eqn:Ec.
    + destruct (IH (l ++ [c])) as (new & Hsnd & Hnew & Hlen).
      exists (c :: new). split; [by rewrite Hsnd, <- app_assoc |]. split.
      * intros [|k] c'; cbn.
        -- intros [= <-]. exists row. split; [done |]. rewrite app_nil_r.
           split; [exact Ec |]. by apply with_indicators_ohlcv in Ec.
        -- intros Hk. destruct (Hnew k c' Hk) as (row' & Hrow & Hc' & Ho).
           exists row'. split; [exact Hrow |]. rewrite <- app_assoc in Hc'. by split.
      * destruct (fst (appended ps (l ++ [c]) rest)); cbn; lia.
    + exists []. cbn. rewrite app_nil_r. split; [done |]. split; [done | lia].
Qed.

Lemma trimmed_integer (b : Z) (l : list Candle) :
  trimmed (of_Z b) l = drop (length l - Z.to_nat b) l.
Proof.
  unfold trimmed, gtb, of_nat, of_Z. cbn [ltb].
  destruct (Qle_bool (inject_Z (Z.of_nat (length l))) (inject_Z b)) eqn:Hle; cbn [negb].
  - apply Qle_bool_iff in Hle. rewrite <- Zle_Qle in Hle.
    replace (length l - Z.to_nat b) with 0 by lia. reflexivity.
  - assert (Hlt : (b < Z.of_nat (length l))%Z).
    { destruct (Z_lt_le_dec b (Z.of_nat (length l))) as [H | H]; [exact H |].
      rewrite Zle_Qle in H. apply Qle_bool_iff in H. congruence. }
    cbn [sub opp add]. unfold fin, delete_count.
    set (x := Qred (inject_Z (Z.of_nat (length l)) + Qred (- inject_Z b))).
    assert (Hx : (x == inject_Z (Z.of_nat (length l) - b))%Q).
    { unfold x. rewrite !Qred_correct. unfold Z.sub.
      rewrite inject_Z_plus, inject_Z_opp. reflexivity. }
    assert (Htr : truncate x = (Z.of_nat (length l) - b)%Z).
    { unfold truncate. assert (Hpos : Qle_bool 0 x = true).
      { apply Qle_bool_iff. rewrite Hx. rewrite <- (Zle_Qle 0). lia. }
      rewrite Hpos, Hx. apply Qfloor_Z. }
    rewrite Htr. f_equal.
    destruct (Z_lt_le_dec b 0) as [Hneg | Hpos].
    + rewrite Z2Nat.inj_min, Nat2Z.id. replace (Z.to_nat b) with 0 by lia. lia.
    + rewrite Z2Nat.inj_min, Nat2Z.id. lia.
Qed.

Lemma trimmed_nan (l : list Candle) : trimmed NaN l = l.
Proof. reflexivity. Qed.

Lemma holding_id (cs : CandleSet) (s : string) (l : list Candle) :
  market_get (marketCandles cs) s = Some (Arr l) -> write (TheArray s) l cs = cs.
Proof.
  intros H. unfold write. cbn [symbol_of]. rewrite H.
  destruct cs as [c p m]. unfold set_markets. cbn in *. f_equal.
  induction m as [|[k e] m IHm]; cbn in *; [done |].
  destruct (decide (k = s)); [by injection H as -> | by rewrite IHm].
Qed.

(** [push] from the point where [removeDuplicates] has left [l1] in the
    buffer, when no aggregation is configured. *)
Lemma push_from (cs : CandleSet) (candles : rows) (s : string) (l1 : list Candle)
    (out : res (list Raw.OHLCV)) :
  array_at cs s -> aggTimes (config cs) = [] ->
  (forall cs0,
      market_get (marketCandles cs0) s = Some (Arr (candles_at cs s)) ->
      removeDuplicates (batch_of candles) s cs0
      = (out, write (TheArray s) l1 cs0)) ->
  match out with
  | Ok _ =>
      fst (push candles s cs) = fst (appended (plugins cs) l1 (batch_of candles))
      /\ candles_at (snd (push candles s cs)) s
         = match fst (appended (plugins cs) l1 (batch_of candles)) with
           | Ok _ => trimmed (bufferSize (config cs))
                       (snd (appended (plugins cs) l1 (batch_of candles)))
           | Throw _ => snd (appended (plugins cs) l1 (batch_of candles))
           end
  | Throw e =>
      fst (push candles s cs) = Throw e /\ candles_at (snd (push candles s cs)) s = l1
  end
  /\ market_get (marketCandles (snd (push candles s cs))) s
     = Some (Arr (candles_at (snd (push candles s cs)) s)).
Proof.
  intros Harr Hagg Hrm.
  destruct (getMarketCandles_array cs s Harr) as (cs0 & E0 & Hp0 & Hc0 & Hpl0 & _).
  set (l := candles_at cs s) in *. set (batch := batch_of candles) in *.
  specialize (Hrm cs0 Hp0).
  pose proof (present_holding cs0 s l l1 Hp0) as Hp1.
  assert (Hc1 : forall x, config (write (TheArray s) x cs0) = config cs).
  { intros x. unfold write. cbn [symbol_of]. by rewrite Hp0. }
  assert (Hpl1 : forall x, plugins (write (TheArray s) x cs0) = plugins cs).
  { intros x. unfold write. cbn [symbol_of]. by rewrite Hp0. }
  assert (Hpush : push candles s cs
                  = match out with
                    | Ok _ =>
                        match appended (plugins cs) l1 batch with
                        | (Ok _, l') =>
                            (Ok tt,
                             write (TheArray s) (trimmed (bufferSize (config cs)) l') cs0)
                        | (Throw e, l') => (Throw e, write (TheArray s) l' cs0)
                        end
                    | Throw e => (Throw e, write (TheArray s) l1 cs0)
                    end).
  { unfold push. fold (batch_of candles). fold batch.
    unfold sbind at 1. rewrite E0. unfold sbind at 1. rewrite Hrm.
    destruct out as [batch'|e]; [| done].
    assert (batch' = batch) as ->.
    { clear - Hrm. unfold removeDuplicates, sbind in Hrm.
      destruct (getMarketCandles s None cs0) as [[r|] cs']; [| discriminate].
      destruct (last (read r cs')); [| by injection Hrm as ->].
      unfold slift in Hrm. destruct (deref (head batch)); [| discriminate].
      destruct (gt_number _ _); [by injection Hrm as -> |].
      destruct (for_each _ _ cs') as [[[]|] ?]; [by injection Hrm as -> | discriminate]. }
    unfold sbind at 1.
    rewrite (push_loop_present batch _ s l1 Hp1) by (by rewrite Hc1).
    rewrite Hpl1, (holding_holding cs0 s l _ _ Hp0).
    destruct (appended (plugins cs) l1 batch) as [[[]|e] l']; cbn [fst snd]; [| done].
    pose proof (present_holding cs0 s l l' Hp0) as Hp2.
    rewrite (read_present _ s l' Hp2), Hc1. unfold trimmed.
    destruct (_ >? _)%num; [| done]. by rewrite (holding_holding cs0 s l _ _ Hp0). }
  rewrite Hpush. destruct out as [batch'|e].
  - destruct (appended (plugins cs) l1 batch) as [[[]|e] l']; cbn [fst snd]; unfold candles_at;
      match goal with
      | |- context [write (TheArray s) ?x cs0] =>
          pose proof (present_holding cs0 s l x Hp0) as Hp2
      end; rewrite (read_present _ s _ Hp2); by repeat split.
  - cbn [fst snd]. unfold candles_at. rewrite (read_present _ s _ Hp1). by repeat split.
Qed.

(** [push] of a batch that [removeDuplicates] returns at once. *)
Lemma push_newer (cs : CandleSet) (candles : rows) (s : string) :
  array_at cs s -> aggTimes (config cs) = [] ->
  newer (batch_of candles) (candles_at cs s) ->
  fst (push candles s cs)
  = fst (appended (plugins cs) (candles_at cs s) (batch_of candles))
  /\ candles_at (snd (push candles s cs)) s
     = match fst (appended (plugins cs) (candles_at cs s) (batch_of candles)) with
       | Ok _ => trimmed (bufferSize (config cs))
                   (snd (appended (plugins cs) (candles_at cs s) (batch_of candles)))
       | Throw _ => snd (appended (plugins cs) (candles_at cs s) (batch_of candles))
       end
  /\ market_get (marketCandles (snd (push candles s cs))) s
     = Some (Arr (candles_at (snd (push candles s cs)) s)).
Proof.
  intros Harr Hagg Hnew.
  destruct (push_from cs candles s (candles_at cs s) (Ok (batch_of candles)) Harr Hagg)
    as [[H1 H2] H3]; [| done].
  intros cs0 Hp0. rewrite (holding_id cs0 s _ Hp0).
  by apply (removeDuplicates_newer cs0 s (candles_at cs s)).
Qed.

Lemma same_number_not_gt (v : value) (n : num) :
  same_number v n = true -> gt_number v n = false.
Proof.
  destruct v as [m| |]; try discriminate. unfold same_number, gt_number. cbn.
  destruct m as [a| | |], n as [b| | |]; try discriminate; try reflexivity. cbn.
  intros H. apply Qeq_bool_eq in H. apply negb_false_iff, Qle_bool_iff. lra.
Qed.

Lemma removelast_snoc {A} (l : list A) (x : A) : removelast (l ++ [x]) = l.
Proof. apply removelast_last. Qed.

(** A single row of the time of the newest candle: the candle is popped. *)
Lemma removeDuplicates_replace (cs : CandleSet) (s : string) (init : list Candle)
    (c : Candle) (row : Raw.OHLCV) :
  market_get (marketCandles cs) s = Some (Arr (init ++ [c])) ->
  same_number (Raw.time row) (time c) = true ->
  removeDuplicates [row] s cs = (Ok [row], write (TheArray s) init cs).
Proof.
  intros H Hsame. unfold removeDuplicates, sbind at 1.
  rewrite (getMarketCandles_present cs s _ H), (read_present cs s _ H), last_snoc.
  unfold sbind at 1, slift. cbn [head deref].
  rewrite (same_number_not_gt _ _ Hsame). cbn [rev app for_each].
  unfold sbind at 1. unfold sbind at 1.
  rewrite (read_present cs s _ H), last_snoc, Hsame.
  unfold sbind at 1. rewrite (ref_pop_present cs s _ H), removelast_snoc. reflexivity.
Qed.

(** Two rows or more, the last one of the time of the only candle of the
    buffer and the first one not later: the candle is popped, and the row
    before the last finds the buffer empty. *)
Lemma removeDuplicates_exhausts (cs : CandleSet) (s : string) (c : Candle)
    (first lastrow : Raw.OHLCV) (mid : list Raw.OHLCV) :
  market_get (marketCandles cs) s = Some (Arr [c]) ->
  gt_number (Raw.time first) (time c) = false ->
  same_number (Raw.time lastrow) (time c) = true ->
  removeDuplicates (first :: mid ++ [lastrow]) s cs
  = (Throw TypeError, write (TheArray s) [] cs).
Proof.
  intros H Hgt Hsame. unfold removeDuplicates, sbind at 1.
  rewrite (getMarketCandles_present cs s _ H), (read_present cs s _ H). cbn [last].
  unfold sbind at 1, slift. cbn [head deref]. rewrite Hgt.
  change (rev (first :: mid ++ [lastrow])) with (rev (mid ++ [lastrow]) ++ [first]).
  rewrite rev_app_distr. cbn [rev app for_each].
  unfold sbind at 1. unfold sbind at 1.
  rewrite (read_present cs s _ H). cbn [last]. rewrite Hsame.
  unfold sbind at 1. rewrite (ref_pop_present cs s _ H). cbn [removelast sret].
  pose proof (present_holding cs s [c] [] H) as H'.
  destruct (rev mid ++ [first]) as [|row rest] eqn:Erest;
    [by destruct (rev mid) |].
  cbn [for_each]. unfold sbind at 1. by rewrite (read_present _ s _ H').
Qed.

Lemma pop_present (cs : CandleSet) (s : string) (l : list Candle) :
  market_get (marketCandles cs) s = Some (Arr l) ->
  pop s cs = (Ok (last l), write (TheArray s) (removelast l) cs).
Proof.
  intros H. unfold pop, sbind. rewrite (getMarketCandles_present cs s l H).
  by apply ref_pop_present.
Qed.

End Push.

(** [push] of rows that are all later than the buffer (or onto an empty
    buffer), for a market that holds an array and without aggregation: the
    candles that were there stay, in order; one candle per row follows, in
    the order of the rows, with the six numbers of its row and the
    indicators the plugins compute from the buffer as it is at that moment;
    then the oldest candles are removed down to [bufferSize]: to the newest
    [b] candles for an integer [b] (none for a negative one), to nothing
    less than all of them when [bufferSize] is not a number.  When a plugin
    throws, the candles of the rows before it stay in the buffer, which is
    not trimmed. *)
Theorem push_appends `{rt : JsRuntime} `{aggOps : CandleSet.CandlesAggOps}
    (cs : CandleSet.CandleSet) (candles : CandleSet.rows) (s : string) :
  array_at cs s -> CandleSet.aggTimes (CandleSet.config cs) = [] ->
  newer (batch_of candles) (candles_at cs s) ->
  exists new,
    (forall k c, new !! k = Some c ->
       exists row,
         batch_of candles !! k = Some row
         /\ with_indicators (CandleSet.plugins cs) (candles_at cs s ++ take k new)
              (blank row) = Ok c
         /\ ohlcv c = numbers_of row)
    /\ match fst (CandleSet.push candles s cs) with
       | Ok _ =>
           length new = length (batch_of candles)
           /\ candles_at (snd (CandleSet.push candles s cs)) s
              = trimmed (CandleSet.bufferSize (CandleSet.config cs))
                  (candles_at cs s ++ new)
           /\ (forall b,
                 CandleSet.bufferSize (CandleSet.config cs) = of_Z b ->
                 candles_at (snd (CandleSet.push candles s cs)) s
                 = drop (length (candles_at cs s ++ new) - Z.to_nat b)
                     (candles_at cs s ++ new))
           /\ (CandleSet.bufferSize (CandleSet.config cs) = NaN ->
               candles_at (snd (CandleSet.push candles s cs)) s = candles_at cs s ++ new)
       | Throw _ =>
           length new < length (batch_of candles)
           /\ candles_at (snd (CandleSet.push candles s cs)) s = candles_at cs s ++ new
       end.
Proof.
  intros Harr Hagg Hnew.
  destruct (push_newer cs candles s Harr Hagg Hnew) as (Hfst & Hsnd & _).
  destruct (appended_spec (CandleSet.plugins cs) (batch_of candles) (candles_at cs s))
    as (new & Hl & Hrows & Hlen).
  exists new. split; [exact Hrows |]. rewrite Hfst, Hsnd.
  destruct (fst (appended _ _ _)); rewrite Hl; [| done].
  split; [done |]. split; [done |].
  split; [intros b ->; apply trimmed_integer | intros ->; apply trimmed_nan].
Qed.

Lemma push_appends_witness :
  exists new,
    (forall k c, new !! k = Some c ->
       exists row,
         [row_at 3; row_at 4] !! k = Some row
         /\ with_indicators [] ([candle_at 1; candle_at 2] ++ take k new)
              (blank (rt := example_runtime) row) = Ok c
         /\ ohlcv c = numbers_of (rt := example_runtime) row)
    /\ length new = 2
    /\ candles_at
         (snd (CandleSet.push (rt := example_runtime)
                 (CandleSet.Many [row_at 3; row_at 4]) "BTC"
                 (example_set [candle_at 1; candle_at 2])))
         "BTC"
       = trimmed (Fin 3) ([candle_at 1; candle_at 2] ++ new).
Proof.
  destruct (push_appends (rt := example_runtime) (aggOps := example_agg)
              (example_set [candle_at 1; candle_at 2])
              (CandleSet.Many [row_at 3; row_at 4]) "BTC")
    as (new & Hrows & Hpush).
  - intros a. vm_compute. discriminate.
  - reflexivity.
  - vm_compute. eexists. split; reflexivity.
  - exists new. split; [exact Hrows |]. hnf in Hpush.
    destruct Hpush as (Hlen & Hbuf & _). split; [exact Hlen | exact Hbuf].
Defined.

(** ** Reading the buffer *)

Section Reading.

Import CandleSet.
Context `{rt : JsRuntime} `{aggOps : CandlesAggOps}.

(** [getMarketCandles] returns a reference to what is stored under the
    symbol, registers the symbol, and changes no buffer. *)
Lemma getMarketCandles_read (cs : CandleSet) (s : string) (agg : option string) :
  exists r cs',
    getMarketCandles s agg cs = (Ok r, cs')
    /\ symbol_of r = s
    /\ market_get (marketCandles cs') s <> None
    /\ (agg = None -> forall r', read r' cs' = read r' cs).
Proof.
  unfold getMarketCandles.
  destruct (market_get (marketCandles cs) s) as [e|] eqn:E.
  - rewrite E. destruct e as [l|a].
    + exists (TheArray s), cs. split; [done |]. split; [done |]. split; [congruence | done].
    + exists (if truthy agg then TheAgg s else CandlesOfAgg s), cs. split; [done |].
      split; [by destruct (truthy agg) |]. split; [congruence | done].
  - cbn. rewrite market_get_set. destruct (decide (s = s)); [| done].
    destruct agg as [[|ch a]|]; cbn [truthy].
    + exists (TheArray s). eexists. split; [reflexivity |]. split; [done |]. cbn.
      rewrite market_get_set. destruct (decide (s = s)); [| done]. by split.
    + exists (TheAgg s). eexists. split; [reflexivity |]. split; [done |]. cbn.
      rewrite market_get_set. destruct (decide (s = s)); [| done]. by split.
    + exists (TheArray s). eexists. split; [reflexivity |]. split; [done |]. cbn.
      rewrite market_get_set. destruct (decide (s = s)); [| done]. split; [done |].
      intros _ r'. unfold read. cbn. rewrite market_get_set.
      destruct (decide (s = symbol_of r')) as [<- | Hs]; [by rewrite E | done].
Qed.

Lemma read_symbol (r : ref) (cs : CandleSet) : read r cs = candles_at cs (symbol_of r).
Proof. reflexivity. Qed.

Lemma slice_last (l : list Candle) (n : nat) :
  1 <= n -> slice_from l (Fin (-1) * of_nat n)%num = drop (length l - n) l.
Proof.
  intros Hn. unfold of_nat, of_Z. cbn [mul]. unfold fin, slice_from.
  set (x := Qred (-1 * inject_Z (Z.of_nat n))).
  assert (Hx : (x == inject_Z (- Z.of_nat n))%Q).
  { unfold x. rewrite Qred_correct, inject_Z_opp. ring. }
  assert (Htr : truncate x = (- Z.of_nat n)%Z).
  { unfold truncate. assert (Hneg : Qle_bool 0 x = false).
    { apply not_true_is_false. intros H. apply Qle_bool_iff in H. rewrite Hx in H.
      rewrite <- (Zle_Qle 0) in H. lia. }
    rewrite Hneg. unfold Qceiling. rewrite Hx, <- inject_Z_opp, Qfloor_Z. lia. }
  rewrite Htr. destruct (- Z.of_nat n <? 0)%Z eqn:Hlt; [| apply Z.ltb_ge in Hlt; lia].
  f_equal. lia.
Qed.

End Reading.

(** [getLast]: the newest candle, or [undefined] for an empty buffer, when
    [nb] is 1 or left out; the newest [nb] candles for a greater [nb]; and,
    since [slice(-0)] is [slice(0)], every candle of the buffer when [nb]
    is 0.  The buffer stays as it is. *)
Theorem getLast_cases `{rt : JsRuntime} `{aggOps : CandleSet.CandlesAggOps}
    (cs : CandleSet.CandleSet) (s : string) :
  fst (CandleSet.getLast s None cs) = Ok (CandleSet.Single (last (candles_at cs s)))
  /\ fst (CandleSet.getLast s (Some (Fin 1)) cs)
     = Ok (CandleSet.Single (last (candles_at cs s)))
  /\ fst (CandleSet.getLast s (Some (Fin 0)) cs) = Ok (CandleSet.Several (candles_at cs s))
  /\ (forall n, 2 <= n ->
        fst (CandleSet.getLast s (Some (of_nat n)) cs)
        = Ok (CandleSet.Several (drop (length (candles_at cs s) - n) (candles_at cs s))))
  /\ (forall nb, candles_at (snd (CandleSet.getLast s nb cs)) s = candles_at cs s).
Proof.
  assert (H : forall nb,
             CandleSet.getLast s nb cs
             = (Ok (if (default (Fin 1) nb === Fin 1)%num
                    then CandleSet.Single (last (candles_at cs s))
                    else CandleSet.Several
                           (CandleSet.slice_from (candles_at cs s)
                              (Fin (-1) * default (Fin 1) nb)%num)),
                snd (CandleSet.getMarketCandles s None cs))
             /\ candles_at (snd (CandleSet.getMarketCandles s None cs)) s = candles_at cs s).
  { intros nb. unfold CandleSet.getLast, CandleSet.sbind.
    destruct (getMarketCandles_read cs s None) as (r & cs' & E & Hr & _ & Hread).
    rewrite E. cbn [snd]. rewrite read_symbol, Hr. unfold candles_at.
    by rewrite !(Hread eq_refl). }
  split; [by rewrite (proj1 (H None)) |].
  split; [by rewrite (proj1 (H (Some (Fin 1)))) |].
  split; [by rewrite (proj1 (H (Some (Fin 0)))) |].
  split.
  - intros n Hn. rewrite (proj1 (H (Some (of_nat n)))). cbn [fst default from_option id].
    assert (Hne : (of_nat n === Fin 1)%num = false).
    { unfold of_nat, of_Z. cbn. apply not_true_is_false. intros Heq.
      apply Qeq_bool_eq in Heq. change 1%Q with (inject_Z 1) in Heq.
      assert (Z.of_nat n = 1%Z) by (by apply inject_Z_injective). lia. }
    rewrite Hne. by rewrite slice_last by lia.
  - intros nb. destruct (H nb) as [-> Hsame]. exact Hsame.
Qed.

(** Every method registers the symbol it is called with, also one that only
    reads: the symbols that were there keep their places, new symbols
    follow them, and no symbol comes twice.  [forEachMarket] calls its
    callback once for each of them, in that order. *)
Theorem methods_register_symbol `{rt : JsRuntime} `{aggOps : CandleSet.CandlesAggOps}
    (cs : CandleSet.CandleSet) (s : string) (candles : CandleSet.rows)
    (nb : option num) :
  (grows cs (snd (CandleSet.get s cs)) /\ s ∈ market_keys (snd (CandleSet.get s cs)))
  /\ (grows cs (snd (CandleSet.getLast s nb cs))
      /\ s ∈ market_keys (snd (CandleSet.getLast s nb cs)))
  /\ (grows cs (snd (CandleSet.pop s cs)) /\ s ∈ market_keys (snd (CandleSet.pop s cs)))
  /\ (grows cs (snd (CandleSet.push candles s cs))
      /\ s ∈ market_keys (snd (CandleSet.push candles s cs)))
  /\ map snd (CandleSet.forEachMarket cs) = market_keys cs.
Proof.
  assert (Hreg : forall {A} (k : CandleSet.ref -> CandleSet.St A),
             (forall r, growing (k r)) ->
             grows cs (snd (CandleSet.sbind (CandleSet.getMarketCandles s None) k cs))
             /\ s ∈ market_keys (snd (CandleSet.sbind (CandleSet.getMarketCandles s None)
                                        k cs))).
  { intros A k Hk. split.
    - apply growing_sbind; [apply growing_getMarketCandles | exact Hk].
    - unfold CandleSet.sbind.
      destruct (getMarketCandles_read cs s None) as (r & cs' & E & _ & Hin & _).
      rewrite E. destruct (Hk r cs') as (_ & _ & [more Hpre] & _). rewrite Hpre.
      apply elem_of_app. left. unfold market_keys.
      destruct (decide (s ∈ map fst (CandleSet.marketCandles cs'))) as [H | H]; [exact H |].
      by apply market_get_keys in H. }
  split; [apply Hreg; intros r cs'; apply grows_refl |].
  split; [apply Hreg; intros r cs'; apply grows_refl |].
  split; [apply Hreg; intros r; apply growing_ref_pop |].
  split.
  - apply Hreg. intros r.
    apply growing_sbind; [apply growing_removeDuplicates |]. intros l.
    apply growing_sbind.
    + apply growing_for_each. intros candle.
      apply growing_sbind; [apply growing_calcCandle |]. intros c.
      apply growing_sbind; [apply growing_ref_push |]. intros _ cs'.
      refine (growing_for_each (CandleSet.aggTimes (CandleSet.config cs')) _ _ cs').
      intros aggTime. apply growing_sbind; [apply growing_getMarketCandles |].
      intros ra. apply growing_ref_push.
    + intros _ cs'. cbv zeta. destruct (_ >? _)%num; [apply grows_write | apply grows_refl].
  - unfold CandleSet.forEachMarket, market_keys. rewrite map_map. reflexivity.
Qed.

(** [push] of one row of the time of the newest candle, for a market that
    holds an array and without aggregation: the newest candle is replaced
    by the candle of the row, which the plugins compute from the candles
    before it.  When a plugin throws, the newest candle is gone and nothing
    has taken its place. *)
Theorem push_replaces_newest `{rt : JsRuntime} `{aggOps : CandleSet.CandlesAggOps}
    (cs : CandleSet.CandleSet) (s : string) (init : list CandleSet.Candle)
    (c : CandleSet.Candle) (row : CandleSet.Raw.OHLCV) :
  array_at cs s -> CandleSet.aggTimes (CandleSet.config cs) = [] ->
  candles_at cs s = init ++ [c] ->
  CandleSet.same_number (CandleSet.Raw.time row) (CandleSet.time c) = true ->
  match with_indicators (CandleSet.plugins cs) init (blank row) with
  | Ok c' =>
      fst (CandleSet.push (CandleSet.One row) s cs) = Ok tt
      /\ candles_at (snd (CandleSet.push (CandleSet.One row) s cs)) s
         = trimmed (CandleSet.bufferSize (CandleSet.config cs)) (init ++ [c'])
      /\ ohlcv c' = numbers_of row
  | Throw e =>
      fst (CandleSet.push (CandleSet.One row) s cs) = Throw e
      /\ candles_at (snd (CandleSet.push (CandleSet.One row) s cs)) s = init
  end.
Proof.
  intros Harr Hagg Hl Hsame.
  destruct (push_from cs (CandleSet.One row) s init (Ok [row]) Harr Hagg) as [[H1 H2] _].
  { intros cs0 Hp0. rewrite Hl in Hp0.
    exact (removeDuplicates_replace cs0 s init c row Hp0 Hsame). }
  cbn [batch_of appended] in H1, H2.
  destruct (with_indicators (CandleSet.plugins cs) init (blank row)) as [c'|e] eqn:Ec;
    cbn [fst snd] in H1, H2; [| done].
  split; [exact H1 |]. split; [exact H2 |]. by apply with_indicators_ohlcv in Ec.
Qed.

Lemma push_replaces_newest_witness :
  fst (CandleSet.push (rt := example_runtime) (CandleSet.One (row_at 2)) "BTC"
         (example_set [candle_at 1; candle_at 2])) = Ok tt
  /\ candles_at
       (snd (CandleSet.push (rt := example_runtime) (CandleSet.One (row_at 2)) "BTC"
               (example_set [candle_at 1; candle_at 2]))) "BTC"
     = trimmed (Fin 3) ([candle_at 1] ++ [blank (rt := example_runtime) (row_at 2)])
  /\ ohlcv (blank (rt := example_runtime) (row_at 2))
     = numbers_of (rt := example_runtime) (row_at 2).
Proof.
  apply (push_replaces_newest (rt := example_runtime) (aggOps := example_agg)
           (example_set [candle_at 1; candle_at 2]) "BTC" [candle_at 1] (candle_at 2)
           (row_at 2)).
  - intros a. vm_compute. discriminate.
  - reflexivity.
  - reflexivity.
  - vm_compute. reflexivity.
Defined.

(** [push] of two rows or more onto a buffer of one candle, the last row of
    the time of that candle and the first row not later than it, for a
    market that holds an array: [removeDuplicates] pops the candle, then
    reads the time of the newest candle of an empty buffer.  The call throws
    a [TypeError] and leaves the buffer empty. *)
Theorem push_overlap_throws `{rt : JsRuntime} `{aggOps : CandleSet.CandlesAggOps}
    (cs : CandleSet.CandleSet) (s : string) (c : CandleSet.Candle)
    (first lastrow : CandleSet.Raw.OHLCV) (mid : list CandleSet.Raw.OHLCV) :
  array_at cs s -> candles_at cs s = [c] ->
  CandleSet.gt_number (CandleSet.Raw.time first) (CandleSet.time c) = false ->
  CandleSet.same_number (CandleSet.Raw.time lastrow) (CandleSet.time c) = true ->
  fst (CandleSet.push (CandleSet.Many (first :: mid ++ [lastrow])) s cs) = Throw TypeError
  /\ candles_at (snd (CandleSet.push (CandleSet.Many (first :: mid ++ [lastrow])) s cs)) s
     = [].
Proof.
  intros Harr Hl Hgt Hsame.
  destruct (getMarketCandles_array cs s Harr) as (cs0 & E0 & Hp0 & _).
  rewrite Hl in Hp0.
  assert (Hpush : CandleSet.push (CandleSet.Many (first :: mid ++ [lastrow])) s cs
                  = (Throw TypeError, CandleSet.write (CandleSet.TheArray s) [] cs0)).
  { unfold CandleSet.push. unfold CandleSet.sbind at 1. rewrite E0.
    unfold CandleSet.sbind at 1.
    by rewrite (removeDuplicates_exhausts cs0 s c first lastrow mid Hp0 Hgt Hsame). }
  rewrite Hpush. cbn [fst snd]. split; [done |]. unfold candles_at.
  by apply read_present, (present_holding cs0 s [c]).
Qed.

Lemma push_overlap_throws_witness :
  fst (CandleSet.push (rt := example_runtime)
         (CandleSet.Many (row_at 1 :: [] ++ [row_at 2])) "BTC" (example_set [candle_at 2]))
  = Throw TypeError
  /\ candles_at
       (snd (CandleSet.push (rt := example_runtime)
               (CandleSet.Many (row_at 1 :: [] ++ [row_at 2])) "BTC"
               (example_set [candle_at 2]))) "BTC"
     = [].
Proof.
  apply (push_overlap_throws (rt := example_runtime) (aggOps := example_agg)
           (example_set [candle_at 2]) "BTC" (candle_at 2) (row_at 1) (row_at 2) []).
  - intros a. vm_compute. discriminate.
  - reflexivity.
  - vm_compute. reflexivity.
  - vm_compute. reflexivity.
Defined.

(** [push] of one later row, then [pop]: when the buffer has room for the
    candle, [pop] returns the candle that [push] made of the row and the
    buffer is as it was before the two calls. *)
Theorem push_then_pop `{rt : JsRuntime} `{aggOps : CandleSet.CandlesAggOps}
    (cs : CandleSet.CandleSet) (s : string) (row : CandleSet.Raw.OHLCV)
    (c : CandleSet.Candle) :
  array_at cs s -> CandleSet.aggTimes (CandleSet.config cs) = [] ->
  newer [row] (candles_at cs s) ->
  with_indicators (CandleSet.plugins cs) (candles_at cs s) (blank row) = Ok c ->
  (of_nat (S (length (candles_at cs s))) >? CandleSet.bufferSize (CandleSet.config cs))%num
  = false ->
  fst (CandleSet.push (CandleSet.One row) s cs) = Ok tt
  /\ fst (CandleSet.pop s (snd (CandleSet.push (CandleSet.One row) s cs))) = Ok (Some c)
  /\ candles_at (snd (CandleSet.pop s (snd (CandleSet.push (CandleSet.One row) s cs)))) s
     = candles_at cs s
  /\ ohlcv c = numbers_of row.
Proof.
  intros Harr Hagg Hnew Hc Hroom.
  destruct (push_newer cs (CandleSet.One row) s Harr Hagg Hnew) as (H1 & H2 & H3).
  cbn [batch_of appended] in H1, H2. rewrite Hc in H1, H2. cbn [fst snd] in H1, H2.
  assert (Htrim : trimmed (CandleSet.bufferSize (CandleSet.config cs))
                    (candles_at cs s ++ [c]) = candles_at cs s ++ [c]).
  { unfold trimmed. rewrite length_app. cbn [length]. rewrite Nat.add_1_r. by rewrite Hroom. }
  rewrite Htrim in H2. rewrite H2 in H3.
  split; [exact H1 |]. rewrite (pop_present _ s _ H3), last_snoc, removelast_snoc.
  split; [done |]. split; [| by apply with_indicators_ohlcv in Hc].
  unfold candles_at at 1. by apply read_present, (present_holding _ s _ _ H3).
Qed.

Lemma push_then_pop_witness :
  fst (CandleSet.pop "BTC"
         (snd (CandleSet.push (rt := example_runtime) (CandleSet.One (row_at 3)) "BTC"
                 (example_set [candle_at 1; candle_at 2]))))
  = Ok (Some (blank (rt := example_runtime) (row_at 3)))
  /\ candles_at
       (snd (CandleSet.pop "BTC"
               (snd (CandleSet.push (rt := example_runtime) (CandleSet.One (row_at 3))
                       "BTC" (example_set [candle_at 1; candle_at 2]))))) "BTC"
     = [candle_at 1; candle_at 2].
Proof.
  destruct (push_then_pop (rt := example_runtime) (aggOps := example_agg)
              (example_set [candle_at 1; candle_at 2]) "BTC" (row_at 3)
              (blank (rt := example_runtime) (row_at 3)))
    as (_ & Hpop & Hbuf & _).
  - intros a. vm_compute. discriminate.
  - reflexivity.
  - vm_compute. eexists. split; reflexivity.
  - reflexivity.
  - vm_compute. reflexivity.
  - split; [exact Hpop | exact Hbuf].
Defined.

(** ** The other markets *)

Section Frame.

Import CandleSet.
Context `{rt : JsRuntime} `{aggOps : CandlesAggOps}.
Variable cfg : CandleSetConfig.
Variable keys : list string.

Lemma confined_sret {A} (a : A) : confined cfg keys (sret a).
Proof. by intros cs Hc. Qed.

Lemma confined_slift {A} (r : res A) : confined cfg keys (slift r).
Proof. by intros cs Hc. Qed.

Lemma confined_sbind {A B} (m : St A) (k : A -> St B) :
  confined cfg keys m -> (forall a, confined cfg keys (k a)) ->
  confined cfg keys (sbind m k).
Proof.
  intros Hm Hk cs Hc. unfold sbind. destruct (Hm cs Hc) as [Hc1 Hf1].
  destruct (m cs) as [[a|e] cs1]; cbn [snd] in *; [| by split].
  destruct (Hk a cs1 Hc1) as [Hc2 Hf2]. split; [exact Hc2 |].
  intros s Hs. by rewrite Hf2, Hf1.
Qed.

Lemma confined_for_each {A} (xs : list A) (body : A -> St unit) :
  (forall x, x ∈ xs -> confined cfg keys (body x)) -> confined cfg keys (for_each xs body).
Proof.
  induction xs as [|x xs IH]; intros Hbody; cbn [for_each]; [apply confined_sret |].
  apply confined_sbind; [apply Hbody; by left |]. intros _. apply IH.
  intros y Hy. apply Hbody. by right.
Qed.

Lemma confined_set (cs : CandleSet) (s : string) (e : entry) :
  s ∈ keys -> config cs = cfg ->
  config (set_markets cs (market_set (marketCandles cs) s e)) = cfg
  /\ forall s', s' ∉ keys ->
       market_get (marketCandles (set_markets cs (market_set (marketCandles cs) s e))) s'
       = market_get (marketCandles cs) s'.
Proof.
  intros Hs Hc. split; [exact Hc |]. intros s' Hs'. cbn. rewrite market_get_set.
  destruct (decide (s = s')) as [-> | _]; [done | reflexivity].
Qed.

Lemma confined_getMarketCandles (s : string) (agg : option string) :
  s ∈ keys -> confined cfg keys (getMarketCandles s agg).
Proof.
  intros Hs cs Hc. unfold getMarketCandles.
  destruct (market_get (marketCandles cs) s) as [e|] eqn:E.
  - rewrite E. by destruct e.
  - match goal with
    | |- context [market_set _ s ?e] => pose proof (confined_set cs s e Hs Hc) as H
    end.
    by destruct (market_get (marketCandles (set_markets cs _)) s) as [[]|].
Qed.

Lemma confined_write (r : ref) (l : list Candle) (cs : CandleSet) :
  symbol_of r ∈ keys -> config cs = cfg ->
  config (write r l cs) = cfg
  /\ forall s', s' ∉ keys ->
       market_get (marketCandles (write r l cs)) s' = market_get (marketCandles cs) s'.
Proof.
  intros Hs Hc. unfold write.
  destruct (market_get (marketCandles cs) (symbol_of r)) as [[]|];
    [by apply confined_set | by apply confined_set | by split].
Qed.

Lemma confined_ref_push (r : ref) (c : Candle) :
  symbol_of r ∈ keys -> confined cfg keys (ref_push r c).
Proof.
  intros Hs cs Hc. unfold ref_push.
  destruct r; try (by apply confined_write).
  destruct (market_get (marketCandles cs) (symbol_of (TheAgg symbol))) as [[]|];
    cbn [snd]; [by apply confined_write | by apply confined_set | by apply confined_write].
Qed.

Lemma confined_ref_pop (r : ref) : symbol_of r ∈ keys -> confined cfg keys (ref_pop r).
Proof. intros Hs cs Hc. by apply confined_write. Qed.

Lemma getMarketCandles_symbol (s : string) (agg : option string) (cs cs' : CandleSet)
    (r : ref) :
  getMarketCandles s agg cs = (Ok r, cs') -> symbol_of r = s.
Proof.
  intros E. destruct (getMarketCandles_read cs s agg) as (r' & cs'' & E' & Hr & _).
  rewrite E in E'. by injection E' as -> _.
Qed.

(** After [getMarketCandles], a continuation that is confined for every
    reference to the symbol. *)
Lemma confined_with_ref {B} (s : string) (agg : option string) (k : ref -> St B) :
  s ∈ keys -> (forall r, symbol_of r = s -> confined cfg keys (k r)) ->
  confined cfg keys (sbind (getMarketCandles s agg) k).
Proof.
  intros Hs Hk cs Hc. unfold sbind.
  destruct (confined_getMarketCandles s agg Hs cs Hc) as [Hc1 Hf1].
  destruct (getMarketCandles s agg cs) as [[r|e] cs1] eqn:E; cbn [snd] in *; [| by split].
  apply getMarketCandles_symbol in E.
  destruct (Hk r E cs1 Hc1) as [Hc2 Hf2]. split; [exact Hc2 |].
  intros s' Hs'. by rewrite Hf2, Hf1.
Qed.

Lemma confined_removeDuplicates (candles : list Raw.OHLCV) (s : string) :
  s ∈ keys -> confined cfg keys (removeDuplicates candles s).
Proof.
  intros Hs. apply confined_with_ref; [exact Hs |]. intros r Hr cs Hc.
  destruct (last (read r cs)) as [newest|]; [| by split].
  refine (confined_sbind _ _ _ _ cs Hc); [apply confined_slift |]. intros first.
  destruct (gt_number _ _); [apply confined_sret |].
  apply confined_sbind; [| intros _; apply confined_sret].
  apply confined_for_each. intros candle _ cs' Hc'.
  destruct (last (read r cs')) as [n|]; [| by split].
  destruct (same_number _ _); [| by split].
  refine (confined_sbind _ _ _ _ cs' Hc');
    [apply confined_ref_pop; by rewrite Hr | intros _; apply confined_sret].
Qed.

Lemma confined_run_plugins (ps : list CandleSetPlugin) (r : ref) :
  forall c, confined cfg keys (run_plugins ps r c).
Proof.
  induction ps as [|p ps IH]; intros c cs Hc; cbn [run_plugins]; [by split |].
  destruct (p (read r cs) c); [by apply IH | by split].
Qed.

Lemma confined_calcCandle (s : string) (candle : Raw.OHLCV) :
  s ∈ keys -> confined cfg keys (calcCandle s candle).
Proof.
  intros Hs. apply confined_with_ref; [exact Hs |]. intros r _ cs Hc.
  by apply confined_run_plugins.
Qed.

Lemma confined_push (candles : rows) (s : string) :
  s ∈ keys ->
  (forall aggTime, aggTime ∈ aggTimes cfg -> s +:+ ":" +:+ aggTime ∈ keys) ->
  confined cfg keys (push candles s).
Proof.
  intros Hs Hagg. apply confined_with_ref; [exact Hs |]. intros r Hr.
  apply confined_sbind; [by apply confined_removeDuplicates |]. intros l.
  apply confined_sbind.
  - apply confined_for_each. intros candle _.
    apply confined_sbind; [by apply confined_calcCandle |]. intros c.
    apply confined_sbind; [apply confined_ref_push; by rewrite Hr |]. intros _ cs Hc.
    rewrite Hc. refine (confined_for_each (aggTimes cfg) _ _ cs Hc). intros aggTime Hin.
    apply confined_with_ref; [by apply Hagg |]. intros ra Hra.
    apply confined_ref_push. rewrite Hra. by apply Hagg.
  - intros _ cs Hc. cbv zeta. destruct (_ >? _)%num; [| by split].
    apply confined_write; [by rewrite Hr | exact Hc].
Qed.

End Frame.

(** A method called with one symbol leaves what is stored under every other
    symbol as it is; for [push], every symbol other than its own and the
    ones it forms for the aggregation times, [<symbol>:<aggTime>]. *)
Theorem methods_are_local `{rt : JsRuntime} `{aggOps : CandleSet.CandlesAggOps}
    (cs : CandleSet.CandleSet) (s s' : string) (candles : CandleSet.rows)
    (nb : option num) :
  s' <> s ->
  CandleSet.market_get (CandleSet.marketCandles (snd (CandleSet.get s cs))) s'
  = CandleSet.market_get (CandleSet.marketCandles cs) s'
  /\ CandleSet.market_get (CandleSet.marketCandles (snd (CandleSet.getLast s nb cs))) s'
     = CandleSet.market_get (CandleSet.marketCandles cs) s'
  /\ CandleSet.market_get (CandleSet.marketCandles (snd (CandleSet.pop s cs))) s'
     = CandleSet.market_get (CandleSet.marketCandles cs) s'
  /\ (s' ∉ touched cs s ->
      CandleSet.market_get (CandleSet.marketCandles (snd (CandleSet.push candles s cs))) s'
      = CandleSet.market_get (CandleSet.marketCandles cs) s').
Proof.
  intros Hs.
  assert (Hin : s ∈ [s]) by (by left).
  assert (Hout : s' ∉ [s]) by (by intros ->%list_elem_of_singleton).
  split; [| split; [| split]].
  - refine (proj2 (confined_with_ref (CandleSet.config cs) [s] s None _ Hin _ cs eq_refl)
              s' Hout).
    intros r _ cs' Hc. by split.
  - refine (proj2 (confined_with_ref (CandleSet.config cs) [s] s None _ Hin _ cs eq_refl)
              s' Hout).
    intros r _ cs' Hc. by split.
  - refine (proj2 (confined_with_ref (CandleSet.config cs) [s] s None _ Hin _ cs eq_refl)
              s' Hout).
    intros r Hr. apply confined_ref_pop. by rewrite Hr.
  - intros Htouched.
    refine (proj2 (confined_push (CandleSet.config cs) (touched cs s) candles s _ _ cs
                     eq_refl) s' Htouched).
    + by left.
    + intros aggTime Hagg. right.
      apply list_elem_of_In, (in_map (fun a => s +:+ ":" +:+ a)). by apply list_elem_of_In.
Qed.

Lemma methods_are_local_witness :
  CandleSet.market_get
    (CandleSet.marketCandles
       (snd (CandleSet.pop "ETH" (example_set [candle_at 1; candle_at 2])))) "BTC"
  = Some (CandleSet.Arr [candle_at 1; candle_at 2])
  /\ CandleSet.market_get
       (CandleSet.marketCandles
          (snd (CandleSet.push (rt := example_runtime) (CandleSet.One (row_at 3)) "ETH"
                  (example_set [candle_at 1; candle_at 2])))) "BTC"
     = Some (CandleSet.Arr [candle_at 1; candle_at 2]).
Proof.
  destruct (methods_are_local (rt := example_runtime) (aggOps := example_agg)
              (example_set [candle_at 1; candle_at 2]) "ETH" "BTC"
              (CandleSet.One (row_at 3)) None)
    as (_ & _ & Hpop & Hpush); [discriminate |].
  split; [exact Hpop |]. apply Hpush. vm_compute. intros H.
  apply list_elem_of_singleton in H. discriminate.
Defined.

(** ** The indicator [ema] *)

Lemma slice_from_end {A} (l : list A) (x : Q) (n : nat) :
  1 <= n -> (x == inject_Z (- Z.of_nat n))%Q ->
  CandleSet.slice_from l (Fin x) = drop (length l - n) l.
Proof.
  intros Hn Hx. unfold CandleSet.slice_from.
  assert (Htr : CandleSet.truncate x = (- Z.of_nat n)%Z).
  { unfold CandleSet.truncate. assert (Hneg : Qle_bool 0 x = false).
    { apply not_true_is_false. intros H. apply Qle_bool_iff in H. rewrite Hx in H.
      rewrite <- (Zle_Qle 0) in H. lia. }
    rewrite Hneg. unfold Qceiling. rewrite Hx, <- inject_Z_opp, Qfloor_Z. lia. }
  rewrite Htr. destruct (- Z.of_nat n <? 0)%Z eqn:Hlt; [| apply Z.ltb_ge in Hlt; lia].
  f_equal. lia.
Qed.

Lemma ema_slice `{rt : JsRuntime} {A} (p : nat) (l : list A) :
  CandleSet.slice_from l (opp (to_number (VNum (of_nat p))) - Fin 1)%num
  = drop (length l - S p) l.
Proof.
  unfold of_nat, of_Z. cbn [to_number opp sub add]. unfold fin.
  apply slice_from_end; [lia |].
  rewrite !Qred_correct, Nat2Z.inj_succ, <- Z.add_1_r, Z.opp_add_distr, inject_Z_plus,
    inject_Z_opp. reflexivity.
Qed.

Lemma ema_numeric_period `{rt : JsRuntime}
    (emaTI : value -> list Ema.field -> res (list num)) (label : string)
    (opts : gmap string value) (candles : list CandleSet.Candle)
    (newCandle : CandleSet.Candle) (p : nat) :
  CandleSet.prop opts "period" = VNum (of_nat p) ->
  Ema.ema emaTI label opts candles newCandle
  = res_bind
      (emaTI (VNum (of_nat p))
         (map (fun c => Ema.candle_field c
                          (CandleSet.template (CandleSet.prop opts "key")))
            (drop (length candles - S p) candles ++ [newCandle])))
      (fun values => Ok (labelled label values)).
Proof. intros Hp. unfold Ema.ema. by rewrite Hp, ema_slice. Qed.

(** [ema] hands the library the field [key] of the newest [period + 1]
    candles of the buffer, oldest first, followed by that of the new candle:
    older candles have no influence on the indicator.  When [period] is not
    a number ([undefined], or a string that is no number) it hands over the
    whole buffer.  The result has the one key [label], with the last number
    the library answers, or [undefined] when it answers none. *)
Theorem ema_window `{rt : JsRuntime} (emaTI : value -> list Ema.field -> res (list num))
    (label : string) (opts : gmap string value) (candles : list CandleSet.Candle)
    (newCandle : CandleSet.Candle) :
  (forall p : nat,
      CandleSet.prop opts "period" = VNum (of_nat p) ->
      Ema.ema emaTI label opts candles newCandle
      = res_bind
          (emaTI (VNum (of_nat p))
             (map (fun c => Ema.candle_field c
                              (CandleSet.template (CandleSet.prop opts "key")))
                (drop (length candles - S p) candles ++ [newCandle])))
          (fun values => Ok (labelled label values)))
  /\ (forall (p : nat) (old recent : list CandleSet.Candle),
        CandleSet.prop opts "period" = VNum (of_nat p) ->
        candles = old ++ recent -> length recent = S p ->
        Ema.ema emaTI label opts candles newCandle
        = Ema.ema emaTI label opts recent newCandle)
  /\ (to_number (CandleSet.prop opts "period") = NaN ->
      Ema.ema emaTI label opts candles newCandle
      = res_bind
          (emaTI (CandleSet.prop opts "period")
             (map (fun c => Ema.candle_field c
                              (CandleSet.template (CandleSet.prop opts "key")))
                (candles ++ [newCandle])))
          (fun values => Ok (labelled label values)))
  /\ (forall m,
        Ema.ema emaTI label opts candles newCandle = Ok m ->
        exists v, m = {[ label := v ]} /\ forall n, v <> VStr n).
Proof.
  split; [| split; [| split]].
  - intros p Hp. by apply ema_numeric_period.
  - intros p old recent Hp -> Hlen. unfold Ema.ema. rewrite Hp, !ema_slice.
    rewrite length_app, Hlen. replace (length old + S p - S p) with (length old) by lia.
    rewrite drop_app_length. by rewrite Nat.sub_diag.
  - intros Hnan. unfold Ema.ema. by rewrite Hnan.
  - unfold Ema.ema. intros m E.
    destruct (emaTI _ _) as [values|]; cbn in E; [| discriminate]. injection E as <-.
    eexists. split; [reflexivity |]. by destruct (last values).
Qed.

(** ** A candle set with the indicator [ema] *)

(** A candle set constructed with the one indicator [ema], of a numeric
    period and without aggregation, to which rows are pushed for the first
    time: every row becomes a candle with the six numbers of the row and
    the one indicator [label], the last number the library answers for the
    field [key] of the newest [period + 1] candles pushed before it and of
    the candle itself. *)
Theorem push_computes_ema `{rt : JsRuntime} `{aggOps : CandleSet.CandlesAggOps}
    (emaTI : value -> list Ema.field -> res (list num)) (loader : CandleSet.Loader)
    (config_ : CandleSet.CandleSetConfig) (label : string) (opts : gmap string value)
    (p : nat) (candles : CandleSet.rows) (s : string) :
  loader (CandleSet.template (CandleSet.prop opts "name")) = Ok (Ema.ema emaTI) ->
  CandleSet.indicator_specs config_ = [(label, opts)] ->
  CandleSet.aggTimes config_ = [] ->
  CandleSet.prop opts "period" = VNum (of_nat p) ->
  exists cs new,
    CandleSet.new_CandleSet loader config_ = Ok cs
    /\ CandleSet.marketCandles cs = []
    /\ (forall k c, new !! k = Some c ->
          exists row values,
            batch_of candles !! k = Some row
            /\ ohlcv c = numbers_of row
            /\ emaTI (VNum (of_nat p))
                 (map (fun c => Ema.candle_field c
                                  (CandleSet.template (CandleSet.prop opts "key")))
                    (drop (k - S p) (take k new) ++ [blank row])) = Ok values
            /\ CandleSet.indicators c = labelled label values)
    /\ match fst (CandleSet.push candles s cs) with
       | Ok _ =>
           length new = length (batch_of candles)
           /\ candles_at (snd (CandleSet.push candles s cs)) s
              = trimmed (CandleSet.bufferSize config_) new
       | Throw _ =>
           length new < length (batch_of candles)
           /\ candles_at (snd (CandleSet.push candles s cs)) s = new
       end.
Proof.
  intros Hload Hspecs Hagg Hperiod.
  exists (CandleSet.mkCandleSet config_ [Ema.ema emaTI label opts] []).
  assert (Hnew : CandleSet.new_CandleSet loader config_
                 = Ok (CandleSet.mkCandleSet config_ [Ema.ema emaTI label opts] [])).
  { unfold CandleSet.new_CandleSet. rewrite Hspecs. cbn. by rewrite Hload. }
  set (cs := CandleSet.mkCandleSet config_ [Ema.ema emaTI label opts] []).
  destruct (push_newer cs candles s) as (Hfst & Hsnd & _); [done | done | done |].
  destruct (appended_spec (CandleSet.plugins cs) (batch_of candles) (candles_at cs s))
    as (new & Hl & Hrows & Hlen).
  exists new. split; [exact Hnew |]. split; [done |]. split.
  - intros k c Hk. destruct (Hrows k c Hk) as (row & Hrow & Hc & Ho).
    change (candles_at cs s) with (@nil CandleSet.Candle) in Hc. cbn [app] in Hc.
    cbn [CandleSet.plugins cs with_indicators] in Hc.
    rewrite (ema_numeric_period emaTI label opts (take k new) (blank row) p Hperiod) in Hc.
    assert (Hk' : length (take k new) = k).
    { rewrite length_take. apply lookup_lt_Some in Hk. lia. }
    rewrite Hk' in Hc.
    destruct (emaTI _ _) as [values|] eqn:Ev; cbn in Hc; [| discriminate].
    injection Hc as <-. exists row, values. split; [exact Hrow |]. split; [exact Ho |].
    split; [exact Ev |]. cbn. unfold CandleSet.spread. apply (right_id ∅ (∪)).
  - rewrite Hfst, Hsnd.
    change (candles_at cs s) with (@nil CandleSet.Candle) in *. cbn [app] in *.
    destruct (fst (appended _ _ _)); rewrite Hl; done.
Qed.

Lemma push_computes_ema_witness :
  exists cs new,
    CandleSet.new_CandleSet (rt := example_runtime) (aggOps := example_agg)
      (ema_loader (rt := example_runtime) example_emaTI) ema_config = Ok cs
    /\ CandleSet.marketCandles cs = []
    /\ forall k c, new !! k = Some c ->
         exists row values,
           batch_of (CandleSet.Many [row_at 1; row_at 2]) !! k = Some row
           /\ ohlcv c = numbers_of (rt := example_runtime) row
           /\ example_emaTI (VNum (of_nat 2))
                (map (fun c => Ema.candle_field c
                                 (CandleSet.template (rt := example_runtime)
                                    (CandleSet.prop ema_opts "key")))
                   (drop (k - 3) (take k new) ++ [blank (rt := example_runtime) row]))
              = Ok values
           /\ CandleSet.indicators c = labelled "ema2" values.
Proof.
  destruct (push_computes_ema (rt := example_runtime) (aggOps := example_agg)
              example_emaTI (ema_loader (rt := example_runtime) example_emaTI) ema_config
              "ema2" ema_opts 2 (CandleSet.Many [row_at 1; row_at 2]) "BTC")
    as (cs & new & Hcs & Hempty & Hrows & _);
    [reflexivity | reflexivity | reflexivity | reflexivity |].
  exists cs, new. split; [exact Hcs |]. split; [exact Hempty |]. exact Hrows.
Defined.
